(** * audio-capture-poc: segmentation, normalisation, upload and transcript merge

    A shallow embedding of the capture pipeline of the repository:

    - [src/hooks/useAudioRecording.ts]: the [ondataavailable] / [onstop]
      handlers of [startRecording] (the overlap segmenter with tail
      retention), the live-subtitle loop ([startLiveSubtitles],
      [stopLiveSubtitles]) and [sendChunkToTranscription];
    - [src/utils/audioProcessing.ts]: [floatTo16BitPCM], [encodeWavBuffer],
      [mixToMono], [resampleBuffer] and [ensureWavBlob];
    - [components/AudioCapture.tsx]: the [onTranscription] callback that
      merges a transcription into the subtitle list.

    Conventions.  A [Blob] is its MIME type and its bytes.  React refs
    ([useRef]) are fields of a record that the handlers take and return.
    A handler of the recorder returns, beside the new refs, the segments it
    sealed, in order.  What the platform contributes (the audio decoder,
    the offline renderer, the transcription server) is a parameter of the
    functions that use it. *)

From Stdlib Require Import String Ascii.
From Stdlib.Strings Require Import Byte.
From Stdlib Require Import List Permutation ZArith QArith Qminmax Qround Bool Lia.
Import ListNotations.

Local Open Scope Z_scope.

(* ===================================================================== *)
(** ** JavaScript values shared by the modules                            *)
(* ===================================================================== *)

(** [Array.prototype.slice(-k)]: the elements from index
    [max (length - k) 0] on. *)
Definition slice_neg {A : Type} (k : nat) (l : list A) : list A :=
  skipn (length l - k) l.

(** [String.prototype.includes]. *)
Fixpoint includes (needle hay : string) : bool :=
  String.prefix needle hay ||
  match hay with
  | EmptyString => false
  | String _ rest => includes needle rest
  end.

(** The bytes of a [Uint8Array] element written from a number:
    the value modulo 256. *)
Definition byte_of_Z (z : Z) : byte :=
  match Byte.of_N (Z.to_N (z mod 256)) with
  | Some b => b
  | None => x00
  end.

Definition Z_of_byte (b : byte) : Z := Z.of_N (Byte.to_N b).

Module BlobModel.

Record Blob : Type := mkBlob {
  type : string;
  bytes : list byte
}.

Definition size (b : Blob) : Z := Z.of_nat (length (bytes b)).

(** The [type] option of the [Blob] constructor: a string with a character
    outside U+0020..U+007E becomes the empty string, any other is
    lower-cased. *)
Definition printable (c : ascii) : bool :=
  let n := nat_of_ascii c in (32 <=? n)%nat && (n <=? 126)%nat.

Definition lower (c : ascii) : ascii :=
  let n := nat_of_ascii c in
  if (65 <=? n)%nat && (n <=? 90)%nat then ascii_of_nat (n + 32) else c.

Fixpoint string_forallb (p : ascii -> bool) (s : string) : bool :=
  match s with
  | EmptyString => true
  | String c rest => p c && string_forallb p rest
  end.

Fixpoint string_map (f : ascii -> ascii) (s : string) : string :=
  match s with
  | EmptyString => EmptyString
  | String c rest => String (f c) (string_map f rest)
  end.

Definition normalizeType (t : string) : string :=
  if string_forallb printable t then string_map lower t else EmptyString.

(** [new Blob(parts, { type })]: the parts' bytes in order; [type] is
    [None] for [undefined]. *)
Definition new_Blob (parts : list Blob) (ty : option string) : Blob :=
  {| type := match ty with Some t => normalizeType t | None => EmptyString end;
     bytes := concat (map bytes parts) |}.

(** [new Blob([arrayBuffer], { type })]. *)
Definition new_Blob_of_buffer (buffer : list byte) (ty : string) : Blob :=
  {| type := normalizeType ty; bytes := buffer |}.

End BlobModel.
Import BlobModel.

(* ===================================================================== *)
(** ** The overlap segmenter of [startRecording] (tail-retention mode)    *)
(* ===================================================================== *)

Module Recording.

(** A sealed segment: the array of chunks handed to the [Blob]
    constructor when the segment is cut. *)
Definition Segment : Type := list Blob.

(** The refs of [useAudioRecording] the recorder's handlers use. *)
Record Refs : Type := mkRefs {
  chunksRef : list Blob;
  segmentChunksRef : list Blob;
  segmentElapsedMsRef : Z
}.

(** The refs as [useRef] creates them. *)
Definition initialRefs : Refs :=
  {| chunksRef := []; segmentChunksRef := []; segmentElapsedMsRef := 0 |}.

Definition timesliceMs : Z := 250.
Definition overlapMs : Z := 1000.

(** [Math.ceil(overlapMs / timesliceMs)]. *)
Definition overlapCount : nat :=
  Z.to_nat (Qceiling (inject_Z overlapMs / inject_Z timesliceMs)).

(** [opts?.segmentDurationSec || 5]: [undefined] and [0] fall back to 5.
    A JavaScript number is taken as the rational it denotes; the infinite
    durations, under which nothing is ever sealed, are left out. *)
Definition orDefault (segmentDurationSec : option Q) : Q :=
  match segmentDurationSec with
  | Some s => if Qeq_bool s 0 then 5 else s
  | None => 5
  end.

(** [Math.max(1000, (opts?.segmentDurationSec || 5) * 1000)]. *)
Definition segmentTargetMs (segmentDurationSec : option Q) : Q :=
  Qmax 1000 (orDefault segmentDurationSec * 1000).

(** The body of [if (opts?.streamToServer)] in [recorder.ondataavailable]:
    the segmenter's step for one chunk.  It returns the new refs and the
    segments sealed by this chunk (none or one). *)
Definition onChunk (target : Q) (chunk : Blob) (r : Refs)
  : Refs * list Segment :=
  let buffered := segmentChunksRef r ++ [chunk] in
  let elapsed := segmentElapsedMsRef r + timesliceMs in
  if Qle_bool target (inject_Z elapsed) then
    let keep := Nat.min (length buffered) overlapCount in
    let tail := if (0 <? keep)%nat then slice_neg keep buffered else [] in
    ({| chunksRef := chunksRef r;
        segmentChunksRef := tail;
        segmentElapsedMsRef := Z.of_nat keep * timesliceMs |},
     [buffered])
  else
    ({| chunksRef := chunksRef r;
        segmentChunksRef := buffered;
        segmentElapsedMsRef := elapsed |},
     []).

(** [recorder.ondataavailable]. *)
Definition ondataavailable (streamToServer : bool) (target : Q)
  (data : Blob) (r : Refs) : Refs * list Segment :=
  if 0 <? size data then
    let r1 := {| chunksRef := chunksRef r ++ [data];
                 segmentChunksRef := segmentChunksRef r;
                 segmentElapsedMsRef := segmentElapsedMsRef r |} in
    if streamToServer then onChunk target data r1 else (r1, [])
  else (r, []).

(** The segment part of [recorder.onstop]: a non-empty buffer is sealed
    and the segmenter is reset. *)
Definition onstop (streamToServer : bool) (r : Refs) : Refs * list Segment :=
  if streamToServer && (0 <? length (segmentChunksRef r))%nat then
    ({| chunksRef := chunksRef r;
        segmentChunksRef := [];
        segmentElapsedMsRef := 0 |},
     [segmentChunksRef r])
  else (r, []).

(** The [dataavailable] events of one recorder, in order, from the refs
    [r]; the sealed segments are collected in sealing order. *)
Fixpoint feed (streamToServer : bool) (target : Q) (datas : list Blob)
  (r : Refs) : Refs * list Segment :=
  match datas with
  | [] => (r, [])
  | d :: rest =>
      let '(r1, s1) := ondataavailable streamToServer target d r in
      let '(r2, s2) := feed streamToServer target rest r1 in
      (r2, s1 ++ s2)
  end.

(** One recording with [streamToServer] set, from fresh refs: the chunks
    the recorder delivers, each sealing zero or one segment. *)
Definition recording (segmentDurationSec : option Q) (datas : list Blob)
  : Refs * list Segment :=
  feed true (segmentTargetMs segmentDurationSec) datas initialRefs.

(** The same recording followed by the recorder's [stop] event. *)
Definition session (segmentDurationSec : option Q) (datas : list Blob)
  : Refs * list Segment :=
  let '(r, sealed) := recording segmentDurationSec datas in
  let '(r', final) := onstop true r in
  (r', sealed ++ final).

(** The chunks a segment carries over from the segment sealed before it:
    the [keep] of that seal. *)
Definition carried (previous : option Segment) : nat :=
  match previous with
  | None => 0%nat
  | Some p => Nat.min (length p) overlapCount
  end.

(** The non-overlap region of each segment: the segment without the chunks
    carried over from its predecessor. *)
Fixpoint nonOverlapRegions (previous : option Segment) (segs : list Segment)
  : list (list Blob) :=
  match segs with
  | [] => []
  | s :: rest => skipn (carried previous) s :: nonOverlapRegions (Some s) rest
  end.

(** The chunks that pass the guard of [ondataavailable]. *)
Definition delivered (datas : list Blob) : list Blob :=
  filter (fun d => 0 <? size d) datas.

(** The segments sealed by one recorder: during the recording, or once
    the recorder has stopped. *)
Definition sealedSegments (segmentDurationSec : option Q) (datas : list Blob)
  (stopped : bool) : list Segment :=
  if stopped then snd (session segmentDurationSec datas)
  else snd (recording segmentDurationSec datas).

(** [n] chunks as a recorder delivers them, each of one byte. *)
Definition sampleChunks (n : nat) : list Blob :=
  map (fun i => mkBlob "audio/webm;codecs=opus" [byte_of_Z (Z.of_nat i)])
      (seq 1 n).

(** The last element of a list, if any. *)
Fixpoint last_opt {A : Type} (l : list A) : option A :=
  match l with
  | [] => None
  | x :: rest => match rest with [] => Some x | _ => last_opt rest end
  end.

(** Two consecutive segments share the overlap window. *)
Definition link (a b : Segment) : Prop :=
  firstn overlapCount b = slice_neg overlapCount a /\
  length (firstn overlapCount b) = overlapCount.

Fixpoint chained (segs : list Segment) : Prop :=
  match segs with
  | [] => True
  | a :: rest =>
      match rest with [] => True | b :: _ => link a b end /\ chained rest
  end.

(** What holds of the refs [r] and the segments [segs] sealed so far once
    the chunks [sofar] have passed the guard. *)
Record Inv (sofar : list Blob) (r : Refs) (segs : list Segment) : Prop := {
  inv_elapsed :
    segmentElapsedMsRef r = Z.of_nat (length (segmentChunksRef r)) * timesliceMs;
  inv_all : chunksRef r = sofar;
  inv_cover :
    concat (nonOverlapRegions None segs)
      ++ skipn (carried (last_opt segs)) (segmentChunksRef r) = sofar;
  inv_room : (carried (last_opt segs) <= length (segmentChunksRef r))%nat;
  inv_carry :
    forall a, last_opt segs = Some a ->
      firstn overlapCount (segmentChunksRef r) = slice_neg overlapCount a;
  inv_long : Forall (fun s => (overlapCount <= length s)%nat) segs;
  inv_chain : chained segs
}.

End Recording.

(* ===================================================================== *)
(** ** [utils/audioProcessing.ts]: conversion to mono 16-bit PCM WAV      *)
(* ===================================================================== *)

Module AudioProcessing.

(** A JavaScript number.  A finite value is the rational it denotes (the
    two zeros are one value).  Comparison, [Math.min], [Math.max] and the
    products of [floatTo16BitPCM] are exact on the values a [Float32Array]
    holds: a 24-bit significand times a 16-bit constant fits the 53 bits
    of a double. *)
Inductive Number : Type :=
| NaN
| NegInfinity
| PosInfinity
| Finite (q : Q).

Definition Math_min (a b : Number) : Number :=
  match a, b with
  | NaN, _ | _, NaN => NaN
  | NegInfinity, _ | _, NegInfinity => NegInfinity
  | PosInfinity, x | x, PosInfinity => x
  | Finite p, Finite q => if Qle_bool p q then Finite p else Finite q
  end.

Definition Math_max (a b : Number) : Number :=
  match a, b with
  | NaN, _ | _, NaN => NaN
  | PosInfinity, _ | _, PosInfinity => PosInfinity
  | NegInfinity, x | x, NegInfinity => x
  | Finite p, Finite q => if Qle_bool p q then Finite q else Finite p
  end.

(** [x < 0]. *)
Definition ltZero (x : Number) : bool :=
  match x with
  | NaN => false
  | NegInfinity => true
  | PosInfinity => false
  | Finite q => negb (Qle_bool 0 q)
  end.

(** [x * k] for an integer constant [k]. *)
Definition times (x : Number) (k : Z) : Number :=
  match x with
  | NaN => NaN
  | PosInfinity =>
      if 0 <? k then PosInfinity else if k <? 0 then NegInfinity else NaN
  | NegInfinity =>
      if 0 <? k then NegInfinity else if k <? 0 then PosInfinity else NaN
  | Finite q => Finite (q * inject_Z k)
  end.

(** Truncation toward zero; [NaN] and the infinities give 0, as in the
    integer conversions of [DataView]. *)
Definition ToIntegerOrZero (x : Number) : Z :=
  match x with
  | Finite q => if Qle_bool 0 q then Qfloor q else Qceiling q
  | _ => 0
  end.

Definition ToInt16 (x : Number) : Z :=
  let m := ToIntegerOrZero x mod 65536 in
  if 32768 <=? m then m - 65536 else m.

Definition ToUint16 (x : Number) : Z := ToIntegerOrZero x mod 65536.
Definition ToUint32 (x : Number) : Z := ToIntegerOrZero x mod 4294967296.

(** *** [DataView] over an [ArrayBuffer] *)

(** The view is the buffer's bytes; a write outside the buffer throws a
    [RangeError], which is [None]. *)
Definition DataView : Type := list byte.

Definition new_ArrayBuffer (byteLength : nat) : list byte :=
  repeat x00 byteLength.

Notation "x <- e ;; k" :=
  (match e with Some x => k | None => None end)
  (at level 60, e at next level, right associativity).

Definition setBytes (view : DataView) (byteOffset : nat) (bs : list byte)
  : option DataView :=
  if (byteOffset + length bs <=? length view)%nat
  then Some (firstn byteOffset view ++ bs ++ skipn (byteOffset + length bs) view)
  else None.

(** The [n] bytes of the integer [v] in two's complement. *)
Definition intBytes (n : nat) (v : Z) (littleEndian : bool) : list byte :=
  let le := map (fun i => byte_of_Z (v / 256 ^ Z.of_nat i)) (seq 0 n) in
  if littleEndian then le else rev le.

Definition setUint8 (view : DataView) (byteOffset : nat) (value : Z)
  : option DataView :=
  setBytes view byteOffset [byte_of_Z value].

Definition setUint16 (view : DataView) (byteOffset : nat) (value : Number)
  (littleEndian : bool) : option DataView :=
  setBytes view byteOffset (intBytes 2 (ToUint16 value) littleEndian).

Definition setUint32 (view : DataView) (byteOffset : nat) (value : Number)
  (littleEndian : bool) : option DataView :=
  setBytes view byteOffset (intBytes 4 (ToUint32 value) littleEndian).

Definition setInt16 (view : DataView) (byteOffset : nat) (value : Number)
  (littleEndian : bool) : option DataView :=
  setBytes view byteOffset (intBytes 2 (ToInt16 value) littleEndian).

(** The unsigned integer a little-endian byte sequence denotes, and the
    reads of a [DataView] used to inspect a header. *)
Fixpoint uintOfBytes (bs : list byte) : Z :=
  match bs with
  | [] => 0
  | b :: rest => Z_of_byte b + 256 * uintOfBytes rest
  end.

Definition getUint (view : DataView) (byteOffset n : nat) : Z :=
  uintOfBytes (firstn n (skipn byteOffset view)).

Definition getInt16 (view : DataView) (byteOffset : nat) : Z :=
  let u := getUint view byteOffset 2 in
  if 32768 <=? u then u - 65536 else u.

(** *** The functions of the file *)

Definition TARGET_SAMPLE_RATE : Number := Finite 16000.

(** [bytes.forEach((byte, index) => view.setUint8(offset + index, byte))]. *)
Fixpoint forEach_setUint8 (view : DataView) (offset : nat) (bs : list byte)
  : option DataView :=
  match bs with
  | [] => Some view
  | b :: rest =>
      view' <- setUint8 view offset (Z_of_byte b) ;;
      forEach_setUint8 view' (S offset) rest
  end.

(** [textEncoder.encode] on the ASCII strings the file writes. *)
Definition writeString (view : DataView) (offset : nat) (str : string)
  : option DataView :=
  forEach_setUint8 view offset (list_byte_of_string str).

(** The value [floatTo16BitPCM] passes to [setInt16] for one sample. *)
Definition scaled (sample : Number) : Number :=
  let clamped := Math_max (Finite (-1)) (Math_min (Finite 1) sample) in
  if ltZero clamped then times clamped 32768 (* 0x8000 *)
  else times clamped 32767 (* 0x7fff *).

(** The loop of [floatTo16BitPCM], from index [i]. *)
Fixpoint floatTo16BitPCM_from (output : DataView) (offset i : nat)
  (input : list Number) : option DataView :=
  match input with
  | [] => Some output
  | sample :: rest =>
      output' <- setInt16 output (offset + i * 2) (scaled sample) true ;;
      floatTo16BitPCM_from output' offset (S i) rest
  end.

Definition floatTo16BitPCM (output : DataView) (offset : nat)
  (input : list Number) : option DataView :=
  floatTo16BitPCM_from output offset 0 input.

(** An [AudioBuffer]: its sample rate and the [Float32Array] of each
    channel. *)
Record AudioBuffer : Type := mkAudioBuffer {
  sampleRate : Number;
  channels : list (list Number)
}.

Definition numberOfChannels (b : AudioBuffer) : nat := length (channels b).

(** [buffer.length]: the number of sample frames. *)
Definition frames (b : AudioBuffer) : nat := length (nth 0 (channels b) []).

(** [getChannelData(c)]; an index out of range throws. *)
Definition getChannelData (b : AudioBuffer) (c : nat) : option (list Number) :=
  nth_error (channels b) c.

Definition numberOfNat (n : nat) : Number := Finite (inject_Z (Z.of_nat n)).

Definition encodeWavBuffer (audioBuffer : AudioBuffer) : option (list byte) :=
  channelData <- getChannelData audioBuffer 0 ;;
  let byteLength := (length channelData * 2)%nat in
  let buffer := new_ArrayBuffer (44 + byteLength) in
  let view : DataView := buffer in
  view <- writeString view 0 "RIFF" ;;
  view <- setUint32 view 4 (numberOfNat (36 + byteLength)) true ;;
  view <- writeString view 8 "WAVE" ;;
  view <- writeString view 12 "fmt " ;;
  view <- setUint32 view 16 (Finite 16) true ;;  (* PCM chunk size *)
  view <- setUint16 view 20 (Finite 1) true ;;   (* PCM format *)
  view <- setUint16 view 22 (Finite 1) true ;;   (* mono *)
  view <- setUint32 view 24 (sampleRate audioBuffer) true ;;
  view <- setUint32 view 28 (times (sampleRate audioBuffer) 2) true ;;
  view <- setUint16 view 32 (Finite 2) true ;;   (* block align *)
  view <- setUint16 view 34 (Finite 16) true ;;  (* bits per sample *)
  view <- writeString view 36 "data" ;;
  view <- setUint32 view 40 (numberOfNat byteLength) true ;;
  floatTo16BitPCM view 44 channelData.

(** What the Web Audio implementation contributes: the decoder, the
    offline rendering of a source buffer (its channel data, or a failure of
    the constructor or of the rendering), and the rounded arithmetic on
    doubles that [mixToMono] and [resampleBuffer] use. *)
Record Platform : Type := mkPlatform {
  decodeAudioData : list byte -> option AudioBuffer;
  startRendering :
    nat (* numberOfChannels *) -> Number (* length *) ->
    Number (* sampleRate *) -> AudioBuffer (* source.buffer *) ->
    option (list (list Number));
  f64_add : Number -> Number -> Number;
  f64_mul : Number -> Number -> Number;
  f64_div : Number -> Number -> Number;
  fround : Number -> Number;
  Math_ceil : Number -> Number
}.

Section WithPlatform.
Variable P : Platform.

(** The inner loop of [mixToMono]: the sum over the channels at frame [i]. *)
Definition sumAt (channelData : list (list Number)) (i : nat) : Number :=
  fold_left (fun sum channel => f64_add P sum (nth i channel NaN))
            channelData (Finite 0).

Definition mixToMono (buffer : AudioBuffer) : AudioBuffer :=
  if (numberOfChannels buffer =? 1)%nat then buffer
  else
    let length := frames buffer in
    let channelData := channels buffer in
    let output :=
      map (fun i => fround P (f64_div P (sumAt channelData i)
                                      (numberOfNat (List.length channelData))))
          (seq 0 length) in
    {| sampleRate := sampleRate buffer; channels := [output] |}.

(** [buffer.duration]. *)
Definition duration (buffer : AudioBuffer) : Number :=
  f64_div P (numberOfNat (frames buffer)) (sampleRate buffer).

(** [resampleBuffer]: the rendered buffer has the sample rate of the
    offline context. *)
Definition resampleBuffer (buffer : AudioBuffer) (sampleRate : Number)
  : option AudioBuffer :=
  let duration := duration buffer in
  let monoSourceBuffer := mixToMono buffer in
  rendered <- startRendering P 1 (Math_ceil P (f64_mul P duration sampleRate))
                              sampleRate monoSourceBuffer ;;
  Some {| sampleRate := sampleRate; channels := rendered |}.

(** [blob.type && blob.type.includes('wav')]. *)
Definition reportsWav (blob : Blob) : bool :=
  negb (String.eqb (type blob) "") && includes "wav" (type blob).

(** [ensureWavBlob]; [sampleRate] is [None] when the caller leaves it out.
    [None] as a result is a rejected promise.  Opening and closing the
    [AudioContext] is part of [decodeAudioData] here. *)
Definition ensureWavBlob (blob : Blob) (sampleRate : option Number)
  : option Blob :=
  let sampleRate :=
    match sampleRate with Some s => s | None => TARGET_SAMPLE_RATE end in
  if reportsWav blob then Some blob
  else
    let arrayBuffer := bytes blob in
    decoded <- decodeAudioData P arrayBuffer ;;
    resampled <- resampleBuffer decoded sampleRate ;;
    wavArrayBuffer <- encodeWavBuffer resampled ;;
    Some (new_Blob_of_buffer wavArrayBuffer "audio/wav").

End WithPlatform.

(** The PCM payload of a channel: two bytes per sample, low byte first. *)
Definition pcmBytes (input : list Number) : list byte :=
  flat_map (fun sample => intBytes 2 (ToInt16 (scaled sample)) true) input.

(** The 44 bytes [encodeWavBuffer] writes before the samples, for a
    buffer of the given sample rate and payload length. *)
Definition wavHeader (rate : Number) (byteLength : nat) : list byte :=
  list_byte_of_string "RIFF"
  ++ intBytes 4 (ToUint32 (numberOfNat (36 + byteLength))) true
  ++ list_byte_of_string "WAVE"
  ++ list_byte_of_string "fmt "
  ++ intBytes 4 (ToUint32 (Finite 16)) true
  ++ intBytes 2 (ToUint16 (Finite 1)) true
  ++ intBytes 2 (ToUint16 (Finite 1)) true
  ++ intBytes 4 (ToUint32 rate) true
  ++ intBytes 4 (ToUint32 (times rate 2)) true
  ++ intBytes 2 (ToUint16 (Finite 2)) true
  ++ intBytes 2 (ToUint16 (Finite 16)) true
  ++ list_byte_of_string "data"
  ++ intBytes 4 (ToUint32 (numberOfNat byteLength)) true.

(** The fields of a WAV header, read from the bytes of a blob. *)
Definition declaredChannels (b : Blob) : Z := getUint (bytes b) 22 2.
Definition declaredSampleRate (b : Blob) : Z := getUint (bytes b) 24 4.
Definition declaredBitsPerSample (b : Blob) : Z := getUint (bytes b) 34 2.
Definition declaredDataLength (b : Blob) : Z := getUint (bytes b) 40 4.

(** The payload of a canonical blob: what follows the 44-byte header. *)
Definition payload (b : Blob) : list byte := skipn 44 (bytes b).

(** The result of [ensureWavBlob] with the default rate, or the input
    itself when the conversion is rejected. *)
Definition convertedOr (P : Platform) (blob : Blob) : Blob :=
  match ensureWavBlob P blob None with
  | Some out => out
  | None => blob
  end.

(** *** Inputs and platforms used in examples *)

(** A stereo, 44100 Hz, 16-bit WAV file holding one frame, typed
    [audio/wav]. *)
Definition stereoWav : Blob :=
  {| type := "audio/wav";
     bytes :=
       list_byte_of_string "RIFF" ++ map byte_of_Z [40; 0; 0; 0]
       ++ list_byte_of_string "WAVE" ++ list_byte_of_string "fmt "
       ++ map byte_of_Z [16; 0; 0; 0;  1; 0;  2; 0;
                         68; 172; 0; 0;  16; 177; 2; 0;  4; 0;  16; 0]
       ++ list_byte_of_string "data" ++ map byte_of_Z [4; 0; 0; 0]
       ++ map byte_of_Z [1; 0; 255; 255] |}.

(** A recorder chunk that is no WAV file. *)
Definition webmChunk : Blob :=
  {| type := "audio/webm;codecs=opus";
     bytes := map byte_of_Z [26; 69; 223; 163] |}.

Definition exact2 (f : Q -> Q -> Q) (a b : Number) : Number :=
  match a, b with
  | Finite p, Finite q => Finite (f p q)
  | _, _ => NaN
  end.

(** A platform whose decoder rejects every input. *)
Definition deafPlatform : Platform :=
  {| decodeAudioData := fun _ => None;
     startRendering := fun _ _ _ _ => None;
     f64_add := exact2 Qplus;
     f64_mul := exact2 Qmult;
     f64_div := exact2 Qdiv;
     fround := fun x => x;
     Math_ceil := fun x => x |}.

(** A platform that decodes every input to the same two stereo frames at
    48000 Hz and renders the source buffer unchanged. *)
Definition toyPlatform : Platform :=
  {| decodeAudioData := fun _ =>
       Some {| sampleRate := Finite 48000;
               channels := [[Finite (1 # 2); Finite 2];
                            [Finite (-1 # 4); Finite 0]] |};
     startRendering := fun _ _ _ source => Some (channels source);
     f64_add := exact2 Qplus;
     f64_mul := exact2 Qmult;
     f64_div := exact2 Qdiv;
     fround := fun x => x;
     Math_ceil := fun x => x |}.

End AudioProcessing.

(* ===================================================================== *)
(** ** [components/AudioCapture.tsx]: the transcript merge                *)
(* ===================================================================== *)

Module Transcript.

(** A JavaScript string: its UTF-16 code units. *)
Definition jsstring : Type := list N.

(** The class [\s] of a regular expression, which is also what [trim]
    strips: white space and line terminators. *)
Definition isWhiteSpace (c : N) : bool :=
  ((9 <=? c) && (c <=? 13)         (* TAB, LF, VT, FF, CR *)
   || (c =? 32)                     (* SPACE *)
   || (c =? 160)                    (* U+00A0 *)
   || (c =? 5760)                   (* U+1680 *)
   || ((8192 <=? c) && (c <=? 8202))  (* U+2000 .. U+200A *)
   || (c =? 8232) || (c =? 8233)    (* U+2028, U+2029 *)
   || (c =? 8239)                   (* U+202F *)
   || (c =? 8287)                   (* U+205F *)
   || (c =? 12288)                  (* U+3000 *)
   || (c =? 65279))%N.              (* U+FEFF *)

Definition SPACE : N := 32%N.

(** [s.replace(/\s+/g, ' ')]: each maximal run of white space becomes one
    space.  [inRun] tells that the previous code unit was white space. *)
Fixpoint replaceRuns (inRun : bool) (s : jsstring) : jsstring :=
  match s with
  | [] => []
  | c :: rest =>
      if isWhiteSpace c
      then (if inRun then replaceRuns true rest
            else SPACE :: replaceRuns true rest)
      else c :: replaceRuns false rest
  end.

Fixpoint trimStart (s : jsstring) : jsstring :=
  match s with
  | [] => []
  | c :: rest => if isWhiteSpace c then trimStart rest else s
  end.

(** The string without its trailing white space. *)
Fixpoint trimEnd (s : jsstring) : jsstring :=
  match s with
  | [] => []
  | c :: rest =>
      match trimEnd rest with
      | [] => if isWhiteSpace c then [] else [c]
      | kept => c :: kept
      end
  end.

(** [String.prototype.trim]. *)
Definition trim (s : jsstring) : jsstring := trimEnd (trimStart s).

(** [===] on strings. *)
Fixpoint jsstring_eqb (a b : jsstring) : bool :=
  match a, b with
  | [], [] => true
  | x :: a', y :: b' => (x =? y)%N && jsstring_eqb a' b'
  | _, _ => false
  end.

(** The JSON body of a successful transcription; [text] is [None] when the
    field is missing. *)
Record TranscriptionResponse : Type := mkResponse {
  text : option jsstring;
  detected_language : option jsstring;
  duration : option Q
}.

(** [(r?.text || '').replace(/\s+/g, ' ').trim()]. *)
Definition normalizedText (r : TranscriptionResponse) : jsstring :=
  trim (replaceRuns false (match text r with Some t => t | None => [] end)).

Definition maxLines : nat := 200.

(** The [onTranscription] callback, as the state update it queues on
    [subtitles]. *)
Definition onTranscription (r : TranscriptionResponse) (prev : list jsstring)
  : list jsstring :=
  let t := normalizedText r in
  match t with
  | [] => prev                                  (* if (!t) return *)
  | _ =>
      let last := List.last prev [] in          (* prev[prev.length - 1] || '' *)
      if jsstring_eqb t last then prev
      else slice_neg maxLines (prev ++ [t])
  end.

(** The subtitles after a sequence of transcriptions, from the empty list
    that [useState] starts with. *)
Definition merged (results : list TranscriptionResponse) : list jsstring :=
  fold_left (fun prev r => onTranscription r prev) results [].

(** White space occurs only as single spaces; [afterSpace] tells that the
    code unit before the string is white space. *)
Fixpoint squeezed (afterSpace : bool) (s : jsstring) : Prop :=
  match s with
  | [] => True
  | c :: rest =>
      if isWhiteSpace c
      then c = SPACE /\ afterSpace = false /\ squeezed true rest
      else squeezed false rest
  end.

Definition startsClean (s : jsstring) : Prop :=
  match s with
  | [] => True
  | c :: _ => isWhiteSpace c = false
  end.

(** No two neighbours of the list are equal. *)
Fixpoint noAdjacentEqual (lines : list jsstring) : Prop :=
  match lines with
  | [] => True
  | a :: rest =>
      match rest with [] => True | b :: _ => a <> b end /\ noAdjacentEqual rest
  end.

(** What white-space normalisation produces: no white space but single
    spaces, and none at either end. *)
Definition normalizeLine (s : jsstring) : jsstring :=
  trim (replaceRuns false s).

(** What every list of subtitles satisfies. *)
Definition wellFormed (lines : list jsstring) : Prop :=
  (length lines <= maxLines)%nat /\
  noAdjacentEqual lines /\
  Forall (fun l => l <> [] /\ normalizeLine l = l) lines.

(** The code units of an ASCII string, for examples. *)
Definition ofString (s : string) : jsstring :=
  map (fun b => Byte.to_N b) (list_byte_of_string s).

End Transcript.

(* ===================================================================== *)
(** ** The transcript merge as the specification states it                *)
(* ===================================================================== *)

Module TranscriptSpec.
Import Transcript.

(** The text of a transcription result, empty when there is none. *)
Definition textOf (r : TranscriptionResponse) : jsstring :=
  match text r with
  | Some t => t
  | None => []
  end.

(** White space, by enumeration: the code points of ECMAScript's
    WhiteSpace and LineTerminator productions (TAB, LF, VT, FF, CR, SPACE,
    U+00A0, U+1680, U+2000 to U+200A, U+2028, U+2029, U+202F, U+205F,
    U+3000, U+FEFF). *)
Definition whiteSpace : list N :=
  [9; 10; 11; 12; 13; 32; 160; 5760;
   8192; 8193; 8194; 8195; 8196; 8197; 8198; 8199; 8200; 8201; 8202;
   8232; 8233; 8239; 8287; 12288; 65279]%N.

Definition isSpace (c : N) : bool := existsb (N.eqb c) whiteSpace.

(** The words of a text: its maximal runs of code units that are no white
    space, in order. *)
Fixpoint words (s : jsstring) : list jsstring :=
  match s with
  | [] => []
  | c :: rest =>
      if isSpace c then words rest
      else
        match rest with
        | [] => [[c]]
        | d :: _ =>
            if isSpace d then [c] :: words rest
            else
              match words rest with
              | w :: ws => (c :: w) :: ws
              | [] => [[c]]
              end
        end
  end.

(** The words with one space (U+0020) between neighbours. *)
Fixpoint joinWords (ws : list jsstring) : jsstring :=
  match ws with
  | [] => []
  | w :: rest =>
      match rest with
      | [] => w
      | _ :: _ => w ++ 32%N :: joinWords rest
      end
  end.

(** "Collapsing runs of whitespace to single spaces and trimming": the
    words of the text, single spaces between them and none around them. *)
Definition collapseAndTrim (s : jsstring) : jsstring := joinWords (words s).

(** The current last line of the transcript, if it has a line. *)
Definition lastLine (transcript : list jsstring) : option jsstring :=
  match rev transcript with
  | l :: _ => Some l
  | [] => None
  end.

(** The last [n] lines of the transcript: the oldest are dropped. *)
Definition lastLines (n : nat) (transcript : list jsstring) : list jsstring :=
  rev (firstn n (rev transcript)).

(** "Normalize [result.text] [...]; if empty, discard.  Compare to the
    current last line; if identical, discard.  Otherwise append, then
    truncate the Transcript to its last 200 lines, dropping the oldest." *)
Definition mergeStep (resultText : jsstring) (transcript : list jsstring)
  : list jsstring :=
  match collapseAndTrim resultText with
  | [] => transcript
  | line =>
      match lastLine transcript with
      | Some l =>
          if list_eq_dec N.eq_dec line l then transcript
          else lastLines 200 (transcript ++ [line])
      | None => lastLines 200 (transcript ++ [line])
      end
  end.

(** The transcript after the results' texts are merged, one after the
    other, into the empty transcript. *)
Definition mergeAll (texts : list jsstring) : list jsstring :=
  fold_left (fun transcript resultText => mergeStep resultText transcript)
            texts [].

End TranscriptSpec.

(* ===================================================================== *)
(** ** [sendChunkToTranscription] and [services/transcription.ts]         *)
(* ===================================================================== *)

Module Pipeline.
Import AudioProcessing Transcript.

(** What [fetch] and the server answer to one request. *)
Inductive FetchOutcome : Type :=
| NetworkFailure (message : string)
| Response (ok : bool) (status : Z) (serverMessage : option string)
           (body : TranscriptionResponse).

(** The error [transcribeBlob] throws. *)
Inductive UploadError : Type :=
| NetworkError (message : string)
| ServiceError (message : string)       (* the server's message *)
| ServiceStatus (status : Z).           (* `HTTP ${res.status}` *)

(** The texts [setState] stores in [state.error]. *)
Inductive ErrorText : Type :=
| UploadFailed (e : UploadError)
| NoStreamForLive
| OpusNotSupported
| LostAudioTrack
| LiveRecorderFailed (message : string)
| LiveStartFailed (message : string).    (* `Failed to start live subtitles: ...` *)

(** The multipart request of [transcribeBlob]: the file part and the
    extension of its file name. *)
Record Request : Type := mkRequest {
  file : Blob;
  extension : string
}.

Definition inferExtensionFromMime (mime : string) : option string :=
  if String.eqb mime "" then None
  else if includes "wav" mime then Some "wav"%string
  else if includes "webm" mime then Some "webm"%string
  else if includes "mp4" mime then Some "m4a"%string
  else if includes "mpeg" mime then Some "mp3"%string
  else None.

(** The state the upload path reads and writes: [state.error] of the
    hook, the requests sent so far, and the [subtitles] of the component
    that [opts.onTranscription] updates. *)
Record HookState : Type := mkHookState {
  error : option ErrorText;
  requests : list Request;
  subtitles : list jsstring
}.

Definition initialHookState : HookState :=
  {| error := None; requests := []; subtitles := [] |}.

Section WithServices.
Variable P : Platform.
(** The outcome of the [n]-th request, for the blob it carries. *)
Variable fetch : nat -> Blob -> FetchOutcome.

(** [transcribeBlob]: the request it sends and what it returns or throws. *)
Definition transcribeBlob (n : nat) (blob : Blob)
  : Request * (UploadError + TranscriptionResponse) :=
  let ext := match inferExtensionFromMime (type blob) with
             | Some e => e
             | None => "webm"%string
             end in
  let request := {| file := blob; extension := ext |} in
  match fetch n blob with
  | NetworkFailure message => (request, inl (NetworkError message))
  | Response ok status serverMessage body =>
      if ok then (request, inr body)
      else
        match serverMessage with
        | Some msg =>
            if String.eqb msg "" then (request, inl (ServiceStatus status))
            else (request, inl (ServiceError msg))
        | None => (request, inl (ServiceStatus status))
        end
  end.

(** The blob [sendChunkToTranscription] uploads for a chunk: the chunk
    itself when it reports WAV or when the conversion throws, else the
    converted blob. *)
Definition payloadFor (chunk : Blob) : Blob :=
  if negb (includes "wav" (type chunk)) then
    match ensureWavBlob P chunk None with
    | Some converted => converted
    | None => chunk      (* 'Falling back to raw chunk for transcription' *)
    end
  else chunk.

(** [sendChunkToTranscription], run to completion. *)
Definition sendChunkToTranscription (chunk : Blob) (st : HookState)
  : HookState :=
  if size chunk =? 0 then st
  else
    let payload := payloadFor chunk in
    let '(request, result) := transcribeBlob (length (requests st)) payload in
    match result with
    | inr response =>
        {| error := error st;
           requests := requests st ++ [request];
           subtitles := onTranscription response (subtitles st) |}
    | inl e =>
        {| error := Some (UploadFailed e);
           requests := requests st ++ [request];
           subtitles := subtitles st |}
    end.

(** Segments sent one after the other, each upload settled before the
    next is started; the other interleavings are those of [Async]. *)
Definition sendAll (segments : list Blob) (st : HookState) : HookState :=
  fold_left (fun s seg => sendChunkToTranscription seg s) segments st.

End WithServices.

(** A server that accepts every request and transcribes nothing. *)
Definition silentServer (n : nat) (blob : Blob) : FetchOutcome :=
  Response true 200 None (mkResponse (Some []) None None).

End Pipeline.

(* ===================================================================== *)
(** ** The live-subtitle loop (sequential re-spawn mode)                  *)
(* ===================================================================== *)

Module Live.
Import AudioProcessing Transcript Pipeline.

Inductive RecordingState : Type := inactive | recording.

(** A recorder of the loop: its [state] and the [chunks] array its
    handlers close over. *)
Record MediaRecorder : Type := mkRecorder {
  state : RecordingState;
  chunks : list Blob
}.

(** The refs and state of the hook the loop uses. *)
Record LiveState : Type := mkLiveState {
  liveLoopActiveRef : bool;
  liveRecorderRef : option MediaRecorder;
  liveSubtitlesEnabled : bool;
  hook : HookState
}.

Definition initialLiveState : LiveState :=
  {| liveLoopActiveRef := false; liveRecorderRef := None;
     liveSubtitlesEnabled := false; hook := initialHookState |}.

(** What the platform answers when a recorder is spawned: whether the
    stream still has an audio track, the message of the exception the
    [MediaRecorder] constructor throws, if it throws, and the message of
    the exception [recorder.start()] throws, if it throws. *)
Record Spawn : Type := mkSpawn {
  freshTrack : bool;
  constructorThrows : option string;
  startThrows : option string
}.

Definition withError (e : ErrorText) (h : HookState) : HookState :=
  {| error := Some e; requests := requests h; subtitles := subtitles h |}.

Section WithServices.
Variable P : Platform.
Variable fetch : nat -> Blob -> FetchOutcome.
(** The MIME type [getBestMimeTypeForFormat('webm_opus')] returned. *)
Variable mime : string.

Definition startSegmentRecorder (env : Spawn) (st : LiveState) : LiveState :=
  if negb (liveLoopActiveRef st) then st
  else if negb (freshTrack env) then
    {| liveLoopActiveRef := false;
       liveRecorderRef := liveRecorderRef st;
       liveSubtitlesEnabled := false;
       hook := withError LostAudioTrack (hook st) |}
  else
    match constructorThrows env with
    | Some message =>
        {| liveLoopActiveRef := false;
           liveRecorderRef := liveRecorderRef st;
           liveSubtitlesEnabled := false;
           hook := withError (LiveRecorderFailed message) (hook st) |}
    | None =>
        (* [recorder.start()] is outside the [try]: when it throws, the
           recorder is referenced but never started, and no timer is set *)
        {| liveLoopActiveRef := true;
           liveRecorderRef :=
             Some {| state := match startThrows env with
                              | Some _ => inactive
                              | None => recording
                              end;
                     chunks := [] |};
           liveSubtitlesEnabled := liveSubtitlesEnabled st;
           hook := hook st |}
    end.

(** The exception that leaves [startSegmentRecorder]: that of
    [recorder.start()], which no handler inside it catches. *)
Definition escapes (env : Spawn) (st : LiveState) : option string :=
  if liveLoopActiveRef st && freshTrack env then
    match constructorThrows env with
    | Some _ => None
    | None => startThrows env
    end
  else None.

(** [recorder.ondataavailable] of the loop. *)
Definition ondataavailable (data : Blob) (chunks : list Blob) : list Blob :=
  if 0 <? size data then chunks ++ [data] else chunks.

(** [recorder.onstop] of the loop, for a recorder whose array is
    [chunks], in the run where the upload it starts settles at once; the
    runs where uploads settle later are those of [AsyncLive]. *)
Definition onstop (chunks : list Blob) (env : Spawn) (st : LiveState)
  : LiveState :=
  let st1 :=
    if (0 <? length chunks)%nat then
      {| liveLoopActiveRef := liveLoopActiveRef st;
         liveRecorderRef := liveRecorderRef st;
         liveSubtitlesEnabled := liveSubtitlesEnabled st;
         hook := sendChunkToTranscription P fetch
                   (new_Blob chunks (Some mime)) (hook st) |}
    else st in
  if liveLoopActiveRef st1 then startSegmentRecorder env st1 else st1.

(** [recorder.stop()] on a recording recorder started without a
    timeslice: the recorder becomes inactive, delivers what it gathered in
    one [dataavailable] event and then fires [stop]. *)
Definition recorder_stop (r : MediaRecorder) (gathered : Blob) (env : Spawn)
  (st : LiveState) : LiveState :=
  let stopped := {| state := inactive;
                    chunks := ondataavailable gathered (chunks r) |} in
  onstop (chunks stopped) env
    {| liveLoopActiveRef := liveLoopActiveRef st;
       liveRecorderRef := match liveRecorderRef st with
                          | Some _ => Some stopped
                          | None => None
                          end;
       liveSubtitlesEnabled := liveSubtitlesEnabled st;
       hook := hook st |}.

(** The callback of [window.setTimeout(..., segmentTargetMs)] for the
    recorder [liveRecorderRef] holds. *)
Definition onTimeout (gathered : Blob) (env : Spawn) (st : LiveState)
  : LiveState :=
  match liveRecorderRef st with
  | Some r =>
      match state r with
      | recording => recorder_stop r gathered env st
      | inactive => st
      end
  | None => st
  end.

Definition startLiveSubtitles (hasStream mimeSupported : bool) (env : Spawn)
  (st : LiveState) : LiveState :=
  if liveSubtitlesEnabled st then st
  else if negb hasStream then
    {| liveLoopActiveRef := liveLoopActiveRef st;
       liveRecorderRef := liveRecorderRef st;
       liveSubtitlesEnabled := liveSubtitlesEnabled st;
       hook := withError NoStreamForLive (hook st) |}
  else if negb mimeSupported then
    {| liveLoopActiveRef := liveLoopActiveRef st;
       liveRecorderRef := liveRecorderRef st;
       liveSubtitlesEnabled := liveSubtitlesEnabled st;
       hook := withError OpusNotSupported (hook st) |}
  else
    let entered := {| liveLoopActiveRef := true;
                      liveRecorderRef := liveRecorderRef st;
                      liveSubtitlesEnabled := true;
                      hook := hook st |} in
    let st1 := startSegmentRecorder env entered in
    match escapes env entered with
    | Some message =>                   (* the [catch] of [startLiveSubtitles] *)
        {| liveLoopActiveRef := liveLoopActiveRef st1;
           liveRecorderRef := liveRecorderRef st1;
           liveSubtitlesEnabled := liveSubtitlesEnabled st1;
           hook := withError (LiveStartFailed message) (hook st1) |}
    | None => st1
    end.

Definition stopLiveSubtitles (gathered : Blob) (env : Spawn) (st : LiveState)
  : LiveState :=
  let st1 := {| liveLoopActiveRef := false;
                liveRecorderRef := liveRecorderRef st;
                liveSubtitlesEnabled := liveSubtitlesEnabled st;
                hook := hook st |} in
  let st2 :=
    match liveRecorderRef st1 with
    | Some r =>
        let cleared := {| liveLoopActiveRef := false;
                          liveRecorderRef := None;
                          liveSubtitlesEnabled := liveSubtitlesEnabled st1;
                          hook := hook st1 |} in
        match state r with
        | recording => recorder_stop r gathered env cleared
        | inactive => cleared
        end
    | None => st1
    end in
  {| liveLoopActiveRef := liveLoopActiveRef st2;
     liveRecorderRef := liveRecorderRef st2;
     liveSubtitlesEnabled := false;
     hook := hook st2 |}.

End WithServices.

(** The platform's answer when a recorder can be spawned. *)
Definition spawnOk : Spawn :=
  {| freshTrack := true; constructorThrows := None; startThrows := None |}.

Definition opusMime : string := "audio/webm;codecs=opus".

(** The loop right after [startLiveSubtitles] on a fresh hook. *)
Definition liveStarted : LiveState :=
  startLiveSubtitles true true spawnOk initialLiveState.

End Live.

(* ===================================================================== *)
(** ** The download artifact and the upload of sealed segments            *)
(* ===================================================================== *)

Module Artifact.
Import AudioProcessing Transcript Pipeline.

(** [mimeType || undefined]. *)
Definition orUndefined (mimeType : string) : option string :=
  if String.eqb mimeType "" then None else Some mimeType.

(** The blob [recorder.onstop] builds from [chunksRef] for the download. *)
Definition downloadBlob (mimeType : string) (r : Recording.Refs) : Blob :=
  new_Blob (Recording.chunksRef r) (orUndefined mimeType).

(** The fields of [AudioRecorderState] that [recorder.onstop] sets. *)
Record Stopped : Type := mkStopped {
  isRecording : bool;
  fileSize : Z;
  downloadMimeType : option string;
  fileExtension : string
}.

(** The state update of [recorder.onstop]; [formatExtension] is
    [formatInfo?.extension]. *)
Definition onstopState (mimeType : string) (formatExtension : option string)
  (r : Recording.Refs) : Stopped :=
  let blob := downloadBlob mimeType r in
  {| isRecording := false;
     fileSize := size blob;
     downloadMimeType :=
       if negb (String.eqb (type blob) "") then Some (type blob)
       else orUndefined mimeType;
     fileExtension :=
       match inferExtensionFromMime (type blob) with
       | Some e => e
       | None =>
           match formatExtension with
           | Some e => if String.eqb e "" then "webm"%string else e
           | None => "webm"%string
           end
       end |}.

(** [new Blob(segmentChunksRef.current, { type: mimeType || undefined })]:
    the blob a sealed segment is sent as. *)
Definition segBlob (mimeType : string) (seg : Recording.Segment) : Blob :=
  new_Blob seg (orUndefined mimeType).

(** A segment sealed by the target check spans the target, and either
    fell short of it one chunk earlier or is the overlap plus one chunk. *)
Definition spansTarget (target : Q) (seg : Recording.Segment) : Prop :=
  (target <= inject_Z (Z.of_nat (length seg) * Recording.timesliceMs))%Q /\
  ((inject_Z ((Z.of_nat (length seg) - 1) * Recording.timesliceMs) < target)%Q \/
   length seg = S Recording.overlapCount).

(** The buffer holds less than the target, or exactly the overlap. *)
Definition underTarget (target : Q) (r : Recording.Refs) : Prop :=
  (inject_Z (Z.of_nat (length (Recording.segmentChunksRef r))
             * Recording.timesliceMs) < target)%Q \/
  length (Recording.segmentChunksRef r) = Recording.overlapCount.

(** A server that transcribes the first request as one text, with white
    space to normalise, and every later request as another. *)
Definition talkingServer (n : nat) (blob : Blob) : FetchOutcome :=
  Response true 200 None
    (mkResponse
       (Some (ofString (if (n =? 0)%nat then " hello   world " else "again")))
       None None).

(** The sum of the sizes of a list of blobs. *)
Definition totalSize (blobs : list Blob) : Z :=
  fold_right (fun b acc => size b + acc) 0 blobs.

End Artifact.

(* ===================================================================== *)
(** ** Buffers used in examples of the encoder                            *)
(* ===================================================================== *)

Module EncoderExamples.
Import AudioProcessing.

(** Two stereo frames at 48000 Hz. *)
Definition stereoBuffer : AudioBuffer :=
  {| sampleRate := Finite 48000;
     channels := [[Finite (1 # 2); Finite (-1)];
                  [Finite (1 # 4); Finite 1]] |}.

(** The bytes [encodeWavBuffer] returns, or none when it throws. *)
Definition encoded (b : AudioBuffer) : list byte :=
  match encodeWavBuffer b with
  | Some out => out
  | None => []
  end.

(** The result of [ensureWavBlob] at the rate [r], or the input when the
    conversion is rejected. *)
Definition convertedAt (P : Platform) (r : Z) (blob : Blob) : Blob :=
  match ensureWavBlob P blob (Some (Finite (inject_Z r))) with
  | Some out => out
  | None => blob
  end.

End EncoderExamples.

(* ===================================================================== *)
(** ** Uploads in flight: [sendChunkToTranscription] as it suspends       *)
(* ===================================================================== *)

Module Async.
Import AudioProcessing Transcript Pipeline.

(** Where a call of [sendChunkToTranscription] stands: awaiting
    [ensureWavBlob], awaiting the response to its request (the [n]-th
    request sent), or done. *)
Inductive Phase : Type :=
| Converting
| Posted (n : nat)
| Settled (n : nat).

(** A call that got past the size guard, with the chunk it was given. *)
Record Task : Type := mkTask {
  chunk : Blob;
  phase : Phase
}.

(** The state of the hook and the calls started so far, in the order they
    were started. *)
Record Uploads : Type := mkUploads {
  hookState : HookState;
  tasks : list Task
}.

Fixpoint update {A : Type} (k : nat) (x : A) (l : list A) : list A :=
  match l, k with
  | [], _ => []
  | _ :: rest, O => x :: rest
  | y :: rest, S k' => y :: update k' x rest
  end.

Definition isPosted (t : Task) : bool :=
  match phase t with
  | Converting => false
  | Posted _ | Settled _ => true
  end.

(** The index of the request a task sent, once it has sent it. *)
Definition postedAt (t : Task) : option nat :=
  match phase t with
  | Converting => None
  | Posted n | Settled n => Some n
  end.

Section WithServices.
Variable P : Platform.
Variable fetch : nat -> Blob -> FetchOutcome.

(** [fetch] is called from [transcribeBlob]: the request is sent. *)
Definition post (payload : Blob) (h : HookState) : HookState :=
  {| error := error h;
     requests :=
       requests h ++ [fst (transcribeBlob fetch (length (requests h)) payload)];
     subtitles := subtitles h |}.

(** [void sendChunkToTranscription(chunk)]: the call up to its first
    [await].  An empty chunk returns at once; a chunk that reports WAV goes
    straight to [transcribeBlob], which sends the request; any other waits
    for [ensureWavBlob]. *)
Definition start (chunk : Blob) (u : Uploads) : Uploads :=
  if size chunk =? 0 then u
  else if negb (includes "wav" (type chunk)) then
    {| hookState := hookState u;
       tasks := tasks u ++ [{| chunk := chunk; phase := Converting |}] |}
  else
    {| hookState := post chunk (hookState u);
       tasks := tasks u
                ++ [{| chunk := chunk;
                       phase := Posted (length (requests (hookState u))) |}] |}.

(** The conversion awaited by task [k] resolves or rejects: the call goes
    on to [transcribeBlob], with the converted blob or the raw chunk. *)
Definition converted (k : nat) (u : Uploads) : Uploads :=
  match nth_error (tasks u) k with
  | Some {| chunk := c; phase := Converting |} =>
      {| hookState := post (payloadFor P c) (hookState u);
         tasks := update k {| chunk := c;
                              phase := Posted (length (requests (hookState u))) |}
                         (tasks u) |}
  | _ => u
  end.

(** The request of task [k] is answered or fails: [onTranscription] is
    called with the response, or the error is stored. *)
Definition replied (k : nat) (u : Uploads) : Uploads :=
  match nth_error (tasks u) k with
  | Some {| chunk := c; phase := Posted n |} =>
      let h := hookState u in
      {| hookState :=
           match snd (transcribeBlob fetch n (payloadFor P c)) with
           | inr response =>
               {| error := error h;
                  requests := requests h;
                  subtitles := onTranscription response (subtitles h) |}
           | inl e =>
               {| error := Some (UploadFailed e);
                  requests := requests h;
                  subtitles := subtitles h |}
           end;
         tasks := update k {| chunk := c; phase := Settled n |} (tasks u) |}
  | _ => u
  end.

(** The blobs of the requests the tasks have sent, in the tasks' order. *)
Definition payloads (ts : list Task) : list Blob :=
  map (fun t => payloadFor P (chunk t)) (filter isPosted ts).

(** What holds of the requests whatever the order in which conversions
    and responses arrive: beyond the requests [before], there is one
    request per task that has sent its request, at the index the task
    holds, and it carries the payload of the task's chunk. *)
Record Tracked (before : list Request) (u : Uploads) : Prop := {
  tracked_count :
    Permutation (map file (requests (hookState u)))
                (map file before ++ payloads (tasks u));
  tracked_at :
    forall k t n,
      nth_error (tasks u) k = Some t -> postedAt t = Some n ->
      nth_error (requests (hookState u)) n
      = Some (fst (transcribeBlob fetch n (payloadFor P (chunk t))))
}.

End WithServices.

(** No call is still waiting for its conversion. *)
Definition allPosted (ts : list Task) : Prop :=
  Forall (fun t => isPosted t = true) ts.

End Async.

(* ===================================================================== *)
(** ** One recording with streaming on, uploads settling in any order     *)
(* ===================================================================== *)

Module AsyncRecording.
Import AudioProcessing Transcript Pipeline Async.

Record State : Type := mkState {
  refs : Recording.Refs;
  uploads : Uploads
}.

(** What happens during the recording: the recorder delivers data or
    stops, the conversion of the [k]-th call completes, the request of the
    [k]-th call is answered. *)
Inductive Event : Type :=
| Data (data : Blob)
| Stop
| Converted (k : nat)
| Replied (k : nat).

Section WithServices.
Variable P : Platform.
Variable fetch : nat -> Blob -> FetchOutcome.
Variable mimeType : string.
Variable target : Q.

(** [void sendChunkToTranscription(segBlob)] for each segment sealed by
    one event (there is at most one). *)
Definition submit (sealed : list Recording.Segment) (u : Uploads) : Uploads :=
  fold_left (fun u seg => start fetch (Artifact.segBlob mimeType seg) u)
            sealed u.

Definition step (s : State) (ev : Event) : State :=
  match ev with
  | Data data =>
      let '(r, sealed) := Recording.ondataavailable true target data (refs s) in
      {| refs := r; uploads := submit sealed (uploads s) |}
  | Stop =>
      let '(r, sealed) := Recording.onstop true (refs s) in
      {| refs := r; uploads := submit sealed (uploads s) |}
  | Converted k =>
      {| refs := refs s; uploads := converted P fetch k (uploads s) |}
  | Replied k =>
      {| refs := refs s; uploads := replied P fetch k (uploads s) |}
  end.

Definition run (events : list Event) (s : State) : State :=
  fold_left step events s.

End WithServices.

(** The recorder's events among the events, in order. *)
Definition recorderEvents (events : list Event) : list Event :=
  filter (fun ev => match ev with
                    | Data _ | Stop => true
                    | Converted _ | Replied _ => false
                    end) events.

(** The events of one recorder: its data, then its stop if it stopped. *)
Definition ofRecorder (datas : list Blob) (stopped : bool) : list Event :=
  map Data datas ++ (if stopped then [Stop] else []).

(** A fresh recording in a hook whose state is [st]. *)
Definition fresh (st : HookState) : State :=
  {| refs := Recording.initialRefs;
     uploads := {| hookState := st; tasks := [] |} |}.

(** Six chunks against a target of one second seal three segments; the
    conversions complete in the order third, first, second, and the
    answers arrive last first. *)
Definition outOfOrder : list Event :=
  map Data (Recording.sampleChunks 6)
  ++ [Converted 2; Converted 0; Stop; Converted 1; Replied 1; Converted 3;
      Replied 3; Replied 0; Replied 2].

End AsyncRecording.

(* ===================================================================== *)
(** ** The live-subtitle loop, uploads settling in any order              *)
(* ===================================================================== *)

Module AsyncLive.
Import AudioProcessing Transcript Pipeline Live Async.

(** The loop's refs and state, and the calls of
    [sendChunkToTranscription] started so far. *)
Record State : Type := mkState {
  control : LiveState;
  inFlight : list Task
}.

(** What can happen to the loop: the user starts it, the timer of the
    current recorder fires, the user stops it, the conversion of the
    [k]-th call completes, the request of the [k]-th call is answered.
    [gathered] is the audio the recorder delivers when it is stopped,
    [env] what the platform answers if a recorder is spawned next. *)
Inductive Event : Type :=
| StartLive (hasStream mimeSupported : bool) (env : Spawn)
| Timeout (gathered : Blob) (env : Spawn)
| StopLive (gathered : Blob) (env : Spawn)
| Converted (k : nat)
| Replied (k : nat).

Definition withHook (h : HookState) (c : LiveState) : LiveState :=
  {| liveLoopActiveRef := liveLoopActiveRef c;
     liveRecorderRef := liveRecorderRef c;
     liveSubtitlesEnabled := liveSubtitlesEnabled c;
     hook := h |}.

(** A step of the uploads inside the loop's state. *)
Definition onUploads (f : Uploads -> Uploads) (s : State) : State :=
  let u := f {| hookState := hook (control s); tasks := inFlight s |} in
  {| control := withHook (hookState u) (control s); inFlight := tasks u |}.

(** A step of the loop's refs and state. *)
Definition onControl (f : LiveState -> LiveState) (s : State) : State :=
  {| control := f (control s); inFlight := inFlight s |}.

Section WithServices.
Variable P : Platform.
Variable fetch : nat -> Blob -> FetchOutcome.
Variable mime : string.

(** [recorder.onstop] of the loop: the upload is started, not awaited,
    and the next recorder is spawned. *)
Definition onstop (chunks : list Blob) (env : Spawn) (s : State) : State :=
  let s1 :=
    if (0 <? length chunks)%nat then
      onUploads (start fetch (new_Blob chunks (Some mime))) s
    else s in
  if liveLoopActiveRef (control s1)
  then onControl (startSegmentRecorder env) s1
  else s1.

(** [recorder.stop()] on a recording recorder. *)
Definition recorder_stop (r : MediaRecorder) (gathered : Blob) (env : Spawn)
  (s : State) : State :=
  let stopped := {| state := inactive;
                    chunks := Live.ondataavailable gathered (chunks r) |} in
  onstop (chunks stopped) env
    (onControl
       (fun c => {| liveLoopActiveRef := liveLoopActiveRef c;
                    liveRecorderRef := match liveRecorderRef c with
                                       | Some _ => Some stopped
                                       | None => None
                                       end;
                    liveSubtitlesEnabled := liveSubtitlesEnabled c;
                    hook := hook c |}) s).

Definition onTimeout (gathered : Blob) (env : Spawn) (s : State) : State :=
  match liveRecorderRef (control s) with
  | Some r =>
      match state r with
      | recording => recorder_stop r gathered env s
      | inactive => s
      end
  | None => s
  end.

Definition stopLiveSubtitles (gathered : Blob) (env : Spawn) (s : State)
  : State :=
  let s1 := onControl
              (fun c => {| liveLoopActiveRef := false;
                           liveRecorderRef := liveRecorderRef c;
                           liveSubtitlesEnabled := liveSubtitlesEnabled c;
                           hook := hook c |}) s in
  let s2 :=
    match liveRecorderRef (control s1) with
    | Some r =>
        let cleared :=
          onControl
            (fun c => {| liveLoopActiveRef := false;
                         liveRecorderRef := None;
                         liveSubtitlesEnabled := liveSubtitlesEnabled c;
                         hook := hook c |}) s1 in
        match state r with
        | recording => recorder_stop r gathered env cleared
        | inactive => cleared
        end
    | None => s1
    end in
  onControl
    (fun c => {| liveLoopActiveRef := liveLoopActiveRef c;
                 liveRecorderRef := liveRecorderRef c;
                 liveSubtitlesEnabled := false;
                 hook := hook c |}) s2.

Definition step (s : State) (ev : Event) : State :=
  match ev with
  | StartLive hasStream mimeSupported env =>
      onControl (startLiveSubtitles hasStream mimeSupported env) s
  | Timeout gathered env => onTimeout gathered env s
  | StopLive gathered env => stopLiveSubtitles gathered env s
  | Converted k => onUploads (converted P fetch k) s
  | Replied k => onUploads (replied P fetch k) s
  end.

Definition run (events : list Event) (s : State) : State :=
  fold_left step events s.

End WithServices.

(** The uploads of a state of the loop. *)
Definition uploadsOf (s : State) : Uploads :=
  {| hookState := hook (control s); tasks := inFlight s |}.

Definition initial : State :=
  {| control := initialLiveState; inFlight := [] |}.

(** The loop right after [startLiveSubtitles] on a fresh hook. *)
Definition started : State :=
  {| control := liveStarted; inFlight := [] |}.

(** The loop flag and the enabled flag agree, an active loop references a
    recorder with no chunk yet, and an idle loop has no recording
    recorder. *)
Definition consistent (c : LiveState) : Prop :=
  liveLoopActiveRef c = liveSubtitlesEnabled c /\
  (liveLoopActiveRef c = true ->
   exists r, liveRecorderRef c = Some r /\ chunks r = []) /\
  (liveLoopActiveRef c = false ->
   forall r, liveRecorderRef c = Some r -> state r = inactive).


(** The audio a stop of the loop hands to the upload, if any. *)
Definition flushedBy (mime : string) (gathered : Blob) (c : LiveState)
  : option Blob :=
  match liveRecorderRef c with
  | Some r =>
      match state r with
      | recording =>
          if (0 <? length (Live.ondataavailable gathered (chunks r)))%nat
          then Some (new_Blob (Live.ondataavailable gathered (chunks r))
                              (Some mime))
          else None
      | inactive => None
      end
  | None => None
  end.

(** What the timers of recorders that gathered audio keep: the loop is
    active, its recorder records, the requests are those of the calls
    started, and one call was started for the audio [gs] of each
    recorder. *)
Record Looping (P : Platform) (fetch : nat -> Blob -> FetchOutcome)
  (mime : string) (s : State) (gs : list Blob) : Prop := {
  looping_active : liveLoopActiveRef (control s) = true;
  looping_recorder :
    liveRecorderRef (control s) = Some {| state := recording; chunks := [] |};
  looping_tracked : Tracked P fetch [] (uploadsOf s);
  looping_chunks :
    map chunk (inFlight s) = map (fun g => new_Blob [g] (Some mime)) gs
}.


(** The timer of a recorder that gathered audio fires and a new recorder
    can be spawned, or an upload moves on. *)
Definition segmentEvent (ev : Event) : Prop :=
  match ev with
  | Timeout gathered env => 0 < size gathered /\ env = spawnOk
  | Converted _ | Replied _ => True
  | StartLive _ _ _ | StopLive _ _ => False
  end.

(** The audio the recorders gathered, in the order their timers fired. *)
Definition gatheredBy (events : list Event) : list Blob :=
  flat_map (fun ev => match ev with
                      | Timeout gathered _ => [gathered]
                      | _ => []
                      end) events.

(** Two recorders, the upload of the second sent before that of the
    first. *)
Definition secondFirst : list Event :=
  [Timeout webmChunk spawnOk; Timeout stereoWav spawnOk; Converted 1;
   Converted 0; Replied 0; Replied 1].

(** A platform on which [recorder.start()] throws. *)
Definition startFails : Spawn :=
  {| freshTrack := true; constructorThrows := None;
     startThrows := Some "InvalidStateError"%string |}.

End AsyncLive.

(* ===================================================================== *)
(** ** [components/SubtitleOverlay.tsx]: the lines on screen              *)
(* ===================================================================== *)

Module Overlay.
Import Transcript.

(** [Array.prototype.slice(start)] for an integer [start]: a negative
    start counts from the end, and every start is clipped to the array. *)
Definition Array_slice {A : Type} (start : Z) (l : list A) : list A :=
  let len := Z.of_nat (length l) in
  let k := if start <? 0 then Z.max (len + start) 0 else Z.min start len in
  skipn (Z.to_nat k) l.

(** What [SubtitleOverlay] renders: nothing ([None]) when it is hidden or
    there is no line, else [lines.slice(-maxLines)]. *)
Definition shownLines (visible : bool) (maxLines : Z) (lines : list jsstring)
  : option (list jsstring) :=
  if negb visible || (length lines =? 0)%nat then None
  else Some (Array_slice (- maxLines) lines).

(** Every code unit is white space. *)
Definition blank (s : jsstring) : bool := forallb isWhiteSpace s.

(** The code units that are no white space, in order. *)
Definition visibleUnits (s : jsstring) : jsstring :=
  filter (fun c => negb (isWhiteSpace c)) s.

(** The last code unit, if there is one, is no white space. *)
Definition endsClean (s : jsstring) : Prop :=
  match Recording.last_opt s with
  | Some c => isWhiteSpace c = false
  | None => True
  end.

End Overlay.

(* ===================================================================== *)
(** ** Recording formats and the choice of the recorder's MIME type       *)
(* ===================================================================== *)

Module Formats.

Inductive RecordingFormat : Type := webm_opus | webm | mp4_aac | mp3.

Definition RecordingFormat_eqb (a b : RecordingFormat) : bool :=
  match a, b with
  | webm_opus, webm_opus | webm, webm | mp4_aac, mp4_aac | mp3, mp3 => true
  | _, _ => false
  end.

Record RecordingFormatInfo : Type := mkFormatInfo {
  format : RecordingFormat;
  label : string;
  description : string;
  preferredMimeTypes : list string;
  extension : string;
  defaultBitRate : Z
}.

Definition AVAILABLE_FORMATS : list RecordingFormatInfo :=
  [ {| format := mp3;
       label := "MP3 (.mp3)";
       description := "Common format. Recording support varies by browser.";
       preferredMimeTypes := ["audio/mpeg"%string];
       extension := "mp3";
       defaultBitRate := 128000 |};
    {| format := mp4_aac;
       label := "MP4 (AAC, .m4a)";
       description := "Preferred when supported. Widely compatible playback.";
       preferredMimeTypes := ["audio/mp4; codecs=aac"%string; "audio/mp4"%string];
       extension := "m4a";
       defaultBitRate := 128000 |};
    {| format := webm_opus;
       label := "WebM (Opus)";
       description := "High quality, small size. Excellent on Chrome/Edge.";
       preferredMimeTypes := ["audio/webm;codecs=opus"%string; "audio/webm"%string];
       extension := "webm";
       defaultBitRate := 128000 |};
    {| format := webm;
       label := "WebM (Generic)";
       description := "Fallback WebM when Opus is not reported available.";
       preferredMimeTypes := ["audio/webm"%string];
       extension := "webm";
       defaultBitRate := 96000 |} ].

Definition getFormatInfo (fmt : RecordingFormat) : option RecordingFormatInfo :=
  find (fun f => RecordingFormat_eqb (format f) fmt) AVAILABLE_FORMATS.

(** [s || null] for a string or [undefined]. *)
Definition orNull (s : option string) : option string :=
  match s with
  | Some m => if String.eqb m "" then None else Some m
  | None => None
  end.

Section WithRecorder.
(** [isTypeSupported]: what [MediaRecorder.isTypeSupported] answers, false
    where there is no [MediaRecorder] or the call throws. *)
Variable isTypeSupported : string -> bool.

Definition getSupportedFormats : list RecordingFormatInfo :=
  let results :=
    map (fun f =>
           {| format := format f;
              label := label f;
              description := description f;
              preferredMimeTypes := filter isTypeSupported (preferredMimeTypes f);
              extension := extension f;
              defaultBitRate := defaultBitRate f |})
        AVAILABLE_FORMATS in
  filter (fun f => (0 <? length (preferredMimeTypes f))%nat) results.

Definition getBestMimeTypeForFormat (fmt : RecordingFormat) : option string :=
  match getFormatInfo fmt with
  | None => None
  | Some info => orNull (find isTypeSupported (preferredMimeTypes info))
  end.

End WithRecorder.

(** The first version of the hook: [startRecording] with a desired format
    and a chain of fall-backs. *)
Module FirstVersion.

Section WithRecorder.
Variable isTypeSupported : string -> bool.

Definition fallbackChain : list RecordingFormat :=
  [mp3; mp4_aac; webm_opus; webm].

(** [desiredFormat || 'mp3']. *)
Definition targetFormat (desiredFormat : option RecordingFormat)
  : RecordingFormat :=
  match desiredFormat with
  | Some f => f
  | None => mp3
  end.

(** [getFormatInfo(targetFormat) || getFormatInfo('mp3')]. *)
Definition formatInfo (desiredFormat : option RecordingFormat)
  : option RecordingFormatInfo :=
  match getFormatInfo (targetFormat desiredFormat) with
  | Some info => Some info
  | None => getFormatInfo mp3
  end.

(** The [for (const f of fallbackChain)] loop: [mimeType] is assigned at
    each format and the loop is left at the first one that is found. *)
Fixpoint tryChain (mimeType : option string) (chain : list RecordingFormat)
  : option string :=
  match chain with
  | [] => mimeType
  | f :: rest =>
      match getBestMimeTypeForFormat isTypeSupported f with
      | Some m => Some m
      | None => tryChain None rest
      end
  end.

Definition chooseMimeType (desiredFormat : option RecordingFormat)
  : option string :=
  match getBestMimeTypeForFormat isTypeSupported (targetFormat desiredFormat) with
  | Some m => Some m
  | None => tryChain None fallbackChain
  end.

(** The options the recorder is built with; [mimeType] is left out when
    none was found. *)
Record MediaRecorderOptions : Type := mkOptions {
  mimeType : option string;
  audioBitsPerSecond : option Z
}.

Definition recorderOptions (desiredFormat : option RecordingFormat)
  : MediaRecorderOptions :=
  {| mimeType := chooseMimeType desiredFormat;
     audioBitsPerSecond := option_map defaultBitRate (formatInfo desiredFormat) |}.

(** [inferExtensionFromMime] of the first version. *)
Definition inferExtensionFromMime (mime : string) : option string :=
  if String.eqb mime "" then None
  else if includes "webm" mime then Some "webm"%string
  else if includes "mp4" mime then Some "m4a"%string
  else if includes "mpeg" mime then Some "mp3"%string
  else None.

(** The state update of [recorder.onstop]. *)
Definition onstopState (desiredFormat : option RecordingFormat)
  (chunksRef : list Blob) : Artifact.Stopped :=
  let mimeType := chooseMimeType desiredFormat in
  let blob := new_Blob chunksRef (orNull mimeType) in
  let ext :=
    match inferExtensionFromMime (type blob) with
    | Some e => e
    | None =>
        match orNull (option_map extension (formatInfo desiredFormat)) with
        | Some e => e
        | None => "webm"%string
        end
    end in
  {| Artifact.isRecording := false;
     Artifact.fileSize := size blob;
     Artifact.downloadMimeType :=
       if negb (String.eqb (type blob) "") then Some (type blob)
       else orNull mimeType;
     Artifact.fileExtension := ext |}.

End WithRecorder.

End FirstVersion.

(** The MIME types the table names. *)
Definition knownMimeTypes : list string :=
  concat (map preferredMimeTypes AVAILABLE_FORMATS).

Definition isSome {A : Type} (o : option A) : bool :=
  match o with
  | Some _ => true
  | None => false
  end.

End Formats.

(* ===================================================================== *)
(** ** [hooks/useAudioAnalysis.ts]: bars and points of the visualiser     *)
(* ===================================================================== *)

Module Analysis.
Import AudioProcessing.

(** The inner loop [for (j = startIndex; j < endIndex; j++) sum += data[j]]
    over a [Uint8Array]: a sum of integers far below 2^53, hence exact. *)
Definition windowSum (data : list byte) (startIndex endIndex : nat) : Z :=
  fold_left (fun sum b => sum + Z_of_byte b)
            (firstn (endIndex - startIndex) (skipn startIndex data)) 0.

Section WithPlatform.
Variable P : Platform.

(** [sum / (endIndex - startIndex)] of the window of index [i]. *)
Definition average (data : list byte) (samplesPer i : nat) : Number :=
  let startIndex := (i * samplesPer)%nat in
  let endIndex := Nat.min (startIndex + samplesPer) (length data) in
  f64_div P (Finite (inject_Z (windowSum data startIndex endIndex)))
            (numberOfNat (endIndex - startIndex)).

(** [createFrequencyBars] for a bar count that is a natural number;
    [Math.floor(length / barCount)] is the integer quotient there. *)
Definition createFrequencyBars (frequencyData : list byte) (barCount : nat)
  : list Number :=
  if (length frequencyData =? 0)%nat then repeat (Finite 0) barCount
  else
    let samplesPerBar := (length frequencyData / barCount)%nat in
    map (fun i =>
           let average := average frequencyData samplesPerBar i in
           Math_min (Finite 100)
                    (f64_mul P (f64_div P average (Finite 255)) (Finite 100)))
        (seq 0 barCount).

(** [createWaveformPoints]; [average - 128] is the rounded sum with -128. *)
Definition createWaveformPoints (waveformData : list byte) (pointCount : nat)
  : list Number :=
  if (length waveformData =? 0)%nat then repeat (Finite 0) pointCount
  else
    let samplesPerPoint := (length waveformData / pointCount)%nat in
    map (fun i =>
           let average := average waveformData samplesPerPoint i in
           let normalizedValue :=
             f64_mul P (f64_div P (f64_add P average (Finite (-128)))
                                  (Finite 128))
                       (Finite 100) in
           Math_max (Finite (-100)) (Math_min (Finite 100) normalizedValue))
        (seq 0 pointCount).

End WithPlatform.

(** A number is not above [hi]: NaN is allowed. *)
Definition atMost (hi : Q) (x : Number) : Prop :=
  match x with
  | Finite q => (q <= hi)%Q
  | NegInfinity | NaN => True
  | PosInfinity => False
  end.

(** A number is NaN or lies between [lo] and [hi]. *)
Definition clamped (lo hi : Q) (x : Number) : Prop :=
  match x with
  | Finite q => (lo <= q <= hi)%Q
  | NaN => True
  | NegInfinity | PosInfinity => False
  end.



End Analysis.

(* ===================================================================== *)
(** ** [utils/browserDetection.ts]                                        *)
(* ===================================================================== *)

Module BrowserDetection.

(** What the module reads from [navigator]. *)
Record Navigator : Type := mkNavigator {
  userAgent : string;
  platform : string;
  hasGetDisplayMedia : bool
    (* navigator.mediaDevices && navigator.mediaDevices.getDisplayMedia *)
}.

Record BrowserInfo : Type := mkBrowserInfo {
  isChrome : bool;
  isEdge : bool;
  isWindows : bool;
  version : string;
  supportsSystemAudio : bool;
  isMac : bool;
  supportsTabAudio : bool
}.

(** [String.prototype.toLowerCase] on ASCII text. *)
Definition toLowerCase (s : string) : string := string_map lower s.

Definition isDigit (c : ascii) : bool :=
  let n := nat_of_ascii c in (48 <=? n)%nat && (n <=? 57)%nat.

(** The longest prefix of digits: what a greedy [\d+] takes. *)
Fixpoint takeDigits (s : string) : string :=
  match s with
  | String c rest => if isDigit c then String c (takeDigits rest) else EmptyString
  | EmptyString => EmptyString
  end.

Fixpoint drop (n : nat) (s : string) : string :=
  match n, s with
  | S n', String _ rest => drop n' rest
  | _, _ => s
  end.

(** [s.match(/<tag>(\d+)/)]: the first capture group of the leftmost
    match, [None] when there is no match. *)
Fixpoint matchVersion (tag : string) (s : string) : option string :=
  let here :=
    if String.prefix tag s then
      match takeDigits (drop (String.length tag) s) with
      | EmptyString => None
      | digits => Some digits
      end
    else None in
  match here with
  | Some digits => Some digits
  | None =>
      match s with
      | EmptyString => None
      | String _ rest => matchVersion tag rest
      end
  end.

(** [parseInt(version, 10)] on a string that is empty or made of digits:
    [None] is NaN.  The value of a long digit string is rounded by
    [parseInt], which changes no comparison with 74 or 79. *)
Fixpoint digitsValue (acc : Z) (s : string) : Z :=
  match s with
  | String c rest => digitsValue (10 * acc + (Z.of_nat (nat_of_ascii c) - 48)) rest
  | EmptyString => acc
  end.

Definition parseInt (s : string) : option Z :=
  match takeDigits s with
  | EmptyString => None
  | digits => Some (digitsValue 0 digits)
  end.

(** [majorVersion >= n], false for NaN. *)
Definition atLeast (majorVersion : option Z) (n : Z) : bool :=
  match majorVersion with
  | Some v => n <=? v
  | None => false
  end.

Definition detectBrowser (nav : Navigator) : BrowserInfo :=
  let isWindows := includes "win" (toLowerCase (platform nav)) in
  let isMac := includes "mac" (toLowerCase (platform nav)) in
  let chromeMatch := matchVersion "Chrome/" (userAgent nav) in
  let edgeMatch := matchVersion "Edg/" (userAgent nav) in
  let isChrome := Formats.isSome chromeMatch && negb (Formats.isSome edgeMatch) in
  let isEdge := Formats.isSome edgeMatch in
  let chromeVersion :=
    match chromeMatch with Some v => v | None => EmptyString end in
  let edgeVersion :=
    match edgeMatch with Some v => v | None => EmptyString end in
  let version := if isEdge then edgeVersion else chromeVersion in
  let supportsSystemAudio :=
    if negb isWindows then false
    else if negb isChrome && negb isEdge then false
    else
      let majorVersion := parseInt version in
      if isChrome && atLeast majorVersion 74 then true
      else if isEdge && atLeast majorVersion 79 then true
      else false in
  let supportsTabAudio :=
    if negb (hasGetDisplayMedia nav) then false
    else if negb isChrome && negb isEdge then false
    else
      let majorVersion := parseInt version in
      if isChrome && atLeast majorVersion 74 then true
      else if isEdge && atLeast majorVersion 79 then true
      else false in
  {| isChrome := isChrome;
     isEdge := isEdge;
     isWindows := isWindows;
     version := version;
     supportsSystemAudio := supportsSystemAudio;
     isMac := isMac;
     supportsTabAudio := supportsTabAudio |}.

Record Compatibility : Type := mkCompatibility {
  compatible : bool;
  message : string
}.

Definition checkBrowserCompatibility (nav : Navigator) : Compatibility :=
  let browser := detectBrowser nav in
  if negb (hasGetDisplayMedia nav) then
    {| compatible := false;
       message := "Your browser does not support screen capture APIs." |}
  else if supportsSystemAudio browser then
    {| compatible := true;
       message := "Browser supports system audio capture on Windows." |}
  else if supportsTabAudio browser then
    {| compatible := true;
       message := "Browser supports tab audio capture. Select the Teams tab and enable audio." |}
  else
    {| compatible := false;
       message := "Chrome or Edge required for audio capture. Update to the latest version." |}.

Definition getBrowserInfoString (nav : Navigator) : string :=
  let browser := detectBrowser nav in
  if negb (isWindows browser) then "Non-Windows OS"
  else if isEdge browser then "Edge " ++ version browser ++ " on Windows"
  else if isChrome browser then "Chrome " ++ version browser ++ " on Windows"
  else "Unknown browser".

(** The user agent of Edge 120 on Windows. *)
Definition edgeOnWindows : Navigator :=
  {| userAgent := "Mozilla/5.0 (Windows NT 10.0; Win64; x64) AppleWebKit/537.36 (KHTML, like Gecko) Chrome/120.0.0.0 Safari/537.36 Edg/120.0.2210.91";
     platform := "Win32";
     hasGetDisplayMedia := true |}.

End BrowserDetection.
(* ===================================================================== *)
(** ** Facts about the overlap segmenter                                  *)
(* ===================================================================== *)

Section SegmenterFacts.
Import Recording.

Lemma overlapCount_eq : overlapCount = 4%nat.
Proof. reflexivity. Qed.

Arguments overlapCount : simpl never.
Arguments timesliceMs : simpl never.

Lemma segmentTargetMs_ge (d : option Q) : (1000 <= segmentTargetMs d)%Q.
Proof. unfold segmentTargetMs. apply Q.le_max_l. Qed.

Lemma last_opt_snoc {A : Type} (l : list A) (x : A) :
  last_opt (l ++ [x]) = Some x.
Proof.
  induction l as [|y l IH]; [reflexivity|].
  simpl. destruct (l ++ [x]) eqn:E; [destruct l; discriminate|exact IH].
Qed.

Lemma length_slice_neg {A : Type} (k : nat) (l : list A) :
  length (slice_neg k l) = Nat.min k (length l).
Proof. unfold slice_neg. rewrite length_skipn. lia. Qed.

Lemma slice_neg_all {A : Type} (k : nat) (l : list A) :
  (length l <= k)%nat -> slice_neg k l = l.
Proof.
  intros H. unfold slice_neg.
  replace (length l - k)%nat with 0%nat by lia. reflexivity.
Qed.

Lemma feed_app (b : bool) (t : Q) (l1 l2 : list Blob) (r : Refs) :
  feed b t (l1 ++ l2) r =
  let '(r1, s1) := feed b t l1 r in
  let '(r2, s2) := feed b t l2 r1 in
  (r2, s1 ++ s2).
Proof.
  revert r. induction l1 as [|d l1 IH]; intros r; simpl.
  - destruct (feed b t l2 r); reflexivity.
  - destruct (ondataavailable b t d r) as [r1 s1].
    rewrite IH.
    destruct (feed b t l1 r1) as [r2 s2].
    destruct (feed b t l2 r2) as [r3 s3].
    now rewrite app_assoc.
Qed.

Lemma feed_snoc (b : bool) (t : Q) (l : list Blob) (d : Blob) (r : Refs) :
  feed b t (l ++ [d]) r =
  let '(r1, s1) := feed b t l r in
  let '(r2, s2) := ondataavailable b t d r1 in
  (r2, s1 ++ s2).
Proof.
  rewrite feed_app. destruct (feed b t l r) as [r1 s1]. simpl.
  destruct (ondataavailable b t d r1) as [r2 s2].
  now rewrite app_nil_r.
Qed.

Lemma nonOverlapRegions_snoc (p : option Segment) (segs : list Segment)
  (s : Segment) :
  nonOverlapRegions p (segs ++ [s]) =
  nonOverlapRegions p segs
    ++ [skipn (carried (match last_opt segs with Some l => Some l | None => p end)) s].
Proof.
  revert p. induction segs as [|a segs IH]; intros p; [reflexivity|].
  simpl nonOverlapRegions. simpl app. rewrite IH. f_equal. f_equal. f_equal. f_equal.
  simpl. destruct segs as [|a' segs']; [reflexivity|].
  destruct (last_opt (a' :: segs')) eqn:E; [reflexivity|].
  exfalso. clear -E. revert a' E.
  induction segs' as [|x xs IHx]; intros a' E; [discriminate|].
  apply (IHx x). exact E.
Qed.

Lemma chained_snoc (segs : list Segment) (s : Segment) :
  chained segs ->
  (forall a, last_opt segs = Some a -> link a s) ->
  chained (segs ++ [s]).
Proof.
  induction segs as [|a segs IH]; intros Hc Hl; [simpl; auto|].
  destruct Hc as [Hhead Hc].
  destruct segs as [|b segs'].
  - simpl. split; [apply Hl; reflexivity|auto].
  - split; [exact Hhead|]. apply IH; [exact Hc|].
    intros a0 Ha0. apply Hl. exact Ha0.
Qed.

Lemma chained_nth (segs : list Segment) (i : nat) (a b : Segment) :
  chained segs ->
  nth_error segs i = Some a -> nth_error segs (S i) = Some b -> link a b.
Proof.
  revert i. induction segs as [|x segs IH]; intros i Hc Ha Hb.
  - destruct i; discriminate.
  - destruct Hc as [Hhead Hc]. destruct i as [|i].
    + simpl in Ha. injection Ha as ->.
      destruct segs as [|y segs']; [discriminate|].
      simpl in Hb. injection Hb as ->. exact Hhead.
    + apply (IH i); assumption.
Qed.

(** A seal needs at least [overlapCount] buffered chunks: the target is
    never under 1000 ms. *)
Lemma seal_needs_overlap (d : option Q) (n : nat) :
  Qle_bool (segmentTargetMs d) (inject_Z (Z.of_nat n * timesliceMs)) = true ->
  (overlapCount <= n)%nat.
Proof.
  intros H. apply Qle_bool_iff in H.
  pose proof (segmentTargetMs_ge d) as Hge.
  assert (Hq : (inject_Z 1000 <= inject_Z (Z.of_nat n * timesliceMs))%Q)
    by (eapply Qle_trans; [exact Hge|exact H]).
  rewrite <- Zle_Qle in Hq. unfold timesliceMs in Hq.
  rewrite overlapCount_eq. lia.
Qed.

Lemma elapsed_after_push (r : Refs) (data : Blob) :
  segmentElapsedMsRef r = Z.of_nat (length (segmentChunksRef r)) * timesliceMs ->
  segmentElapsedMsRef r + timesliceMs =
  Z.of_nat (length (segmentChunksRef r ++ [data])) * timesliceMs.
Proof. intros ->. rewrite length_app. simpl. unfold timesliceMs. lia. Qed.

Lemma carried_long (s : Segment) :
  (overlapCount <= length s)%nat -> carried (Some s) = overlapCount.
Proof. simpl. lia. Qed.

Lemma carried_last (segs : list Segment) (a : Segment) :
  Forall (fun s => (overlapCount <= length s)%nat) segs ->
  last_opt segs = Some a -> carried (last_opt segs) = overlapCount.
Proof.
  intros HF Ha. rewrite Ha. apply carried_long.
  revert Ha. induction HF as [|x l Hx HF IH]; [discriminate|].
  simpl. destruct l; [intros [= <-]; exact Hx|exact IH].
Qed.

Lemma Inv_initial : Inv [] initialRefs [].
Proof. split; simpl; auto; try discriminate; try constructor. Qed.

(** One [dataavailable] event keeps the invariant. *)
Lemma Inv_step (d : option Q) (sofar : list Blob) (r : Refs)
  (segs : list Segment) (data : Blob) :
  Inv sofar r segs ->
  Inv (sofar ++ delivered [data])
      (fst (ondataavailable true (segmentTargetMs d) data r))
      (segs ++ snd (ondataavailable true (segmentTargetMs d) data r)).
Proof.
  intros [Hel Hall Hcov Hroom Hcarry Hlong Hchain].
  unfold ondataavailable, delivered. simpl filter.
  destruct (0 <? size data) eqn:Hsz; simpl.
  2:{ rewrite !app_nil_r. split; assumption. }
  unfold onChunk. simpl segmentChunksRef. simpl segmentElapsedMsRef. simpl chunksRef.
  rewrite (elapsed_after_push r data Hel).
  set (buf := segmentChunksRef r) in *.
  destruct (Qle_bool _ _) eqn:Hq; simpl.
  - (* the chunk seals a segment *)
    pose proof (seal_needs_overlap d _ Hq) as Hlen.
    assert (Hkeep : Nat.min (length (buf ++ [data])) overlapCount = overlapCount) by lia.
    rewrite Hkeep.
    assert (Hpos : (0 <? overlapCount)%nat = true) by reflexivity.
    rewrite Hpos.
    assert (Htail : length (slice_neg overlapCount (buf ++ [data])) = overlapCount)
      by (rewrite length_slice_neg; lia).
    split; cbn [fst snd segmentChunksRef segmentElapsedMsRef chunksRef].
    + rewrite Htail. reflexivity.
    + now rewrite Hall.
    + rewrite last_opt_snoc, nonOverlapRegions_snoc.
      rewrite carried_long by exact Hlen.
      rewrite (skipn_all2 (n:=overlapCount) (slice_neg overlapCount (buf ++ [data])))
        by (rewrite Htail; lia).
      rewrite app_nil_r.
      rewrite concat_app. simpl. rewrite app_nil_r.
      replace (match last_opt segs with Some l => Some l | None => None end)
        with (last_opt segs) by (destruct (last_opt segs); reflexivity).
      rewrite skipn_app.
      replace (carried (last_opt segs) - length buf)%nat with 0%nat by lia.
      simpl skipn. rewrite app_assoc, Hcov. reflexivity.
    + rewrite last_opt_snoc, carried_long by exact Hlen. lia.
    + intros a Ha. rewrite last_opt_snoc in Ha. injection Ha as <-.
      apply firstn_all2. lia.
    + apply Forall_app. split; [exact Hlong|]. constructor; [exact Hlen|constructor].
    + apply chained_snoc; [exact Hchain|].
      intros a Ha. pose proof (carried_last segs a Hlong Ha) as Hk.
      rewrite Hk in Hroom.
      split.
      * rewrite firstn_app.
        replace (overlapCount - length buf)%nat with 0%nat by lia.
        simpl firstn. rewrite app_nil_r. apply Hcarry. exact Ha.
      * rewrite length_firstn. lia.
  - (* the chunk is buffered *)
    rewrite app_nil_r.
    split; cbn [fst snd segmentChunksRef segmentElapsedMsRef chunksRef].
    + reflexivity.
    + now rewrite Hall.
    + rewrite skipn_app.
      replace (carried (last_opt segs) - length buf)%nat with 0%nat by lia.
      simpl skipn. rewrite app_assoc, Hcov. reflexivity.
    + rewrite length_app. lia.
    + intros a Ha. pose proof (carried_last segs a Hlong Ha) as Hk.
      rewrite Hk in Hroom. rewrite firstn_app.
      replace (overlapCount - length buf)%nat with 0%nat by lia.
      simpl firstn. rewrite app_nil_r. apply Hcarry. exact Ha.
    + exact Hlong.
    + exact Hchain.
Qed.

Lemma delivered_app (l1 l2 : list Blob) :
  delivered (l1 ++ l2) = delivered l1 ++ delivered l2.
Proof. apply filter_app. Qed.

(** The invariant holds after every sequence of [dataavailable] events. *)
Lemma Inv_recording (d : option Q) (datas : list Blob) :
  Inv (delivered datas) (fst (recording d datas)) (snd (recording d datas)).
Proof.
  unfold recording.
  induction datas as [|data datas IH] using rev_ind.
  - exact Inv_initial.
  - rewrite feed_snoc, delivered_app.
    destruct (feed true (segmentTargetMs d) datas initialRefs) as [r1 s1].
    pose proof (Inv_step d _ _ _ data IH) as Hstep. simpl fst in Hstep. simpl snd in Hstep.
    destruct (ondataavailable true (segmentTargetMs d) data r1) as [r2 s2].
    exact Hstep.
Qed.

(** The [stop] event seals what is buffered and keeps the chain. *)
Lemma Inv_session (d : option Q) (datas : list Blob) :
  concat (nonOverlapRegions None (snd (session d datas))) = delivered datas /\
  chained (snd (session d datas)) /\
  segmentChunksRef (fst (session d datas)) = [].
Proof.
  pose proof (Inv_recording d datas) as [Hel Hall Hcov Hroom Hcarry Hlong Hchain].
  unfold session. destruct (recording d datas) as [r segs].
  cbn [fst snd] in *.
  unfold onstop. cbn [andb].
  set (buf := segmentChunksRef r) in *.
  destruct (0 <? length buf)%nat eqn:Hpos; cbn [fst snd segmentChunksRef].
  - apply Nat.ltb_lt in Hpos.
    rewrite nonOverlapRegions_snoc, concat_app. cbn [concat]. rewrite app_nil_r.
    replace (match last_opt segs with Some l => Some l | None => None end)
      with (last_opt segs) by (destruct (last_opt segs); reflexivity).
    split; [exact Hcov|]. split; [|reflexivity].
    apply chained_snoc; [exact Hchain|].
    intros a Ha. pose proof (carried_last segs a Hlong Ha) as Hk.
    rewrite Hk in Hroom. split; [apply Hcarry; exact Ha|].
    rewrite length_firstn. lia.
  - apply Nat.ltb_ge in Hpos.
    assert (Hnil : buf = []) by (destruct buf; [reflexivity|simpl in Hpos; lia]).
    rewrite app_nil_r. rewrite Hnil, skipn_nil, app_nil_r in Hcov. auto.
Qed.

Lemma Qle_bool_false_lt (x y : Q) : (y < x)%Q -> Qle_bool x y = false.
Proof.
  intros H. destruct (Qle_bool x y) eqn:E; [|reflexivity].
  apply Qle_bool_iff in E. exfalso. exact (Qlt_not_le _ _ H E).
Qed.

Lemma Qle_bool_eq_l (x x' y : Q) : (x == x')%Q -> Qle_bool x y = Qle_bool x' y.
Proof.
  intros H. destruct (Qle_bool x' y) eqn:E.
  - apply Qle_bool_iff. apply Qle_bool_iff in E. now rewrite H.
  - destruct (Qle_bool x y) eqn:E'; [|reflexivity].
    apply Qle_bool_iff in E'. rewrite H in E'. apply Qle_bool_iff in E'. congruence.
Qed.

Lemma Qle_bool_eq_r (x y y' : Q) : (y == y')%Q -> Qle_bool x y = Qle_bool x y'.
Proof.
  intros H. destruct (Qle_bool x y') eqn:E.
  - apply Qle_bool_iff. apply Qle_bool_iff in E. now rewrite H.
  - destruct (Qle_bool x y) eqn:E'; [|reflexivity].
    apply Qle_bool_iff in E'. rewrite H in E'. apply Qle_bool_iff in E'. congruence.
Qed.

(** While the buffered time stays under the target nothing is sealed. *)
Lemma feed_buffering (target : Q) (cs : list Blob) (r : Refs) :
  Forall (fun c => 0 < size c) cs ->
  (inject_Z (segmentElapsedMsRef r + Z.of_nat (length cs) * timesliceMs) < target)%Q ->
  feed true target cs r =
  ({| chunksRef := chunksRef r ++ cs;
      segmentChunksRef := segmentChunksRef r ++ cs;
      segmentElapsedMsRef := segmentElapsedMsRef r + Z.of_nat (length cs) * timesliceMs |},
   []).
Proof.
  intros HF. revert r. induction HF as [|c cs Hc HF IH]; intros r Hlt.
  - simpl. rewrite !app_nil_r, Z.add_0_r. destruct r; reflexivity.
  - cbn [feed]. unfold ondataavailable.
    apply Z.ltb_lt in Hc. rewrite Hc. unfold onChunk.
    cbn [segmentChunksRef segmentElapsedMsRef chunksRef].
    rewrite Qle_bool_false_lt.
    2:{ eapply Qle_lt_trans; [|exact Hlt]. rewrite <- Zle_Qle.
        cbn [length]. unfold timesliceMs. lia. }
    rewrite IH.
    + cbn [segmentChunksRef segmentElapsedMsRef chunksRef app].
      rewrite <- !app_assoc. cbn [app length].
      do 2 f_equal. unfold timesliceMs. lia.
    + cbn [segmentElapsedMsRef].
      eapply Qle_lt_trans; [|exact Hlt]. rewrite <- Zle_Qle.
      cbn [length]. unfold timesliceMs. lia.
Qed.

Lemma recording_buffering (d : option Q) (cs : list Blob) :
  Forall (fun c => 0 < size c) cs ->
  (inject_Z (Z.of_nat (length cs) * timesliceMs) < segmentTargetMs d)%Q ->
  recording d cs =
  ({| chunksRef := cs; segmentChunksRef := cs;
      segmentElapsedMsRef := Z.of_nat (length cs) * timesliceMs |}, []).
Proof.
  intros HF Hlt. unfold recording. rewrite feed_buffering; auto.
Qed.

Lemma Forall_firstn {A : Type} (P : A -> Prop) (n : nat) (l : list A) :
  Forall P l -> Forall P (firstn n l).
Proof.
  intros H. revert n. induction H as [|x l Hx H IH]; intros [|n]; simpl; auto.
Qed.


(** The step of the segmenter from a state whose elapsed time is the
    buffered chunk count times the timeslice. *)
Lemma onChunk_counts (target : Q) (chunk : Blob) (r : Refs) :
  segmentElapsedMsRef r = Z.of_nat (length (segmentChunksRef r)) * timesliceMs ->
  let buffered := segmentChunksRef r ++ [chunk] in
  let retained := Nat.min overlapCount (length buffered) in
  onChunk target chunk r =
  if Qle_bool target (inject_Z (Z.of_nat (length buffered) * timesliceMs))
  then ({| chunksRef := chunksRef r;
           segmentChunksRef := slice_neg retained buffered;
           segmentElapsedMsRef := Z.of_nat retained * timesliceMs |},
        [buffered])
  else ({| chunksRef := chunksRef r;
           segmentChunksRef := buffered;
           segmentElapsedMsRef := Z.of_nat (length buffered) * timesliceMs |},
        []).
Proof.
  intros Hel buffered retained. unfold onChunk.
  rewrite (elapsed_after_push r chunk Hel). fold buffered.
  rewrite (Nat.min_comm (length buffered) overlapCount). fold retained.
  assert (Hpos : (0 <? retained)%nat = true).
  { apply Nat.ltb_lt. unfold retained, buffered. rewrite length_app, overlapCount_eq.
    cbn [length]. lia. }
  rewrite Hpos. reflexivity.
Qed.

(** The scenario of twenty chunks against a 5000 ms target. *)
Lemma twenty_chunks (d : option Q) (cs : list Blob) :
  (segmentTargetMs d == 5000)%Q ->
  length cs = 20%nat ->
  Forall (fun c => 0 < size c) cs ->
  (forall n, (n < 20)%nat -> snd (recording d (firstn n cs)) = []) /\
  recording d cs =
  ({| chunksRef := cs;
      segmentChunksRef := slice_neg 4 cs;
      segmentElapsedMsRef := 1000 |}, [cs]) /\
  length (slice_neg 4 cs) = 4%nat.
Proof.
  intros Ht Hlen HF. split; [|split].
  - intros n Hn. rewrite recording_buffering; [reflexivity| |].
    + apply Forall_firstn. exact HF.
    + rewrite Ht. rewrite length_firstn, Hlen.
      replace 5000%Q with (inject_Z 5000) by reflexivity.
      rewrite <- Zlt_Qlt. unfold timesliceMs. lia.
  - destruct (exists_last (l:=cs)) as [l [c Hcs]]; [intros ->; discriminate|].
    subst cs. rewrite length_app in Hlen. simpl in Hlen.
    apply Forall_app in HF. destruct HF as [HFl HFc].
    apply Forall_inv in HFc. apply Z.ltb_lt in HFc.
    unfold recording. rewrite feed_snoc.
    fold (recording d l). rewrite recording_buffering.
    + unfold ondataavailable. rewrite HFc.
      cbn [segmentChunksRef segmentElapsedMsRef chunksRef].
      rewrite onChunk_counts by reflexivity.
      cbn [segmentChunksRef segmentElapsedMsRef chunksRef].
      rewrite (Qle_bool_eq_l _ 5000 _ Ht).
      replace (length (l ++ [c])) with 20%nat by (rewrite length_app; simpl; lia).
      reflexivity.
    + exact HFl.
    + rewrite Ht. replace 5000%Q with (inject_Z 5000) by reflexivity.
      rewrite <- Zlt_Qlt. unfold timesliceMs. lia.
  - rewrite length_slice_neg. lia.
Qed.

(** C1: after every sequence of chunks the elapsed time of the segmenter
    is the number of buffered chunks times [timesliceMs]; the chunk that
    brings it to the target or beyond seals one segment holding every
    buffered chunk, leaves the last [min overlapCount bufferedCount]
    chunks in the buffer and sets the elapsed time to that count times
    [timesliceMs]; any other chunk is buffered and seals nothing.  With a
    250 ms timeslice, a 5000 ms target and a 1000 ms overlap, twenty chunks
    seal exactly one segment, at the twentieth chunk, and the last four
    chunks stay buffered. *)
Theorem C1_seal_on_target_and_retain_tail :
  (forall (d : option Q) (datas : list Blob) (chunk : Blob),
     let r := fst (recording d datas) in
     let buffered := segmentChunksRef r ++ [chunk] in
     let retained := Nat.min overlapCount (length buffered) in
     segmentElapsedMsRef r = Z.of_nat (length (segmentChunksRef r)) * timesliceMs /\
     onChunk (segmentTargetMs d) chunk r =
     if Qle_bool (segmentTargetMs d)
                 (inject_Z (Z.of_nat (length buffered) * timesliceMs))
     then ({| chunksRef := chunksRef r;
              segmentChunksRef := slice_neg retained buffered;
              segmentElapsedMsRef := Z.of_nat retained * timesliceMs |},
           [buffered])
     else ({| chunksRef := chunksRef r;
              segmentChunksRef := buffered;
              segmentElapsedMsRef := Z.of_nat (length buffered) * timesliceMs |},
           [])) /\
  (timesliceMs = 250 /\ overlapMs = 1000 /\ overlapCount = 4%nat) /\
  (forall (d : option Q) (cs : list Blob),
     (segmentTargetMs d == 5000)%Q ->
     length cs = 20%nat ->
     Forall (fun c => 0 < size c) cs ->
     (forall n, (n < 20)%nat -> snd (recording d (firstn n cs)) = []) /\
     recording d cs =
     ({| chunksRef := cs;
         segmentChunksRef := slice_neg 4 cs;
         segmentElapsedMsRef := 1000 |}, [cs]) /\
     length (slice_neg 4 cs) = 4%nat).
Proof.
  split; [|split].
  - intros d datas chunk r buffered retained.
    pose proof (inv_elapsed _ _ _ (Inv_recording d datas)) as Hel.
    split; [exact Hel|]. apply onChunk_counts. exact Hel.
  - repeat split.
  - exact twenty_chunks.
Qed.

(** The scenario of C1 on twenty one-byte chunks and the default
    segment duration. *)
Lemma C1_twenty_chunks_witness :
  recording (Some 5%Q) (sampleChunks 20) =
  ({| chunksRef := sampleChunks 20;
      segmentChunksRef := slice_neg 4 (sampleChunks 20);
      segmentElapsedMsRef := 1000 |}, [sampleChunks 20]).
Proof.
  apply (proj2 (proj2 C1_seal_on_target_and_retain_tail) (Some 5%Q) (sampleChunks 20)).
  - reflexivity.
  - reflexivity.
  - repeat constructor.
Defined.

(** C2: in one recording, stopped or not, each sealed segment after the
    first starts with the [overlapCount] chunks that end the segment sealed
    before it, in the same order; [overlapCount] is
    [ceil (overlapMs / timesliceMs)], which is 4. *)
Theorem C2_segments_share_overlap (d : option Q) (datas : list Blob)
  (stopped : bool) (i : nat) (a b : Segment) :
  nth_error (sealedSegments d datas stopped) i = Some a ->
  nth_error (sealedSegments d datas stopped) (S i) = Some b ->
  firstn overlapCount b = slice_neg overlapCount a /\
  length (firstn overlapCount b) = overlapCount /\
  overlapCount = Z.to_nat (Qceiling (inject_Z overlapMs / inject_Z timesliceMs)) /\
  overlapCount = 4%nat.
Proof.
  intros Ha Hb.
  assert (Hchain : chained (sealedSegments d datas stopped)).
  { unfold sealedSegments. destruct stopped.
    - apply Inv_session.
    - apply (inv_chain _ _ _ (Inv_recording d datas)). }
  destruct (chained_nth _ i a b Hchain Ha Hb) as [H1 H2].
  repeat split; assumption.
Qed.

(** C2 on forty-five one-byte chunks: the first two segments. *)
Lemma C2_segments_share_overlap_witness :
  firstn overlapCount (skipn 16 (sampleChunks 36)) =
  slice_neg overlapCount (sampleChunks 20).
Proof.
  refine (proj1 (C2_segments_share_overlap (Some 5%Q) (sampleChunks 45) true 0
                   (sampleChunks 20) (skipn 16 (sampleChunks 36)) _ _)).
  - vm_compute. reflexivity.
  - vm_compute. reflexivity.
Defined.

Lemma delivered_nonempty (datas : list Blob) :
  Forall (fun c => 0 < size c) datas -> delivered datas = datas.
Proof.
  intros HF. unfold delivered. induction HF as [|c l Hc HF IH]; [reflexivity|].
  simpl. apply Z.ltb_lt in Hc. rewrite Hc, IH. reflexivity.
Qed.

(** C3: for every sequence of [dataavailable] events of one recording
    that is then stopped, the non-overlap regions of the sealed segments
    (each segment without the chunks carried over from the segment before
    it), concatenated in sealing order, are exactly the chunks delivered to
    the segmenter, each once and in order; while the recording runs, the
    same holds once the not yet sealed part of the buffer is added. *)
Theorem C3_non_overlap_regions_rebuild_the_chunks (d : option Q)
  (datas : list Blob) :
  concat (nonOverlapRegions None (sealedSegments d datas true))
    = delivered datas /\
  (Forall (fun c => 0 < size c) datas ->
   concat (nonOverlapRegions None (sealedSegments d datas true)) = datas) /\
  concat (nonOverlapRegions None (sealedSegments d datas false))
    ++ skipn (carried (last_opt (sealedSegments d datas false)))
             (segmentChunksRef (fst (recording d datas)))
    = delivered datas.
Proof.
  assert (H1 : concat (nonOverlapRegions None (sealedSegments d datas true))
               = delivered datas) by apply Inv_session.
  split; [exact H1|]. split.
  - intros HF. rewrite H1. apply delivered_nonempty. exact HF.
  - apply (inv_cover _ _ _ (Inv_recording d datas)).
Qed.

(** C3 on forty-five one-byte chunks. *)
Lemma C3_non_overlap_regions_witness :
  concat (nonOverlapRegions None (sealedSegments (Some 5%Q) (sampleChunks 45) true))
  = sampleChunks 45.
Proof.
  apply (proj1 (proj2 (C3_non_overlap_regions_rebuild_the_chunks
                         (Some 5%Q) (sampleChunks 45)))).
  repeat constructor.
Defined.

Lemma session_buffering (d : option Q) (cs : list Blob) :
  Forall (fun c => 0 < size c) cs ->
  cs <> [] ->
  (inject_Z (Z.of_nat (length cs) * timesliceMs) < segmentTargetMs d)%Q ->
  (forall n, snd (recording d (firstn n cs)) = []) /\
  session d cs =
  ({| chunksRef := cs; segmentChunksRef := []; segmentElapsedMsRef := 0 |}, [cs]).
Proof.
  intros HF Hne Hlt. split.
  - intros n. rewrite recording_buffering; [reflexivity| |].
    + apply Forall_firstn. exact HF.
    + eapply Qle_lt_trans; [|exact Hlt]. rewrite <- Zle_Qle.
      rewrite length_firstn. unfold timesliceMs. lia.
  - unfold session. rewrite recording_buffering by assumption.
    unfold onstop. cbn [segmentChunksRef chunksRef andb].
    destruct cs as [|c cs]; [congruence|]. reflexivity.
Qed.

(** C4: when the recorder stops while chunks are buffered, the [stop]
    handler seals all of them as one last segment and empties the buffer;
    in particular a recording that stops before the buffered time reaches
    the target seals nothing while it runs and one segment, holding every
    chunk, at the stop.  Seventeen chunks of 250 ms against a 5000 ms
    target are such a recording. *)
Theorem C4_stop_seals_the_buffered_chunks :
  (forall (d : option Q) (datas : list Blob),
     let r := fst (recording d datas) in
     segmentChunksRef r <> [] ->
     onstop true r =
     ({| chunksRef := chunksRef r; segmentChunksRef := [];
         segmentElapsedMsRef := 0 |}, [segmentChunksRef r])) /\
  (forall (d : option Q) (cs : list Blob),
     Forall (fun c => 0 < size c) cs ->
     cs <> [] ->
     (inject_Z (Z.of_nat (length cs) * timesliceMs) < segmentTargetMs d)%Q ->
     (forall n, snd (recording d (firstn n cs)) = []) /\
     session d cs =
     ({| chunksRef := cs; segmentChunksRef := [];
         segmentElapsedMsRef := 0 |}, [cs])) /\
  (forall (d : option Q) (cs : list Blob),
     (segmentTargetMs d == 5000)%Q ->
     length cs = 17%nat ->
     Forall (fun c => 0 < size c) cs ->
     (forall n, snd (recording d (firstn n cs)) = []) /\
     snd (recording d cs) = [] /\
     snd (session d cs) = [cs]).
Proof.
  split; [|split].
  - intros d datas r Hne. unfold onstop. cbn [andb].
    destruct (segmentChunksRef r) as [|c buf]; [congruence|]. reflexivity.
  - intros d cs HF Hne Hlt. apply session_buffering; assumption.
  - intros d cs Ht Hlen HF.
    assert (Hne : cs <> []) by (intros ->; discriminate).
    assert (Hlt : (inject_Z (Z.of_nat (length cs) * timesliceMs) < segmentTargetMs d)%Q).
    { rewrite Ht, Hlen. reflexivity. }
    destruct (session_buffering d cs HF Hne Hlt) as [Hrun Hstop].
    split; [exact Hrun|]. split.
    + rewrite <- (firstn_all cs). apply Hrun.
    + rewrite Hstop. reflexivity.
Qed.

(** C4 on seventeen one-byte chunks and the default segment duration. *)
Lemma C4_seventeen_chunks_witness :
  snd (recording (Some 5%Q) (sampleChunks 17)) = [] /\
  snd (session (Some 5%Q) (sampleChunks 17)) = [sampleChunks 17].
Proof.
  apply (proj2 (proj2 C4_stop_seals_the_buffered_chunks) (Some 5%Q) (sampleChunks 17)).
  - reflexivity.
  - reflexivity.
  - repeat constructor.
Defined.

(** Forty-five chunks of 250 ms at the default duration: segments of
    twenty chunks are sealed at chunks 20 and 36, and the stop seals the
    remaining thirteen (four carried over and nine new). *)
Example forty_five_chunks :
  map (@length Blob) (sealedSegments (Some 5%Q) (sampleChunks 45) false) = [20; 20]%nat /\
  map (@length Blob) (sealedSegments (Some 5%Q) (sampleChunks 45) true) = [20; 20; 13]%nat.
Proof. split; reflexivity. Qed.

(** A duration under one second is raised to the 1000 ms floor: every
    chunk after the fourth seals a segment of five chunks. *)
Example short_duration_floor :
  map (@length Blob) (sealedSegments (Some (1 # 10)) (sampleChunks 6) false)
  = [4; 5; 5]%nat.
Proof. reflexivity. Qed.

End SegmenterFacts.

(* ===================================================================== *)
(** ** Facts about [audioProcessing.ts]                                   *)
(* ===================================================================== *)

Section AudioFacts.
Import AudioProcessing.

Lemma Z_of_byte_of_Z (z : Z) : Z_of_byte (byte_of_Z z) = z mod 256.
Proof.
  unfold Z_of_byte, byte_of_Z.
  assert (Hb : 0 <= z mod 256 < 256) by (apply Z.mod_pos_bound; lia).
  destruct (Byte.of_N (Z.to_N (z mod 256))) eqn:E.
  - apply Byte.to_of_N in E. rewrite E. lia.
  - apply Byte.of_N_None_iff in E. lia.
Qed.

(** An integer in the signed 16-bit range survives the wrap of [ToInt16]. *)
Lemma int16_wrap_id (v : Z) :
  -32768 <= v <= 32767 ->
  (let m := v mod 65536 in if 32768 <=? m then m - 65536 else m) = v.
Proof.
  intros Hv. cbv zeta.
  destruct (Z.leb_spec 32768 (v mod 65536)) as [H|H];
    Z.div_mod_to_equations; lia.
Qed.

Lemma Qle_bool_false (x y : Q) : Qle_bool x y = false -> (y < x)%Q.
Proof.
  intros H. apply Qnot_le_lt. intros Hle.
  apply Qle_bool_iff in Hle. congruence.
Qed.

(** The value written for a finite sample, by the position of the sample
    against -1, 0 and 1. *)
Lemma ToInt16_scaled_finite (q : Q) :
  ToInt16 (scaled (Finite q)) =
  if Qle_bool 1 q then 32767
  else if Qle_bool q (-1) then -32768
  else if Qle_bool 0 q then Qfloor (q * 32767)
  else Qceiling (q * 32768).
Proof.
  unfold scaled. cbn [Math_min].
  destruct (Qle_bool 1 q) eqn:H1; [reflexivity|].
  apply Qle_bool_false in H1.
  cbn [Math_max].
  destruct (Qle_bool (-1) q) eqn:H2.
  - apply Qle_bool_iff in H2. cbn [ltZero].
    destruct (Qle_bool q (-1)) eqn:H3.
    + apply Qle_bool_iff in H3.
      assert (Hq : (q == -1)%Q) by (apply Qle_antisym; assumption).
      assert (H0 : Qle_bool 0 q = false).
      { apply Qle_bool_false_lt. rewrite Hq. reflexivity. }
      rewrite H0. cbn [negb times]. unfold ToInt16, ToIntegerOrZero.
      assert (Hm : (q * inject_Z 32768 == inject_Z (-32768))%Q)
        by (rewrite Hq; reflexivity).
      rewrite (Qle_bool_eq_r _ _ _ Hm).
      rewrite (Qceiling_comp _ _ Hm), Qceiling_Z. reflexivity.
    + apply Qle_bool_false in H3.
      destruct (Qle_bool 0 q) eqn:H0; cbn [negb times];
        unfold ToInt16, ToIntegerOrZero.
      * apply Qle_bool_iff in H0.
        assert (Hlo : (0 <= q * inject_Z 32767)%Q)
          by (apply Qmult_le_0_compat; [exact H0|discriminate]).
        assert (Hhi : (q * inject_Z 32767 <= inject_Z 32767)%Q).
        { setoid_replace (inject_Z 32767) with (1 * inject_Z 32767)%Q at 2
            by (symmetry; apply Qmult_1_l).
          apply Qmult_le_compat_r; [apply Qlt_le_weak; exact H1|discriminate]. }
        apply Qle_bool_iff in Hlo. rewrite Hlo.
        apply Qle_bool_iff in Hlo.
        apply Qfloor_resp_le in Hlo, Hhi. rewrite Qfloor_Z in Hhi.
        change (Qfloor 0) with 0 in Hlo.
        change (q * 32767)%Q with (q * inject_Z 32767)%Q.
        apply int16_wrap_id. lia.
      * apply Qle_bool_false in H0.
        assert (Hhi : (q * inject_Z 32768 < 0)%Q).
        { setoid_replace 0%Q with (0 * inject_Z 32768)%Q
            by (symmetry; apply Qmult_0_l).
          apply Qmult_lt_compat_r; [reflexivity|exact H0]. }
        assert (Hlo : (inject_Z (-32768) <= q * inject_Z 32768)%Q).
        { setoid_replace (inject_Z (-32768)) with ((-1) * inject_Z 32768)%Q
            by reflexivity.
          apply Qmult_le_compat_r; [exact H2|discriminate]. }
        rewrite (Qle_bool_false_lt _ _ Hhi).
        apply Qlt_le_weak in Hhi.
        apply Qceiling_resp_le in Hlo, Hhi. rewrite Qceiling_Z in Hlo.
        change (Qceiling 0) with 0 in Hhi.
        change (q * 32768)%Q with (q * inject_Z 32768)%Q.
        apply int16_wrap_id. lia.
  - apply Qle_bool_false in H2.
    assert (H3 : Qle_bool q (-1) = true)
      by (apply Qle_bool_iff; apply Qlt_le_weak; exact H2).
    rewrite H3. reflexivity.
Qed.

Lemma ToInt16_scaled (x : Number) :
  ToInt16 (scaled x) =
  match x with
  | NaN => 0
  | PosInfinity => 32767
  | NegInfinity => -32768
  | Finite q =>
      if Qle_bool 1 q then 32767
      else if Qle_bool q (-1) then -32768
      else if Qle_bool 0 q then Qfloor (q * 32767)
      else Qceiling (q * 32768)
  end.
Proof.
  destruct x; try reflexivity. apply ToInt16_scaled_finite.
Qed.

(** The scaled value is in the signed 16-bit range. *)
Lemma scaled_in_range (x : Number) :
  -32768 <= ToIntegerOrZero (scaled x) <= 32767.
Proof.
  destruct x as [| | |q]; try (vm_compute; split; discriminate).
  unfold scaled. cbn [Math_min].
  destruct (Qle_bool 1 q) eqn:H1; [vm_compute; split; discriminate|].
  apply Qle_bool_false in H1. cbn [Math_max].
  destruct (Qle_bool (-1) q) eqn:H2; [|vm_compute; split; discriminate].
  apply Qle_bool_iff in H2. cbn [ltZero].
  destruct (Qle_bool 0 q) eqn:H0; cbn [negb times]; unfold ToIntegerOrZero.
  - apply Qle_bool_iff in H0.
    assert (Hlo : (0 <= q * inject_Z 32767)%Q)
      by (apply Qmult_le_0_compat; [exact H0|discriminate]).
    assert (Hhi : (q * inject_Z 32767 <= inject_Z 32767)%Q).
    { setoid_replace (inject_Z 32767) with (1 * inject_Z 32767)%Q at 2
        by (symmetry; apply Qmult_1_l).
      apply Qmult_le_compat_r; [apply Qlt_le_weak; exact H1|discriminate]. }
    apply Qle_bool_iff in Hlo. rewrite Hlo. apply Qle_bool_iff in Hlo.
    apply Qfloor_resp_le in Hlo, Hhi. rewrite Qfloor_Z in Hhi.
    change (Qfloor 0) with 0 in Hlo. lia.
  - apply Qle_bool_false in H0.
    assert (Hhi : (q * inject_Z 32768 < 0)%Q).
    { setoid_replace 0%Q with (0 * inject_Z 32768)%Q
        by (symmetry; apply Qmult_0_l).
      apply Qmult_lt_compat_r; [reflexivity|exact H0]. }
    assert (Hlo : (inject_Z (-32768) <= q * inject_Z 32768)%Q).
    { setoid_replace (inject_Z (-32768)) with ((-1) * inject_Z 32768)%Q
        by reflexivity.
      apply Qmult_le_compat_r; [exact H2|discriminate]. }
    rewrite (Qle_bool_false_lt _ _ Hhi).
    apply Qlt_le_weak in Hhi.
    apply Qceiling_resp_le in Hlo, Hhi. rewrite Qceiling_Z in Hlo.
    change (Qceiling 0) with 0 in Hhi. lia.
Qed.

(** No wrap-around: the 16-bit value is the truncated scaled value. *)
Lemma ToInt16_scaled_no_wrap (x : Number) :
  ToInt16 (scaled x) = ToIntegerOrZero (scaled x).
Proof. unfold ToInt16. apply int16_wrap_id. apply scaled_in_range. Qed.

Lemma ToInt16_range (x : Number) : -32768 <= ToInt16 x <= 32767.
Proof.
  unfold ToInt16.
  destruct (Z.leb_spec 32768 (ToIntegerOrZero x mod 65536));
    Z.div_mod_to_equations; lia.
Qed.

Lemma length_intBytes (n : nat) (v : Z) (le : bool) :
  length (intBytes n v le) = n.
Proof.
  unfold intBytes. destruct le; [|rewrite length_rev];
    now rewrite length_map, length_seq.
Qed.

Lemma length_pcmBytes (input : list Number) :
  length (pcmBytes input) = (2 * length input)%nat.
Proof.
  unfold pcmBytes. induction input as [|x l IH]; [reflexivity|].
  cbn [flat_map]. rewrite length_app, length_intBytes, IH. simpl. lia.
Qed.

Lemma setBytes_ok (view : DataView) (off : nat) (bs : list byte) :
  (off + length bs <= length view)%nat ->
  setBytes view off bs =
  Some (firstn off view ++ bs ++ skipn (off + length bs) view).
Proof.
  intros H. unfold setBytes. apply Nat.leb_le in H. now rewrite H.
Qed.

(** A write keeps what is before and after the written bytes. *)
Lemma overwrite_firstn (view : list byte) (off : nat) (bs : list byte) :
  (off + length bs <= length view)%nat ->
  firstn (off + length bs) (firstn off view ++ bs ++ skipn (off + length bs) view)
  = firstn off view ++ bs.
Proof.
  intros H. rewrite app_assoc.
  rewrite firstn_app.
  rewrite length_app, length_firstn.
  replace (Nat.min off (length view)) with off by lia.
  replace (off + length bs - (off + length bs))%nat with 0%nat by lia.
  rewrite firstn_all2 by (rewrite length_app, length_firstn; lia).
  simpl. apply app_nil_r.
Qed.

Lemma overwrite_skipn (view : list byte) (off k : nat) (bs : list byte) :
  (off + length bs <= length view)%nat ->
  skipn (off + length bs + k) (firstn off view ++ bs ++ skipn (off + length bs) view)
  = skipn (off + length bs + k) view.
Proof.
  intros H. rewrite app_assoc.
  rewrite skipn_app.
  rewrite length_app, length_firstn.
  replace (Nat.min off (length view)) with off by lia.
  rewrite skipn_all2 by (rewrite length_app, length_firstn; lia).
  replace (off + length bs + k - (off + length bs))%nat with k by lia.
  rewrite skipn_skipn. simpl. f_equal. lia.
Qed.

Lemma floatTo16BitPCM_from_bytes (input : list Number) :
  forall (output : DataView) (offset i : nat),
  (offset + 2 * (i + length input) <= length output)%nat ->
  floatTo16BitPCM_from output offset i input =
  Some (firstn (offset + 2 * i) output ++ pcmBytes input
          ++ skipn (offset + 2 * (i + length input)) output).
Proof.
  induction input as [|x rest IH]; intros output offset i Hlen.
  - cbn [floatTo16BitPCM_from pcmBytes flat_map length app].
    rewrite Nat.add_0_r. now rewrite firstn_skipn.
  - cbn [length] in Hlen. cbn [floatTo16BitPCM_from].
    unfold setInt16.
    set (bs := intBytes 2 (ToInt16 (scaled x)) true).
    assert (Hbs : length bs = 2%nat) by apply length_intBytes.
    rewrite setBytes_ok by (rewrite Hbs; lia).
    rewrite IH.
    2:{ rewrite !length_app, length_firstn, length_skipn, Hbs. lia. }
    f_equal.
    replace (offset + 2 * S i)%nat with (offset + i * 2 + length bs)%nat
      by (rewrite Hbs; lia).
    rewrite overwrite_firstn by (rewrite Hbs; lia).
    replace (offset + 2 * (S i + length rest))%nat
      with (offset + i * 2 + length bs + 2 * length rest)%nat
      by (rewrite Hbs; lia).
    rewrite overwrite_skipn by (rewrite Hbs; lia).
    cbn [pcmBytes flat_map]. fold bs. fold (pcmBytes rest).
    rewrite <- !app_assoc.
    replace (offset + i * 2)%nat with (offset + 2 * i)%nat by lia.
    do 3 f_equal. f_equal. cbn [length]. rewrite Hbs. lia.
Qed.

Lemma floatTo16BitPCM_bytes (output : DataView) (offset : nat)
  (input : list Number) :
  (offset + 2 * length input <= length output)%nat ->
  floatTo16BitPCM output offset input =
  Some (firstn offset output ++ pcmBytes input
          ++ skipn (offset + 2 * length input) output).
Proof.
  intros H. unfold floatTo16BitPCM.
  rewrite floatTo16BitPCM_from_bytes by (simpl; lia).
  now rewrite Nat.add_0_r.
Qed.

Lemma uintOfBytes_int16 (v : Z) :
  uintOfBytes (intBytes 2 v true) = v mod 65536.
Proof.
  change (intBytes 2 v true) with [byte_of_Z (v / 1); byte_of_Z (v / 256)].
  cbn [uintOfBytes]. rewrite !Z_of_byte_of_Z.
  Z.div_mod_to_equations. lia.
Qed.

Lemma uintOfBytes_int32 (v : Z) :
  uintOfBytes (intBytes 4 v true) = v mod 4294967296.
Proof.
  change (intBytes 4 v true)
    with [byte_of_Z (v / 1); byte_of_Z (v / 256);
          byte_of_Z (v / 65536); byte_of_Z (v / 16777216)].
  cbn [uintOfBytes]. rewrite !Z_of_byte_of_Z.
  Z.div_mod_to_equations. lia.
Qed.

(** A field is read back from where it was written. *)
Lemma getUint_at (pre bs post : list byte) :
  getUint (pre ++ bs ++ post) (length pre) (length bs) = uintOfBytes bs.
Proof.
  unfold getUint. rewrite skipn_app, Nat.sub_diag, skipn_all. cbn [app skipn].
  rewrite firstn_app, Nat.sub_diag, firstn_all. cbn [firstn].
  now rewrite app_nil_r.
Qed.

(** Each sample is read back, as a little-endian signed 16-bit integer,
    from its two bytes. *)
Lemma getInt16_pcmBytes (input : list Number) :
  forall (pre post : list byte) (i : nat),
  (i < length input)%nat ->
  getInt16 (pre ++ pcmBytes input ++ post) (length pre + 2 * i) =
  ToInt16 (scaled (nth i input NaN)).
Proof.
  induction input as [|x rest IH]; intros pre post i Hi; [simpl in Hi; lia|].
  cbn [pcmBytes flat_map]. fold (pcmBytes rest).
  set (bs := intBytes 2 (ToInt16 (scaled x)) true).
  assert (Hbs : length bs = 2%nat) by apply length_intBytes.
  destruct i as [|i].
  - rewrite Nat.mul_0_r, Nat.add_0_r. cbn [nth].
    rewrite <- app_assoc.
    assert (Hu : getUint (pre ++ bs ++ pcmBytes rest ++ post) (length pre) 2
                 = ToInt16 (scaled x) mod 65536).
    { rewrite <- Hbs. rewrite getUint_at. apply uintOfBytes_int16. }
    unfold getInt16. rewrite Hu.
    pose proof (ToInt16_range (scaled x)) as Hr.
    destruct (Z.leb_spec 32768 (ToInt16 (scaled x) mod 65536));
      Z.div_mod_to_equations; lia.
  - cbn [nth]. cbn [length] in Hi.
    rewrite <- app_assoc, app_assoc.
    replace (length pre + 2 * S i)%nat with (length (pre ++ bs) + 2 * i)%nat
      by (rewrite length_app, Hbs; lia).
    apply IH. lia.
Qed.

(** C8: for every sample, [floatTo16BitPCM] clamps to [-1, 1] and then
    scales, by 32768 below zero and by 32767 from zero on, truncating
    toward zero: a sample of 1 or more is written as 32767, a sample of -1
    or less as -32768, a sample between as the truncated product ([NaN] is
    written as 0), and the scaled value never leaves the signed 16-bit
    range.  So 1.0 gives 32767, -1.0 gives -32768 and 1.5 gives what 1.0
    gives.  Each value is written as two bytes, low byte first, and is read
    back from them as a little-endian signed 16-bit integer. *)
Theorem C8_quantization_clamps_then_scales :
  (forall x : Number,
     ToInt16 (scaled x) =
     match x with
     | NaN => 0
     | PosInfinity => 32767
     | NegInfinity => -32768
     | Finite q =>
         if Qle_bool 1 q then 32767
         else if Qle_bool q (-1) then -32768
         else if Qle_bool 0 q then Qfloor (q * 32767)
         else Qceiling (q * 32768)
     end /\
     ToInt16 (scaled x) = ToIntegerOrZero (scaled x)) /\
  (ToInt16 (scaled (Finite 1)) = 32767 /\
   ToInt16 (scaled (Finite (-1))) = -32768 /\
   ToInt16 (scaled (Finite (3 # 2))) = 32767 /\
   scaled (Finite (3 # 2)) = scaled (Finite 1)) /\
  (forall v : Z, intBytes 2 v true = [byte_of_Z v; byte_of_Z (v / 256)]) /\
  (forall (output : DataView) (offset : nat) (input : list Number),
     (offset + 2 * length input <= length output)%nat ->
     exists out,
       floatTo16BitPCM output offset input = Some out /\
       out = firstn offset output ++ pcmBytes input
               ++ skipn (offset + 2 * length input) output /\
       forall i, (i < length input)%nat ->
         getInt16 out (offset + 2 * i) = ToInt16 (scaled (nth i input NaN))).
Proof.
  split; [|split; [|split]].
  - intros x. split; [apply ToInt16_scaled|apply ToInt16_scaled_no_wrap].
  - repeat split.
  - intros v. unfold intBytes. cbn [seq map]. now rewrite Z.div_1_r.
  - intros output offset input Hlen. eexists. split; [|split].
    + apply floatTo16BitPCM_bytes. exact Hlen.
    + reflexivity.
    + intros i Hi.
      replace offset with (length (firstn offset output)) at 3
        by (rewrite length_firstn; lia).
      apply getInt16_pcmBytes. exact Hi.
Qed.

(** C8 on the samples 1.0, -1.0 and 1.5 written into six bytes. *)
Lemma C8_quantization_witness :
  exists out,
    floatTo16BitPCM (new_ArrayBuffer 6) 0
      [Finite 1; Finite (-1); Finite (3 # 2)] = Some out /\
    out = [xff; x7f; x00; x80; xff; x7f] /\
    forall i, (i < 3)%nat ->
      getInt16 out (0 + 2 * i) =
      ToInt16 (scaled (nth i [Finite 1; Finite (-1); Finite (3 # 2)] NaN)).
Proof.
  apply (proj2 (proj2 (proj2 C8_quantization_clamps_then_scales))
           (new_ArrayBuffer 6) 0%nat [Finite 1; Finite (-1); Finite (3 # 2)]).
  simpl. lia.
Defined.

(** *** The header *)

Lemma skipn_repeat_zeros (k n : nat) :
  skipn k (repeat x00 n) = repeat x00 (n - k).
Proof.
  revert k. induction n as [|n IH]; intros [|k]; try reflexivity.
  cbn [repeat skipn]. apply IH.
Qed.

(** The writes of [encodeWavBuffer] are contiguous: each one starts where
    the bytes written so far end. *)
Lemma write_next (total : nat) (done bs : list byte) (off : nat) :
  off = length done ->
  (length done + length bs <= total)%nat ->
  setBytes (done ++ repeat x00 (total - length done)) off bs =
  Some ((done ++ bs) ++ repeat x00 (total - length (done ++ bs))).
Proof.
  intros -> Hfit. rewrite setBytes_ok by (rewrite length_app, repeat_length; lia).
  f_equal. rewrite firstn_app, Nat.sub_diag, firstn_all. cbn [firstn].
  rewrite app_nil_r, <- app_assoc. do 2 f_equal.
  rewrite skipn_app.
  rewrite skipn_all2 by lia.
  replace (length done + length bs - length done)%nat with (length bs) by lia.
  cbn [app]. rewrite skipn_repeat_zeros, length_app. f_equal. lia.
Qed.

Lemma byte_of_Z_of_byte (b : byte) : byte_of_Z (Z_of_byte b) = b.
Proof. destruct b; reflexivity. Qed.

Lemma forEach_setUint8_next (total : nat) (bs : list byte) :
  forall (done : list byte) (off : nat),
  off = length done ->
  (length done + length bs <= total)%nat ->
  forEach_setUint8 (done ++ repeat x00 (total - length done)) off bs =
  Some ((done ++ bs) ++ repeat x00 (total - length (done ++ bs))).
Proof.
  induction bs as [|b bs IH]; intros done off Hoff Hfit.
  - cbn [forEach_setUint8]. now rewrite app_nil_r.
  - cbn [forEach_setUint8 length] in *. unfold setUint8.
    rewrite (write_next total done _ off Hoff) by (cbn [length]; lia).
    rewrite byte_of_Z_of_byte.
    rewrite IH.
    + now rewrite <- !app_assoc.
    + rewrite length_app. cbn [length]. lia.
    + rewrite length_app. cbn [length]. lia.
Qed.

Lemma length_wavHeader (rate : Number) (byteLength : nat) :
  length (wavHeader rate byteLength) = 44%nat.
Proof. reflexivity. Qed.

(** [encodeWavBuffer] never leaves its buffer, and returns the header
    followed by the samples. *)
Lemma encodeWavBuffer_bytes (audioBuffer : AudioBuffer)
  (channelData : list Number) :
  getChannelData audioBuffer 0 = Some channelData ->
  encodeWavBuffer audioBuffer =
  Some (wavHeader (sampleRate audioBuffer) (length channelData * 2)
          ++ pcmBytes channelData).
Proof.
  intros Hc. unfold encodeWavBuffer. rewrite Hc.
  set (byteLength := (length channelData * 2)%nat).
  set (total := (44 + byteLength)%nat).
  change (new_ArrayBuffer total)
    with ([] ++ repeat x00 (total - length (@nil byte))).
  unfold writeString, setUint32, setUint16.
  do 13 (first [rewrite (forEach_setUint8_next total) | rewrite (write_next total)];
         [cbv beta iota
         |reflexivity
         |unfold total; repeat rewrite length_app;
          repeat rewrite length_intBytes; simpl length; lia]).
  match goal with
  | |- floatTo16BitPCM (?h ++ _) _ _ = _ =>
      set (hdr := h);
      assert (Hh : hdr = wavHeader (sampleRate audioBuffer) byteLength)
        by (unfold hdr, wavHeader; cbn [app]; now rewrite <- !app_assoc)
  end.
  rewrite Hh, length_wavHeader.
  rewrite floatTo16BitPCM_bytes
    by (rewrite length_app, length_wavHeader, repeat_length; unfold total, byteLength; lia).
  f_equal.
  rewrite firstn_app, length_wavHeader, firstn_all2
    by (rewrite length_wavHeader; lia).
  cbn [Nat.sub firstn]. rewrite app_nil_r. f_equal.
  rewrite skipn_all2
    by (rewrite length_app, length_wavHeader, repeat_length; unfold total, byteLength; lia).
  apply app_nil_r.
Qed.

Lemma getUint_skip (a l : list byte) (off k n : nat) :
  off = (length a + k)%nat -> getUint (a ++ l) off n = getUint l k n.
Proof.
  intros ->. unfold getUint. rewrite skipn_app.
  rewrite skipn_all2 by lia.
  replace (length a + k - length a)%nat with k by lia. reflexivity.
Qed.

Lemma getUint_here (bs post : list byte) (n : nat) :
  n = length bs -> getUint (bs ++ post) 0 n = uintOfBytes bs.
Proof. intros ->. apply (getUint_at [] bs post). Qed.

Lemma ToUint32_idem (x : Number) : ToUint32 x mod 4294967296 = ToUint32 x.
Proof. unfold ToUint32. apply Z.mod_mod. discriminate. Qed.

(** The fields of the header [encodeWavBuffer] writes. *)
Lemma wavHeader_fields (rate : Number) (byteLength : nat) (rest : list byte) :
  getUint (wavHeader rate byteLength ++ rest) 22 2 = 1 /\
  getUint (wavHeader rate byteLength ++ rest) 24 4 = ToUint32 rate /\
  getUint (wavHeader rate byteLength ++ rest) 34 2 = 16 /\
  getUint (wavHeader rate byteLength ++ rest) 40 4
    = ToUint32 (numberOfNat byteLength).
Proof.
  unfold wavHeader. repeat rewrite <- app_assoc.
  split; [|split; [|split]].
  - do 6 (erewrite getUint_skip by reflexivity).
    rewrite getUint_here by reflexivity. reflexivity.
  - do 7 (erewrite getUint_skip by reflexivity).
    rewrite getUint_here by reflexivity.
    rewrite uintOfBytes_int32. apply ToUint32_idem.
  - do 10 (erewrite getUint_skip by reflexivity).
    rewrite getUint_here by reflexivity. reflexivity.
  - do 12 (erewrite getUint_skip by reflexivity).
    rewrite getUint_here by reflexivity.
    rewrite uintOfBytes_int32. apply ToUint32_idem.
Qed.

Lemma ToUint32_numberOfNat (n : nat) :
  Z.of_nat n < 4294967296 -> ToUint32 (numberOfNat n) = Z.of_nat n.
Proof.
  intros H. unfold ToUint32, numberOfNat, ToIntegerOrZero.
  assert (H0 : Qle_bool 0 (inject_Z (Z.of_nat n)) = true).
  { apply Qle_bool_iff. change 0%Q with (inject_Z 0). rewrite <- Zle_Qle. lia. }
  rewrite H0, Qfloor_Z. apply Z.mod_small. lia.
Qed.

(** *** [ensureWavBlob] *)

Lemma ensureWavBlob_wav (P : Platform) (blob : Blob) (sr : option Number) :
  reportsWav blob = true -> ensureWavBlob P blob sr = Some blob.
Proof. intros H. unfold ensureWavBlob. now rewrite H. Qed.

(** What the slow path returns: the header for the requested rate and the
    samples of the first rendered channel. *)
Lemma ensureWavBlob_converted (P : Platform) (blob out : Blob)
  (sr : option Number) :
  reportsWav blob = false ->
  ensureWavBlob P blob sr = Some out ->
  exists samples,
    out = {| type := "audio/wav";
             bytes := wavHeader (match sr with Some s => s | None => TARGET_SAMPLE_RATE end)
                                (length samples * 2)
                      ++ pcmBytes samples |}.
Proof.
  intros Hnot Hout. unfold ensureWavBlob in Hout. rewrite Hnot in Hout.
  destruct (decodeAudioData P (bytes blob)) as [decoded|]; [|discriminate].
  unfold resampleBuffer in Hout.
  destruct (startRendering P 1 _ _ _) as [rendered|]; [|discriminate].
  set (resampled := {| sampleRate := _; channels := rendered |}) in Hout.
  destruct (getChannelData resampled 0) as [samples|] eqn:Hc.
  - rewrite (encodeWavBuffer_bytes resampled samples Hc) in Hout.
    injection Hout as <-. exists samples. reflexivity.
  - unfold encodeWavBuffer in Hout. rewrite Hc in Hout. discriminate.
Qed.

(** C6 (amended): for every input blob whose type does not contain
    [wav] and that the platform converts, the output of [ensureWavBlob] at
    the default rate is typed [audio/wav] and is a 44-byte header followed
    by the payload; the header declares one channel, 16000 Hz, 16 bits per
    sample and, for a payload under 2^32 bytes, the payload's byte length.
    An input whose type contains [wav] is returned as it is. *)
Theorem C6_converted_output_is_canonical :
  (forall (P : Platform) (blob out : Blob),
     reportsWav blob = false ->
     ensureWavBlob P blob None = Some out ->
     type out = "audio/wav"%string /\
     declaredChannels out = 1 /\
     declaredSampleRate out = 16000 /\
     declaredBitsPerSample out = 16 /\
     length (bytes out) = (44 + length (payload out))%nat /\
     (exists samples, payload out = pcmBytes samples) /\
     (Z.of_nat (length (payload out)) < 4294967296 ->
      declaredDataLength out = Z.of_nat (length (payload out)))) /\
  (forall (P : Platform) (blob : Blob) (sr : option Number),
     reportsWav blob = true -> ensureWavBlob P blob sr = Some blob).
Proof.
  split; [|exact ensureWavBlob_wav].
  intros P blob out Hnot Hout.
  destruct (ensureWavBlob_converted P blob out None Hnot Hout) as [samples ->].
  unfold declaredChannels, declaredSampleRate, declaredBitsPerSample,
    declaredDataLength, payload. cbn [type bytes].
  destruct (wavHeader_fields TARGET_SAMPLE_RATE (length samples * 2) (pcmBytes samples))
    as [Hch [Hrate [Hbits Hlen]]].
  assert (Hpay : skipn 44 (wavHeader TARGET_SAMPLE_RATE (length samples * 2)
                             ++ pcmBytes samples) = pcmBytes samples).
  { rewrite skipn_app, length_wavHeader, skipn_all2
      by (rewrite length_wavHeader; lia).
    reflexivity. }
  rewrite Hpay.
  split; [reflexivity|]. split; [exact Hch|]. split; [rewrite Hrate; reflexivity|].
  split; [exact Hbits|]. split; [now rewrite length_app, length_wavHeader|].
  split; [exists samples; reflexivity|].
  intros Hsmall. rewrite Hlen. rewrite length_pcmBytes in *.
  replace (length samples * 2)%nat with (2 * length samples)%nat by lia.
  apply ToUint32_numberOfNat. exact Hsmall.
Qed.

(** C6 (amended) on the conversion of a WebM chunk by the toy platform. *)
Lemma C6_converted_output_witness :
  type (convertedOr toyPlatform webmChunk) = "audio/wav"%string /\
  declaredChannels (convertedOr toyPlatform webmChunk) = 1 /\
  declaredSampleRate (convertedOr toyPlatform webmChunk) = 16000 /\
  declaredBitsPerSample (convertedOr toyPlatform webmChunk) = 16 /\
  length (bytes (convertedOr toyPlatform webmChunk))
    = (44 + length (payload (convertedOr toyPlatform webmChunk)))%nat /\
  (exists samples, payload (convertedOr toyPlatform webmChunk) = pcmBytes samples) /\
  (Z.of_nat (length (payload (convertedOr toyPlatform webmChunk))) < 4294967296 ->
   declaredDataLength (convertedOr toyPlatform webmChunk)
     = Z.of_nat (length (payload (convertedOr toyPlatform webmChunk)))).
Proof.
  apply (proj1 C6_converted_output_is_canonical toyPlatform webmChunk).
  - reflexivity.
  - vm_compute. reflexivity.
Defined.

(** C6 as stated fails on the fast path: a blob typed [audio/wav] that
    holds stereo audio at 44100 Hz is returned unchanged, so the output
    declares two channels and 44100 Hz. *)
Lemma C6_pass_through_counterexample :
  ensureWavBlob deafPlatform stereoWav None = Some stereoWav /\
  declaredChannels stereoWav = 2 /\
  declaredSampleRate stereoWav = 44100 /\
  ~ (forall (P : Platform) (blob out : Blob),
       ensureWavBlob P blob None = Some out ->
       declaredChannels out = 1 /\
       declaredSampleRate out = 16000 /\
       declaredBitsPerSample out = 16).
Proof.
  split; [reflexivity|]. split; [reflexivity|]. split; [reflexivity|].
  intros H.
  destruct (H deafPlatform stereoWav stereoWav eq_refl) as [Hch _].
  vm_compute in Hch. discriminate.
Qed.

(** C10: an input that reports the WAV type is returned as it is, so
    normalising it twice is normalising it once; and whatever
    [ensureWavBlob] returns is itself returned unchanged by a second call. *)
Theorem C10_normalize_idempotent_on_canonical :
  (forall (P : Platform) (sr : option Number) (x : Blob),
     reportsWav x = true ->
     ensureWavBlob P x sr = Some x /\
     (y <- ensureWavBlob P x sr ;; ensureWavBlob P y sr) = ensureWavBlob P x sr) /\
  (forall (P : Platform) (sr : option Number) (x y : Blob),
     ensureWavBlob P x sr = Some y -> ensureWavBlob P y sr = Some y).
Proof.
  split.
  - intros P sr x Hx. pose proof (ensureWavBlob_wav P x sr Hx) as E.
    split; [exact E|]. rewrite E. exact E.
  - intros P sr x y Hy. apply ensureWavBlob_wav.
    destruct (reportsWav x) eqn:Hx.
    + rewrite (ensureWavBlob_wav P x sr Hx) in Hy. injection Hy as <-. exact Hx.
    + destruct (ensureWavBlob_converted P x y sr Hx Hy) as [samples ->].
      reflexivity.
Qed.

(** C10 on a stereo WAV file. *)
Lemma C10_normalize_idempotent_witness :
  ensureWavBlob deafPlatform stereoWav None = Some stereoWav /\
  (y <- ensureWavBlob deafPlatform stereoWav None ;; ensureWavBlob deafPlatform y None)
  = ensureWavBlob deafPlatform stereoWav None.
Proof.
  apply (proj1 C10_normalize_idempotent_on_canonical deafPlatform None stereoWav).
  reflexivity.
Defined.

End AudioFacts.

(* ===================================================================== *)
(** ** Facts about the transcript merge                                   *)
(* ===================================================================== *)

Section TranscriptFacts.
Import Transcript.

Lemma jsstring_eqb_eq (a b : jsstring) : jsstring_eqb a b = true <-> a = b.
Proof.
  revert b. induction a as [|x a IH]; intros [|y b]; simpl; split;
    try discriminate; try reflexivity.
  - intros H. apply andb_true_iff in H. destruct H as [Hxy Hab].
    apply N.eqb_eq in Hxy. apply IH in Hab. now subst.
  - intros [= -> ->]. rewrite N.eqb_refl. simpl. now apply IH.
Qed.

(** *** White-space normalisation is idempotent *)

Lemma squeezed_replaceRuns (s : jsstring) :
  forall b, squeezed b (replaceRuns b s).
Proof.
  induction s as [|c s IH]; intros b; [exact I|].
  cbn [replaceRuns]. destruct (isWhiteSpace c) eqn:Hc.
  - destruct b; [apply IH|].
    cbn [squeezed]. change (isWhiteSpace SPACE) with true. cbv iota.
    repeat split. apply IH.
  - cbn [squeezed]. rewrite Hc. apply IH.
Qed.

Lemma replaceRuns_squeezed (s : jsstring) :
  forall b, squeezed b s -> replaceRuns b s = s.
Proof.
  induction s as [|c s IH]; intros b H; [reflexivity|].
  cbn [replaceRuns squeezed] in *. destruct (isWhiteSpace c).
  - destruct H as [-> [-> H]]. now rewrite IH.
  - now rewrite IH.
Qed.

Lemma squeezed_trimStart (s : jsstring) :
  forall b, squeezed b s -> squeezed false (trimStart s).
Proof.
  induction s as [|c s IH]; intros b H; [exact I|].
  cbn [trimStart]. destruct (isWhiteSpace c) eqn:Hc.
  - cbn [squeezed] in H. rewrite Hc in H. destruct H as [_ [_ H]].
    apply (IH true). exact H.
  - cbn [squeezed] in *. rewrite Hc in *. exact H.
Qed.

Lemma squeezed_trimEnd (s : jsstring) :
  forall b, squeezed b s -> squeezed b (trimEnd s).
Proof.
  induction s as [|c s IH]; intros b H; [exact I|].
  cbn [trimEnd]. cbn [squeezed] in H.
  destruct (isWhiteSpace c) eqn:Hc.
  - destruct H as [Hsp [Hb H]]. specialize (IH true H).
    destruct (trimEnd s) as [|k kept]; [exact I|].
    cbn [squeezed]. rewrite Hc. cbn [squeezed] in IH. auto.
  - specialize (IH false H).
    destruct (trimEnd s) as [|k kept].
    + cbn [squeezed]. now rewrite Hc.
    + cbn [squeezed]. rewrite Hc. exact IH.
Qed.

Lemma startsClean_trimStart (s : jsstring) : startsClean (trimStart s).
Proof.
  induction s as [|c s IH]; [exact I|].
  cbn [trimStart]. destruct (isWhiteSpace c) eqn:Hc; [exact IH|exact Hc].
Qed.

Lemma startsClean_trimEnd (s : jsstring) :
  startsClean s -> startsClean (trimEnd s).
Proof.
  destruct s as [|c s]; [auto|]. intros Hc. cbn [startsClean] in Hc.
  cbn [trimEnd]. rewrite Hc. destruct (trimEnd s); exact Hc.
Qed.

Lemma trimStart_clean (s : jsstring) : startsClean s -> trimStart s = s.
Proof.
  destruct s as [|c s]; [reflexivity|]. intros Hc. cbn [startsClean] in Hc.
  cbn [trimStart]. now rewrite Hc.
Qed.

Lemma trimEnd_idem (s : jsstring) : trimEnd (trimEnd s) = trimEnd s.
Proof.
  induction s as [|c s IH]; [reflexivity|].
  cbn [trimEnd]. destruct (trimEnd s) as [|k kept] eqn:E.
  - destruct (isWhiteSpace c) eqn:Hc; [reflexivity|].
    cbn [trimEnd]. now rewrite Hc.
  - cbn [trimEnd]. cbn [trimEnd] in IH. rewrite IH. reflexivity.
Qed.

Lemma trim_idem (s : jsstring) : trim (trim s) = trim s.
Proof.
  unfold trim.
  rewrite (trimStart_clean (trimEnd (trimStart s)))
    by (apply startsClean_trimEnd, startsClean_trimStart).
  apply trimEnd_idem.
Qed.

Lemma normalizeLine_idem (s : jsstring) :
  normalizeLine (normalizeLine s) = normalizeLine s.
Proof.
  unfold normalizeLine.
  rewrite (replaceRuns_squeezed (trim (replaceRuns false s)) false).
  - apply trim_idem.
  - unfold trim. apply squeezed_trimEnd.
    apply (squeezed_trimStart _ false). apply squeezed_replaceRuns.
Qed.

(** *** The merge keeps the transcript bounded and free of repeats *)

Lemma noAdjacentEqual_snoc (lines : list jsstring) (t : jsstring) :
  noAdjacentEqual lines -> t <> List.last lines [] ->
  noAdjacentEqual (lines ++ [t]).
Proof.
  induction lines as [|a lines IH]; intros Hn Ht; [simpl; auto|].
  destruct Hn as [Hhead Hn]. destruct lines as [|b lines'].
  - simpl in *. split; [congruence|auto].
  - split; [exact Hhead|]. apply IH; [exact Hn|exact Ht].
Qed.

Lemma noAdjacentEqual_skipn (k : nat) (lines : list jsstring) :
  noAdjacentEqual lines -> noAdjacentEqual (skipn k lines).
Proof.
  revert lines. induction k as [|k IH]; intros lines Hn; [exact Hn|].
  destruct lines as [|a lines]; [exact I|].
  cbn [skipn]. apply IH. apply Hn.
Qed.

Lemma noAdjacentEqual_nth (lines : list jsstring) (i : nat) (a b : jsstring) :
  noAdjacentEqual lines ->
  nth_error lines i = Some a -> nth_error lines (S i) = Some b -> a <> b.
Proof.
  revert i. induction lines as [|x lines IH]; intros i Hn Ha Hb.
  - destruct i; discriminate.
  - destruct Hn as [Hhead Hn]. destruct i as [|i].
    + simpl in Ha. injection Ha as ->.
      destruct lines as [|y lines']; [discriminate|].
      simpl in Hb. injection Hb as ->. exact Hhead.
    + apply (IH i); assumption.
Qed.

Lemma Forall_skipn_keep {A : Type} (ok : A -> Prop) (k : nat) (l : list A) :
  Forall ok l -> Forall ok (skipn k l).
Proof.
  revert l. induction k as [|k IH]; intros l H; [exact H|].
  destruct H as [|x l Hx H]; [constructor|]. cbn [skipn]. apply IH. exact H.
Qed.

(** The three cases of the merge. *)
Lemma onTranscription_cases (r : TranscriptionResponse) (prev : list jsstring) :
  (normalizedText r = [] -> onTranscription r prev = prev) /\
  (normalizedText r = List.last prev [] -> onTranscription r prev = prev) /\
  (normalizedText r <> [] -> normalizedText r <> List.last prev [] ->
   onTranscription r prev = slice_neg maxLines (prev ++ [normalizedText r])).
Proof.
  unfold onTranscription.
  destruct (normalizedText r) as [|c t] eqn:E.
  - repeat split; auto. intros H; congruence.
  - destruct (jsstring_eqb (c :: t) (List.last prev [])) eqn:Heq.
    + apply jsstring_eqb_eq in Heq. repeat split; auto; try discriminate.
      intros _ H. congruence.
    + repeat split; auto; try discriminate.
      intros H. apply jsstring_eqb_eq in H. congruence.
Qed.

Lemma onTranscription_wellFormed (r : TranscriptionResponse)
  (prev : list jsstring) :
  wellFormed prev -> wellFormed (onTranscription r prev).
Proof.
  intros [Hlen [Hadj Hnorm]].
  destruct (onTranscription_cases r prev) as [Hempty [Hsame Hnew]].
  destruct (normalizedText r) as [|c t] eqn:E.
  - rewrite Hempty by reflexivity. repeat split; assumption.
  - destruct (jsstring_eqb (c :: t) (List.last prev [])) eqn:Heq.
    + apply jsstring_eqb_eq in Heq. rewrite Hsame by exact Heq.
      repeat split; assumption.
    + assert (Hne : c :: t <> List.last prev []).
      { intros H. apply jsstring_eqb_eq in H. congruence. }
      rewrite Hnew by (try discriminate; exact Hne).
      unfold slice_neg. split; [|split].
      * rewrite length_skipn. lia.
      * apply noAdjacentEqual_skipn. apply noAdjacentEqual_snoc; assumption.
      * apply Forall_skipn_keep. apply Forall_app. split; [exact Hnorm|].
        constructor; [|constructor]. split; [discriminate|].
        rewrite <- E. unfold normalizedText. apply normalizeLine_idem.
Qed.

Lemma merged_from_wellFormed (results : list TranscriptionResponse) :
  forall start, wellFormed start ->
  wellFormed (fold_left (fun prev r => onTranscription r prev) results start).
Proof.
  induction results as [|r results IH]; intros start H; [exact H|].
  cbn [fold_left]. apply IH. apply onTranscription_wellFormed. exact H.
Qed.

(** *** The code's normalisation is the specification's *)

Lemma replaceRuns_true_clean (s : jsstring) :
  trimStart (replaceRuns true s) = replaceRuns true s.
Proof.
  induction s as [|c s IH]; [reflexivity|].
  cbn [replaceRuns]. destruct (isWhiteSpace c) eqn:Hc; [exact IH|].
  cbn [trimStart]. now rewrite Hc.
Qed.

Lemma trimStart_replaceRuns (s : jsstring) :
  trimStart (replaceRuns false s) = replaceRuns true s.
Proof.
  destruct s as [|c s]; [reflexivity|].
  cbn [replaceRuns]. destruct (isWhiteSpace c) eqn:Hc.
  - cbn [trimStart]. change (isWhiteSpace SPACE) with true. cbn iota.
    apply replaceRuns_true_clean.
  - cbn [trimStart]. now rewrite Hc.
Qed.

Lemma trimEnd_cons_visible (c : N) (s : jsstring) :
  isWhiteSpace c = false -> trimEnd (c :: s) = c :: trimEnd s.
Proof.
  intros Hc. cbn [trimEnd]. destruct (trimEnd s); [now rewrite Hc|reflexivity].
Qed.

Lemma isWhiteSpace_isSpace (c : N) :
  isWhiteSpace c = TranscriptSpec.isSpace c.
Proof.
  unfold isWhiteSpace, TranscriptSpec.isSpace, TranscriptSpec.whiteSpace.
  cbn [existsb].
  destruct (N.leb_spec 9 c) as [H9|H9]; cbn [andb orb].
  2:{ repeat match goal with
             | |- context [(c =? ?k)%N] =>
                 destruct (N.eqb_spec c k); [lia|]; cbn [orb]
             | |- context [(?k <=? c)%N] =>
                 destruct (N.leb_spec k c); [lia|]; cbn [andb orb]
             end.
      reflexivity. }
  destruct (N.leb_spec c 13) as [H13|H13]; cbn [andb orb].
  { assert (H : (c = 9 \/ c = 10 \/ c = 11 \/ c = 12 \/ c = 13)%N) by lia.
    destruct H as [->|[->|[->|[->| ->]]]]; reflexivity. }
  destruct (N.leb_spec 8192 c) as [Hlo|Hlo];
    destruct (N.leb_spec c 8202) as [Hhi|Hhi]; cbn [andb orb].
  - assert (H : exists k, (k <= 10)%nat /\ c = (8192 + N.of_nat k)%N).
    { exists (N.to_nat (c - 8192)). split; lia. }
    destruct H as (k & Hk & ->).
    do 11 (destruct k as [|k]; [reflexivity|]). lia.
  - repeat match goal with
           | |- context [(?x =? ?k)%N] =>
               destruct (N.eqb_spec x k);
                 [first [lia | subst; reflexivity]|]; cbn [orb]
           end.
    reflexivity.
  - repeat match goal with
           | |- context [(?x =? ?k)%N] =>
               destruct (N.eqb_spec x k);
                 [first [lia | subst; reflexivity]|]; cbn [orb]
           end.
    reflexivity.
  - lia.
Qed.

Lemma words_nonempty (s : jsstring) :
  Forall (fun w => w <> []) (TranscriptSpec.words s).
Proof.
  induction s as [|c s IH]; [constructor|].
  cbn [TranscriptSpec.words]. destruct (TranscriptSpec.isSpace c); [exact IH|].
  destruct s as [|d s']; [repeat constructor; discriminate|].
  destruct (TranscriptSpec.isSpace d).
  - constructor; [discriminate|exact IH].
  - destruct (TranscriptSpec.words (d :: s')) as [|w ws].
    + repeat constructor; discriminate.
    + inversion IH; subst. constructor; [discriminate|assumption].
Qed.

Lemma joinWords_nil (ws : list jsstring) :
  Forall (fun w => w <> []) ws -> TranscriptSpec.joinWords ws = [] -> ws = [].
Proof.
  intros Hall Hj. destruct ws as [|w ws]; [reflexivity|].
  inversion Hall as [|w' ws' Hw Hws]; subst.
  cbn [TranscriptSpec.joinWords] in Hj. destruct ws as [|w2 ws].
  - congruence.
  - destruct w; [congruence|discriminate Hj].
Qed.

Lemma joinWords_cons_visible (c : N) (w : jsstring) (ws : list jsstring) :
  TranscriptSpec.joinWords ((c :: w) :: ws)
  = c :: TranscriptSpec.joinWords (w :: ws).
Proof. cbn [TranscriptSpec.joinWords]. destruct ws; reflexivity. Qed.

(** [trimEnd (replaceRuns true s)] is the words of [s] joined by single
    spaces. *)
Lemma trimEnd_replaceRuns_words (s : jsstring) :
  trimEnd (replaceRuns true s) = TranscriptSpec.collapseAndTrim s.
Proof.
  unfold TranscriptSpec.collapseAndTrim.
  induction s as [|c s IH]; [reflexivity|].
  cbn [replaceRuns]. destruct (isWhiteSpace c) eqn:Hc.
  { cbn [TranscriptSpec.words]. rewrite <- isWhiteSpace_isSpace, Hc. exact IH. }
  rewrite (trimEnd_cons_visible c _ Hc).
  destruct s as [|d s'];
    [cbn [TranscriptSpec.words]; now rewrite <- isWhiteSpace_isSpace, Hc|].
  pose proof (words_nonempty (d :: s')) as Hne.
  assert (Hwords : TranscriptSpec.words (c :: d :: s')
                   = if isWhiteSpace d
                     then [c] :: TranscriptSpec.words (d :: s')
                     else match TranscriptSpec.words (d :: s') with
                          | w :: ws => (c :: w) :: ws
                          | [] => [[c]]
                          end).
  { cbn [TranscriptSpec.words].
    rewrite <- !isWhiteSpace_isSpace, Hc. reflexivity. }
  rewrite Hwords. clear Hwords.
  destruct (isWhiteSpace d) eqn:Hd.
  - assert (Hr : replaceRuns false (d :: s') = SPACE :: replaceRuns true (d :: s')).
    { cbn [replaceRuns]. now rewrite Hd. }
    rewrite Hr. cbn [trimEnd]. rewrite IH.
    destruct (TranscriptSpec.words (d :: s')) as [|w ws] eqn:Hw; [reflexivity|].
    destruct (TranscriptSpec.joinWords (w :: ws)) as [|x xs] eqn:Hj.
    + apply joinWords_nil in Hj; [discriminate Hj|exact Hne].
    + cbn [TranscriptSpec.joinWords app]. rewrite <- Hj. reflexivity.
  - assert (Hr : replaceRuns false (d :: s') = replaceRuns true (d :: s')).
    { cbn [replaceRuns]. now rewrite Hd. }
    rewrite Hr, IH.
    destruct (TranscriptSpec.words (d :: s')) as [|w ws]; [reflexivity|].
    now rewrite joinWords_cons_visible.
Qed.

Lemma normalizeLine_collapseAndTrim (s : jsstring) :
  normalizeLine s = TranscriptSpec.collapseAndTrim s.
Proof.
  unfold normalizeLine, trim. rewrite trimStart_replaceRuns.
  apply trimEnd_replaceRuns_words.
Qed.

Lemma lastLines_slice_neg (n : nat) (lines : list jsstring) :
  TranscriptSpec.lastLines n lines = slice_neg n lines.
Proof.
  unfold TranscriptSpec.lastLines, slice_neg.
  rewrite firstn_rev. apply rev_involutive.
Qed.

Lemma last_rev (lines : list jsstring) :
  List.last lines []
  = match rev lines with l :: _ => l | [] => [] end.
Proof.
  destruct (rev lines) as [|l rest] eqn:E.
  - apply (f_equal (@rev jsstring)) in E. rewrite rev_involutive in E.
    now subst lines.
  - apply (f_equal (@rev jsstring)) in E. rewrite rev_involutive in E.
    subst lines. cbn [rev]. apply last_last.
Qed.

(** The callback is the merge step of the specification. *)
Lemma onTranscription_mergeStep (r : TranscriptionResponse)
  (prev : list jsstring) :
  onTranscription r prev = TranscriptSpec.mergeStep (TranscriptSpec.textOf r) prev.
Proof.
  unfold onTranscription, TranscriptSpec.mergeStep.
  change (normalizedText r) with (normalizeLine (TranscriptSpec.textOf r)).
  rewrite normalizeLine_collapseAndTrim.
  destruct (TranscriptSpec.collapseAndTrim (TranscriptSpec.textOf r))
    as [|c t] eqn:Ht; [reflexivity|].
  rewrite last_rev. unfold TranscriptSpec.lastLine.
  change maxLines with 200%nat. rewrite lastLines_slice_neg.
  destruct (rev prev) as [|l rest]; [reflexivity|].
  destruct (list_eq_dec N.eq_dec (c :: t) l) as [Heq|Hne].
  - apply jsstring_eqb_eq in Heq. now rewrite Heq.
  - destruct (jsstring_eqb (c :: t) l) eqn:E; [|reflexivity].
    apply jsstring_eqb_eq in E. contradiction.
Qed.

Lemma merged_mergeAll (results : list TranscriptionResponse) :
  merged results = TranscriptSpec.mergeAll (map TranscriptSpec.textOf results).
Proof.
  unfold merged, TranscriptSpec.mergeAll. generalize (@nil jsstring).
  induction results as [|r results IH]; intros acc; [reflexivity|].
  cbn [map fold_left]. rewrite onTranscription_mergeStep. apply IH.
Qed.

(** Every line of the transcript is the normalised text of a result that
    was merged. *)
Lemma merged_lines_from_results (ok : jsstring -> Prop)
  (results : list TranscriptionResponse) :
  forall start,
  Forall ok start ->
  (forall r, In r results -> ok (normalizedText r)) ->
  Forall ok (fold_left (fun prev r => onTranscription r prev) results start).
Proof.
  induction results as [|r results IH]; intros start Hstart Hres; [exact Hstart|].
  cbn [fold_left]. apply IH; [|intros r' Hr'; apply Hres; now right].
  destruct (onTranscription_cases r start) as [Hnil [Hsame Hnew]].
  destruct (list_eq_dec N.eq_dec (normalizedText r) []) as [E|E];
    [now rewrite (Hnil E)|].
  destruct (list_eq_dec N.eq_dec (normalizedText r) (List.last start []))
    as [E'|E']; [now rewrite (Hsame E')|].
  rewrite (Hnew E E'). unfold slice_neg. apply Forall_skipn_keep.
  apply Forall_app. split; [exact Hstart|].
  constructor; [|constructor]. apply Hres. now left.
Qed.

(** C9: the code's white space is the enumerated set of ECMAScript, its
    white-space normalisation is the specification's (collapse runs of
    white space to single spaces and trim), and the merge
    callback is the specification's merge step: the text is normalised,
    the transcript is left as it is when the normalised text is empty or
    equal to the last line, and otherwise the text is appended and the
    newest 200 lines are kept.  After every sequence of merges the
    transcript is the one the specification's merge yields; it has at most
    200 lines; every line is non-empty, already normalised, and is the
    normalised text of one of the merged results; and no two neighbouring
    lines are equal, also after normalisation. *)
Theorem C9_transcript_bounded_without_adjacent_repeats :
  (forall (r : TranscriptionResponse) (prev : list jsstring),
     normalizeLine (normalizedText r) = normalizedText r /\
     (normalizedText r = [] -> onTranscription r prev = prev) /\
     (normalizedText r = List.last prev [] -> onTranscription r prev = prev) /\
     (normalizedText r <> [] -> normalizedText r <> List.last prev [] ->
      onTranscription r prev = slice_neg 200 (prev ++ [normalizedText r]))) /\
  (forall results : list TranscriptionResponse,
     (length (merged results) <= 200)%nat /\
     Forall (fun l => l <> [] /\ normalizeLine l = l) (merged results) /\
     forall (i : nat) (a b : jsstring),
       nth_error (merged results) i = Some a ->
       nth_error (merged results) (S i) = Some b ->
       a <> b /\ normalizeLine a <> normalizeLine b) /\
  (forall c : N, isWhiteSpace c = true <-> In c TranscriptSpec.whiteSpace) /\
  (forall s : jsstring, normalizeLine s = TranscriptSpec.collapseAndTrim s) /\
  (forall (r : TranscriptionResponse) (prev : list jsstring),
     normalizedText r = TranscriptSpec.collapseAndTrim (TranscriptSpec.textOf r) /\
     onTranscription r prev
     = TranscriptSpec.mergeStep (TranscriptSpec.textOf r) prev) /\
  (forall results : list TranscriptionResponse,
     merged results
     = TranscriptSpec.mergeAll (map TranscriptSpec.textOf results) /\
     Forall (fun l => exists r, In r results /\
                                l = TranscriptSpec.collapseAndTrim
                                      (TranscriptSpec.textOf r))
            (merged results)).
Proof.
  split; [|split; [|split; [|split; [|split]]]].
  - intros r prev. split; [apply normalizeLine_idem|]. apply onTranscription_cases.
  - intros results.
    assert (H : wellFormed (merged results)).
    { apply merged_from_wellFormed.
      split; [apply Nat.le_0_l|]. split; [exact I|constructor]. }
    destruct H as [Hlen [Hadj Hnorm]].
    split; [exact Hlen|]. split; [exact Hnorm|].
    intros i a b Ha Hb.
    pose proof (noAdjacentEqual_nth _ i a b Hadj Ha Hb) as Hab.
    split; [exact Hab|].
    rewrite Forall_forall in Hnorm.
    destruct (Hnorm a (nth_error_In _ _ Ha)) as [_ Hna].
    destruct (Hnorm b (nth_error_In _ _ Hb)) as [_ Hnb].
    now rewrite Hna, Hnb.
  - intros c. rewrite isWhiteSpace_isSpace. unfold TranscriptSpec.isSpace.
    rewrite existsb_exists. split.
    + intros (k & Hk & Heq). apply N.eqb_eq in Heq. now subst k.
    + intros Hin. exists c. split; [exact Hin|apply N.eqb_refl].
  - exact normalizeLine_collapseAndTrim.
  - intros r prev. split; [|apply onTranscription_mergeStep].
    apply (normalizeLine_collapseAndTrim (TranscriptSpec.textOf r)).
  - intros results. split; [apply merged_mergeAll|].
    apply merged_lines_from_results; [constructor|].
    intros r Hr. exists r. split; [exact Hr|].
    apply (normalizeLine_collapseAndTrim (TranscriptSpec.textOf r)).
Qed.

(** C9 on three transcriptions, the second a repeat of the first up to
    white space. *)
Lemma C9_transcript_witness :
  ofString "hello world" <> ofString "again" /\
  normalizeLine (ofString "hello world") <> normalizeLine (ofString "again").
Proof.
  apply (proj2 (proj2 (proj1 (proj2
           C9_transcript_bounded_without_adjacent_repeats)
           [mkResponse (Some (ofString "hello   world ")) None None;
            mkResponse (Some (ofString " hello world")) None None;
            mkResponse (Some (ofString "again")) None None]))
           0%nat).
  - reflexivity.
  - reflexivity.
Defined.

(** The specification's normalisation on a text with white space of
    several kinds. *)
Example collapseAndTrim_example :
  TranscriptSpec.collapseAndTrim
    ([9; 32] ++ ofString "hello" ++ [10; 160; 32] ++ ofString "big"
     ++ [8232] ++ ofString "world" ++ [13; 10])%N
  = ofString "hello big world".
Proof. reflexivity. Qed.

Example normalizedText_example :
  normalizedText (mkResponse (Some (ofString "  hello   big  world ")) None None)
  = ofString "hello big world".
Proof. reflexivity. Qed.

(** A repeat is dropped only when it follows its twin directly. *)
Example merged_example :
  merged [mkResponse (Some (ofString "a")) None None;
          mkResponse (Some (ofString " a ")) None None;
          mkResponse None None None;
          mkResponse (Some (ofString "b")) None None;
          mkResponse (Some (ofString "a")) None None]
  = [ofString "a"; ofString "b"; ofString "a"].
Proof. reflexivity. Qed.

End TranscriptFacts.

(* ===================================================================== *)
(** ** Facts about the upload path and the live loop                      *)
(* ===================================================================== *)

Section PipelineFacts.
Import AudioProcessing Transcript Pipeline.

(** Every call with a non-empty blob sends exactly one request, carrying
    the payload chosen for the blob. *)
Lemma sendChunkToTranscription_requests (P : Platform)
  (fetch : nat -> Blob -> FetchOutcome) (chunk : Blob) (st : HookState) :
  requests (sendChunkToTranscription P fetch chunk st) =
  if size chunk =? 0 then requests st
  else requests st ++ [fst (transcribeBlob fetch (length (requests st))
                                          (payloadFor P chunk))].
Proof.
  unfold sendChunkToTranscription. destruct (size chunk =? 0); [reflexivity|].
  destruct (transcribeBlob fetch _ _) as [request [e|response]]; reflexivity.
Qed.

Lemma transcribeBlob_request (fetch : nat -> Blob -> FetchOutcome) (n : nat)
  (blob : Blob) :
  fst (transcribeBlob fetch n blob) =
  {| file := blob;
     extension := match inferExtensionFromMime (type blob) with
                  | Some e => e
                  | None => "webm"%string
                  end |}.
Proof.
  unfold transcribeBlob. destruct (fetch n blob) as [m|ok status [msg|] body];
    try reflexivity.
  - destruct ok; [reflexivity|]. destruct (String.eqb msg ""); reflexivity.
  - destruct ok; reflexivity.
Qed.

Lemma payloadFor_failed (P : Platform) (chunk : Blob) :
  ensureWavBlob P chunk None = None -> payloadFor P chunk = chunk.
Proof.
  intros H. unfold payloadFor. rewrite H.
  destruct (negb (includes "wav" (type chunk))); reflexivity.
Qed.

Lemma sendAll_requests (P : Platform) (fetch : nat -> Blob -> FetchOutcome)
  (segments : list Blob) :
  forall st,
  length (requests (sendAll P fetch segments st)) =
  (length (requests st)
   + length (filter (fun seg => negb (size seg =? 0)%Z) segments))%nat.
Proof.
  induction segments as [|seg segments IH]; intros st; [simpl; lia|].
  unfold sendAll in *. cbn [fold_left filter]. rewrite IH.
  rewrite sendChunkToTranscription_requests.
  destruct (size seg =? 0); cbn [negb length]; [lia|].
  rewrite length_app. cbn [length]. lia.
Qed.

(** C7 (amended): when the conversion of a non-empty segment fails, the
    segment is not dropped: the unconverted segment is uploaded in its
    place, in a single request, and the failed conversion stores no error.
    The pipeline goes on: of any sequence of segments, every non-empty one
    is uploaded. *)
Theorem C7_failed_conversion_uploads_the_raw_segment :
  (forall (P : Platform) (fetch : nat -> Blob -> FetchOutcome)
          (chunk : Blob) (st : HookState),
     0 < size chunk ->
     ensureWavBlob P chunk None = None ->
     requests (sendChunkToTranscription P fetch chunk st) =
     requests st
       ++ [{| file := chunk;
              extension := match inferExtensionFromMime (type chunk) with
                           | Some e => e
                           | None => "webm"%string
                           end |}] /\
     (forall status msg body,
        fetch (length (requests st)) chunk = Response true status msg body ->
        error (sendChunkToTranscription P fetch chunk st) = error st /\
        subtitles (sendChunkToTranscription P fetch chunk st)
          = onTranscription body (subtitles st))) /\
  (forall (P : Platform) (fetch : nat -> Blob -> FetchOutcome)
          (segments : list Blob) (st : HookState),
     length (requests (sendAll P fetch segments st)) =
     (length (requests st)
      + length (filter (fun seg => negb (size seg =? 0)%Z) segments))%nat).
Proof.
  split; [|exact sendAll_requests].
  intros P fetch chunk st Hsize Hfail.
  assert (Hnz : (size chunk =? 0) = false) by (apply Z.eqb_neq; lia).
  split.
  - rewrite sendChunkToTranscription_requests, Hnz.
    rewrite (payloadFor_failed P chunk Hfail), transcribeBlob_request.
    reflexivity.
  - intros status msg body Hfetch.
    unfold sendChunkToTranscription. rewrite Hnz.
    rewrite (payloadFor_failed P chunk Hfail).
    unfold transcribeBlob. rewrite Hfetch. split; reflexivity.
Qed.

(** C7 (amended) on a WebM chunk that the platform cannot decode. *)
Lemma C7_failed_conversion_witness :
  requests (sendChunkToTranscription deafPlatform silentServer webmChunk
              initialHookState) =
  [{| file := webmChunk; extension := "webm" |}].
Proof.
  apply (proj1 (proj1 C7_failed_conversion_uploads_the_raw_segment
                  deafPlatform silentServer webmChunk initialHookState
                  eq_refl eq_refl)).
Defined.

(** C7 as stated fails: a segment whose conversion fails is uploaded. *)
Lemma C7_dropped_segment_counterexample :
  ensureWavBlob deafPlatform webmChunk None = None /\
  requests (sendChunkToTranscription deafPlatform silentServer webmChunk
              initialHookState)
    = [{| file := webmChunk; extension := "webm" |}] /\
  ~ (forall (P : Platform) (fetch : nat -> Blob -> FetchOutcome)
            (chunk : Blob) (st : HookState),
       ensureWavBlob P chunk None = None ->
       requests (sendChunkToTranscription P fetch chunk st) = requests st).
Proof.
  split; [reflexivity|]. split; [reflexivity|].
  intros H.
  specialize (H deafPlatform silentServer webmChunk initialHookState eq_refl).
  vm_compute in H. discriminate.
Qed.

End PipelineFacts.

Section LiveFacts.
Import AudioProcessing Transcript Pipeline Live.

Lemma size_new_Blob_pos (parts : list Blob) (data : Blob) (ty : option string) :
  0 < size data -> 0 < size (new_Blob (parts ++ [data]) ty).
Proof.
  unfold size, new_Blob. cbn [bytes]. intros H.
  rewrite map_app, concat_app, length_app. cbn [map concat].
  rewrite app_nil_r. lia.
Qed.

(** C5 (amended): [stopLiveSubtitles] on a loop whose recorder is
    recording clears the loop flag and the recorder ref, disables live
    subtitles and starts no new recorder; the chunks of the stopped
    recorder are not discarded: its [stop] handler hands them, as one blob,
    to [sendChunkToTranscription], which sends one request for them when
    the recorder gathered any audio. *)
Theorem C5_stopLive_uploads_the_partial_segment
  (P : Platform) (fetch : nat -> Blob -> FetchOutcome) (mime : string)
  (st : LiveState) (r : MediaRecorder) (gathered : Blob) (env : Spawn) :
  liveRecorderRef st = Some r ->
  state r = recording ->
  let flushed := Live.ondataavailable gathered (chunks r) in
  stopLiveSubtitles P fetch mime gathered env st =
  {| liveLoopActiveRef := false;
     liveRecorderRef := None;
     liveSubtitlesEnabled := false;
     hook := if (0 <? length flushed)%nat
             then sendChunkToTranscription P fetch
                    (new_Blob flushed (Some mime)) (hook st)
             else hook st |} /\
  (0 < size gathered ->
   requests (hook (stopLiveSubtitles P fetch mime gathered env st)) =
   requests (hook st)
     ++ [fst (transcribeBlob fetch (length (requests (hook st)))
                (payloadFor P (new_Blob (chunks r ++ [gathered]) (Some mime))))]).
Proof.
  intros Href Hstate flushed.
  assert (Heq : stopLiveSubtitles P fetch mime gathered env st =
    {| liveLoopActiveRef := false;
       liveRecorderRef := None;
       liveSubtitlesEnabled := false;
       hook := if (0 <? length flushed)%nat
               then sendChunkToTranscription P fetch
                      (new_Blob flushed (Some mime)) (hook st)
               else hook st |}).
  { unfold stopLiveSubtitles. cbn [liveRecorderRef]. rewrite Href, Hstate.
    unfold recorder_stop, Live.onstop. cbn [chunks]. fold flushed.
    destruct (0 <? length flushed)%nat; reflexivity. }
  split; [exact Heq|].
  intros Hpos. rewrite Heq. cbn [hook].
  assert (Hfl : flushed = chunks r ++ [gathered]).
  { unfold flushed, Live.ondataavailable.
    apply Z.ltb_lt in Hpos. now rewrite Hpos. }
  rewrite Hfl.
  assert (Hlen : (0 <? length (chunks r ++ [gathered]))%nat = true).
  { apply Nat.ltb_lt. rewrite length_app. cbn [length]. lia. }
  rewrite Hlen, sendChunkToTranscription_requests.
  pose proof (size_new_Blob_pos (chunks r) gathered (Some mime) Hpos) as Hsz.
  assert (Hnz : (size (new_Blob (chunks r ++ [gathered]) (Some mime)) =? 0) = false)
    by (apply Z.eqb_neq; lia).
  now rewrite Hnz.
Qed.

(** C5 (amended) on a loop that is stopped after its first recorder
    gathered one WebM chunk. *)
Lemma C5_stopLive_witness :
  requests (hook (stopLiveSubtitles deafPlatform silentServer opusMime
                    webmChunk spawnOk liveStarted)) =
  requests (hook liveStarted)
    ++ [fst (transcribeBlob silentServer (length (requests (hook liveStarted)))
               (payloadFor deafPlatform
                  (new_Blob ([] ++ [webmChunk]) (Some opusMime))))].
Proof.
  apply (proj2 (C5_stopLive_uploads_the_partial_segment
                  deafPlatform silentServer opusMime liveStarted
                  {| state := recording; chunks := [] |} webmChunk spawnOk
                  eq_refl eq_refl)).
  reflexivity.
Defined.

(** C5 as stated fails: stopping the loop while its recorder holds audio
    sends a request for that audio. *)
Lemma C5_discard_counterexample :
  liveRecorderRef liveStarted = Some {| state := recording; chunks := [] |} /\
  requests (hook liveStarted) = [] /\
  requests (hook (stopLiveSubtitles deafPlatform silentServer opusMime
                    webmChunk spawnOk liveStarted))
    = [{| file := new_Blob [webmChunk] (Some opusMime); extension := "webm" |}] /\
  ~ (forall (P : Platform) (fetch : nat -> Blob -> FetchOutcome)
            (mime : string) (st : LiveState) (r : MediaRecorder)
            (gathered : Blob) (env : Spawn),
       liveRecorderRef st = Some r ->
       state r = recording ->
       requests (hook (stopLiveSubtitles P fetch mime gathered env st))
         = requests (hook st)).
Proof.
  split; [reflexivity|]. split; [reflexivity|]. split; [reflexivity|].
  intros H.
  specialize (H deafPlatform silentServer opusMime liveStarted
                {| state := recording; chunks := [] |} webmChunk spawnOk
                eq_refl eq_refl).
  vm_compute in H. discriminate.
Qed.

(** When the timer of a recorder fires while the loop is active, its
    audio is uploaded and a new recorder is spawned. *)
Example timeout_uploads_and_respawns :
  let st := onTimeout deafPlatform silentServer opusMime webmChunk spawnOk
              liveStarted in
  liveRecorderRef st = Some {| state := recording; chunks := [] |} /\
  liveLoopActiveRef st = true /\
  length (requests (hook st)) = 1%nat.
Proof. repeat split. Qed.

End LiveFacts.

(* ===================================================================== *)
(** ** Further facts: recorder, artifact and streamed segments            *)
(* ===================================================================== *)

Section ArtifactFacts.
Import Recording AudioProcessing Transcript Pipeline Artifact.

Lemma feed_off (target : Q) (datas : list Blob) :
  forall r,
  feed false target datas r =
  ({| chunksRef := chunksRef r ++ delivered datas;
      segmentChunksRef := segmentChunksRef r;
      segmentElapsedMsRef := segmentElapsedMsRef r |}, []).
Proof.
  induction datas as [|d datas IH]; intros r.
  - cbn [feed delivered filter]. rewrite app_nil_r. destruct r; reflexivity.
  - cbn [feed]. unfold ondataavailable. unfold delivered. cbn [filter].
    destruct (0 <? size d).
    + rewrite IH. cbn [chunksRef segmentChunksRef segmentElapsedMsRef app].
      now rewrite <- app_assoc.
    + rewrite IH. reflexivity.
Qed.

(** X1: with [streamToServer] off, as the component passes it, no chunk
    sequence seals a segment, the segmenter's refs stay as they were, the
    [stop] event seals nothing either, and [chunksRef] gains the delivered
    chunks. *)
Theorem X1_streaming_off_seals_nothing (target : Q) (datas : list Blob)
  (r : Refs) :
  snd (feed false target datas r) = [] /\
  segmentChunksRef (fst (feed false target datas r)) = segmentChunksRef r /\
  segmentElapsedMsRef (fst (feed false target datas r)) = segmentElapsedMsRef r /\
  chunksRef (fst (feed false target datas r)) = chunksRef r ++ delivered datas /\
  onstop false (fst (feed false target datas r))
    = (fst (feed false target datas r), []).
Proof.
  rewrite feed_off. cbn [fst snd chunksRef segmentChunksRef segmentElapsedMsRef].
  repeat (split; [reflexivity|]). reflexivity.
Qed.

Lemma feed_chunksRef (b : bool) (target : Q) (datas : list Blob) :
  forall r, chunksRef (fst (feed b target datas r)) = chunksRef r ++ delivered datas.
Proof.
  induction datas as [|d datas IH]; intros r.
  - cbn [feed fst delivered filter]. now rewrite app_nil_r.
  - cbn [feed].
    destruct (ondataavailable b target d r) as [r1 s1] eqn:E1.
    specialize (IH r1).
    destruct (feed b target datas r1) as [r2 s2]. cbn [fst] in *.
    rewrite IH. unfold delivered. cbn [filter].
    unfold ondataavailable in E1.
    destruct (0 <? size d).
    + destruct b.
      * unfold onChunk in E1. cbn [chunksRef segmentChunksRef segmentElapsedMsRef] in E1.
        destruct (Qle_bool _ _); injection E1 as <- _;
          cbn [chunksRef]; now rewrite <- app_assoc.
      * injection E1 as <- _. cbn [chunksRef]. now rewrite <- app_assoc.
    + injection E1 as <- _. reflexivity.
Qed.

Lemma bytes_delivered (datas : list Blob) :
  concat (map bytes (delivered datas)) = concat (map bytes datas).
Proof.
  unfold delivered. induction datas as [|d datas IH]; [reflexivity|].
  cbn [filter map concat]. destruct (Z.ltb_spec 0 (size d)) as [H|H].
  - cbn [map concat]. now rewrite IH.
  - rewrite IH. unfold size in H.
    destruct (bytes d); [reflexivity|cbn [length] in H; lia].
Qed.

Lemma size_concat (blobs : list Blob) :
  Z.of_nat (length (concat (map bytes blobs))) = totalSize blobs.
Proof.
  induction blobs as [|b blobs IH]; [reflexivity|].
  cbn [map concat totalSize fold_right]. rewrite length_app.
  fold (totalSize blobs). rewrite <- IH. unfold size. lia.
Qed.

(** X2: whatever the segmenter does, the blob offered for download at the
    [stop] event holds the bytes of every [dataavailable] event, once and
    in order, and the reported file size is the sum of the events' sizes. *)
Theorem X2_download_holds_every_chunk (b : bool) (target : Q)
  (mimeType : string) (formatExtension : option string) (datas : list Blob) :
  bytes (downloadBlob mimeType (fst (feed b target datas initialRefs)))
    = concat (map bytes datas) /\
  fileSize (onstopState mimeType formatExtension
              (fst (feed b target datas initialRefs)))
    = totalSize datas /\
  chunksRef (fst (onstop b (fst (feed b target datas initialRefs))))
    = delivered datas.
Proof.
  assert (Hc : chunksRef (fst (feed b target datas initialRefs)) = delivered datas)
    by (rewrite feed_chunksRef; reflexivity).
  split; [|split].
  - unfold downloadBlob, new_Blob. cbn [bytes]. rewrite Hc. apply bytes_delivered.
  - unfold onstopState, downloadBlob, new_Blob, size. cbn [fileSize bytes].
    rewrite Hc, bytes_delivered. apply size_concat.
  - unfold onstop.
    destruct (b && _); cbn [fst chunksRef]; exact Hc.
Qed.

Lemma bounds_step (d : option Q) (r : Refs) (segs : list Segment) (data : Blob) :
  segmentElapsedMsRef r = Z.of_nat (length (segmentChunksRef r)) * timesliceMs ->
  underTarget (segmentTargetMs d) r ->
  Forall (spansTarget (segmentTargetMs d)) segs ->
  underTarget (segmentTargetMs d)
    (fst (ondataavailable true (segmentTargetMs d) data r)) /\
  Forall (spansTarget (segmentTargetMs d))
    (segs ++ snd (ondataavailable true (segmentTargetMs d) data r)).
Proof.
  intros Hel Hunder Hsegs. unfold ondataavailable.
  destruct (0 <? size data); [|cbn [fst snd]; now rewrite app_nil_r].
  rewrite onChunk_counts by exact Hel.
  cbn [segmentChunksRef chunksRef].
  set (buffered := segmentChunksRef r ++ [data]).
  assert (Hlen : length buffered = S (length (segmentChunksRef r)))
    by (unfold buffered; rewrite length_app; cbn [length]; lia).
  destruct (Qle_bool _ _) eqn:Hq; cbn [fst snd].
  - pose proof (seal_needs_overlap d _ Hq) as Hfour.
    apply Qle_bool_iff in Hq. split.
    + right. cbn [segmentChunksRef]. rewrite length_slice_neg. lia.
    + apply Forall_app. split; [exact Hsegs|]. constructor; [|constructor].
      split; [exact Hq|]. destruct Hunder as [Hlt|Heq].
      * left. rewrite Hlen.
        replace (Z.of_nat (S (length (segmentChunksRef r))) - 1)
          with (Z.of_nat (length (segmentChunksRef r))) by lia.
        exact Hlt.
      * right. rewrite Hlen, Heq. reflexivity.
  - apply Qle_bool_false in Hq. split.
    + left. cbn [segmentChunksRef]. exact Hq.
    + now rewrite app_nil_r.
Qed.

Lemma recording_bounds (d : option Q) (datas : list Blob) :
  underTarget (segmentTargetMs d) (fst (recording d datas)) /\
  Forall (spansTarget (segmentTargetMs d)) (snd (recording d datas)).
Proof.
  induction datas as [|data datas IH] using rev_ind.
  - split; [|constructor]. left. cbn.
    eapply Qlt_le_trans; [|apply segmentTargetMs_ge]. reflexivity.
  - pose proof (inv_elapsed _ _ _ (Inv_recording d datas)) as Hel.
    destruct IH as [Hunder Hsegs].
    pose proof (bounds_step d _ _ data Hel Hunder Hsegs) as Hstep.
    unfold recording in *. rewrite feed_snoc.
    destruct (feed true (segmentTargetMs d) datas initialRefs) as [r1 s1].
    cbn [fst snd] in *.
    destruct (ondataavailable true (segmentTargetMs d) data r1) as [r2 s2].
    exact Hstep.
Qed.

(** X3: every segment sealed while the recorder runs spans at least the
    target duration, and it either was short of the target one chunk
    earlier or consists of the carried-over overlap and one new chunk; the
    buffer left behind is under the target or exactly the overlap. *)
Theorem X3_sealed_segments_span_the_target (d : option Q) (datas : list Blob) :
  Forall (spansTarget (segmentTargetMs d)) (sealedSegments d datas false) /\
  underTarget (segmentTargetMs d) (fst (recording d datas)) /\
  Forall (fun seg => (overlapCount <= length seg)%nat) (sealedSegments d datas false).
Proof.
  destruct (recording_bounds d datas) as [Hunder Hsegs].
  split; [exact Hsegs|]. split; [exact Hunder|].
  apply (inv_long _ _ _ (Inv_recording d datas)).
Qed.

Lemma ondataavailable_keeps_nonempty (target : Q) (data : Blob) (r : Refs) :
  Forall (fun c => 0 < size c) (segmentChunksRef r) ->
  Forall (fun c => 0 < size c)
    (segmentChunksRef (fst (ondataavailable true target data r))) /\
  Forall (fun seg => seg <> [] /\ Forall (fun c => 0 < size c) seg)
    (snd (ondataavailable true target data r)).
Proof.
  intros Hbuf. unfold ondataavailable.
  destruct (Z.ltb_spec 0 (size data)) as [Hpos|Hz]; [|cbn [fst snd]; auto].
  unfold onChunk. cbn [segmentChunksRef segmentElapsedMsRef chunksRef].
  assert (Hall : Forall (fun c => 0 < size c) (segmentChunksRef r ++ [data])).
  { apply Forall_app. split; [exact Hbuf|]. constructor; [exact Hpos|constructor]. }
  destruct (Qle_bool _ _); cbn [fst snd segmentChunksRef].
  - split.
    + destruct (0 <? _)%nat; [|constructor].
      unfold slice_neg. apply Forall_skipn_keep. exact Hall.
    + constructor; [|constructor]. split; [|exact Hall].
      destruct (segmentChunksRef r); discriminate.
  - split; [exact Hall|constructor].
Qed.

Lemma feed_keeps_nonempty (target : Q) (datas : list Blob) :
  forall r,
  Forall (fun c => 0 < size c) (segmentChunksRef r) ->
  Forall (fun c => 0 < size c) (segmentChunksRef (fst (feed true target datas r))) /\
  Forall (fun seg => seg <> [] /\ Forall (fun c => 0 < size c) seg)
    (snd (feed true target datas r)).
Proof.
  induction datas as [|d datas IH]; intros r Hbuf; [cbn [feed fst snd]; auto|].
  cbn [feed].
  destruct (ondataavailable_keeps_nonempty target d r Hbuf) as [H1 H2].
  destruct (ondataavailable true target d r) as [r1 s1]. cbn [fst snd] in *.
  destruct (IH r1 H1) as [H3 H4].
  destruct (feed true target datas r1) as [r2 s2]. cbn [fst snd] in *.
  split; [exact H3|]. apply Forall_app. split; assumption.
Qed.

Lemma sealedSegments_nonempty (d : option Q) (datas : list Blob) (stopped : bool) :
  Forall (fun seg => seg <> [] /\ Forall (fun c => 0 < size c) seg)
    (sealedSegments d datas stopped).
Proof.
  destruct (feed_keeps_nonempty (segmentTargetMs d) datas initialRefs
              (Forall_nil _)) as [Hbuf Hsegs].
  unfold sealedSegments, session, recording in *.
  destruct (feed true (segmentTargetMs d) datas initialRefs) as [r segs].
  cbn [fst snd] in *. destruct stopped; [|exact Hsegs].
  unfold onstop. cbn [andb].
  destruct (segmentChunksRef r) as [|c buf] eqn:E; cbn [length Nat.ltb Nat.leb snd].
  - now rewrite app_nil_r.
  - apply Forall_app. split; [exact Hsegs|].
    constructor; [|constructor]. split; [discriminate|exact Hbuf].
Qed.

Lemma size_segBlob (mimeType : string) (seg : Segment) :
  seg <> [] -> Forall (fun c => 0 < size c) seg -> 0 < size (segBlob mimeType seg).
Proof.
  intros Hne Hall. unfold segBlob, new_Blob.
  change (0 < Z.of_nat (length (concat (map bytes seg)))).
  rewrite size_concat. destruct Hall as [|c seg Hc Hall]; [congruence|].
  cbn [totalSize fold_right]. fold (totalSize seg).
  assert (0 <= totalSize seg) by (rewrite <- size_concat; lia). lia.
Qed.

End ArtifactFacts.

(* ===================================================================== *)
(** ** Further facts: quantisation and the WAV encoder                    *)
(* ===================================================================== *)

Section EncoderFacts.
Import AudioProcessing.

(** X5: quantisation keeps the order of samples: a sample that is not
    larger is never written as a larger 16-bit value. *)
Theorem X5_quantization_is_monotone (p q : Q) :
  (p <= q)%Q ->
  ToInt16 (scaled (Finite p)) <= ToInt16 (scaled (Finite q)).
Proof.
  intros Hpq.
  pose proof (ToInt16_range (scaled (Finite p))) as Rp.
  pose proof (ToInt16_range (scaled (Finite q))) as Rq.
  rewrite !ToInt16_scaled_finite in *.
  destruct (Qle_bool 1 q) eqn:Hq1; [lia|].
  destruct (Qle_bool 1 p) eqn:Hp1.
  { apply Qle_bool_iff in Hp1. apply Qle_bool_false in Hq1.
    exfalso. apply (Qlt_irrefl 1). eapply Qle_lt_trans; [|exact Hq1].
    eapply Qle_trans; eassumption. }
  destruct (Qle_bool p (-1)) eqn:Hpm; [destruct (Qle_bool q (-1)); lia|].
  destruct (Qle_bool q (-1)) eqn:Hqm.
  { apply Qle_bool_iff in Hqm. apply Qle_bool_false in Hpm.
    exfalso. apply (Qlt_irrefl (-1)). eapply Qlt_le_trans; [exact Hpm|].
    eapply Qle_trans; eassumption. }
  destruct (Qle_bool 0 p) eqn:Hp0; destruct (Qle_bool 0 q) eqn:Hq0.
  - apply Qfloor_resp_le. apply Qmult_le_compat_r; [exact Hpq|discriminate].
  - apply Qle_bool_iff in Hp0. apply Qle_bool_false in Hq0.
    exfalso. apply (Qlt_irrefl 0). eapply Qle_lt_trans; [|exact Hq0].
    eapply Qle_trans; eassumption.
  - apply Qle_bool_false in Hp0. apply Qle_bool_iff in Hq0.
    apply Z.le_trans with 0.
    + change 0 with (Qceiling 0). apply Qceiling_resp_le.
      setoid_replace 0%Q with (0 * 32768)%Q by (symmetry; apply Qmult_0_l).
      apply Qmult_le_compat_r; [apply Qlt_le_weak; exact Hp0|discriminate].
    + change 0 with (Qfloor 0). apply Qfloor_resp_le.
      apply Qmult_le_0_compat; [exact Hq0|discriminate].
  - apply Qceiling_resp_le. apply Qmult_le_compat_r; [exact Hpq|discriminate].
Qed.

(** X5 on the samples 1/4 and 1/2. *)
Lemma X5_quantization_is_monotone_witness :
  ToInt16 (scaled (Finite (1 # 4))) <= ToInt16 (scaled (Finite (1 # 2))).
Proof.
  apply (X5_quantization_is_monotone (1 # 4) (1 # 2)).
  discriminate.
Defined.

(** X6: a 16-bit sample v, decoded as the float v/32768 and quantised
    again, comes back unchanged when it is zero or negative and one lower
    when it is positive: the positive half is scaled by 32767, not 32768. *)
Theorem X6_requantizing_a_decoded_sample (v : Z) :
  (-32768 <= v <= 0 -> ToInt16 (scaled (Finite (v # 32768))) = v) /\
  (1 <= v <= 32767 -> ToInt16 (scaled (Finite (v # 32768))) = v - 1).
Proof.
  split; intros Hv; rewrite ToInt16_scaled_finite.
  - destruct (Qle_bool 1 (v # 32768)) eqn:H1.
    { apply Qle_bool_iff in H1. unfold Qle in H1. cbn in H1. lia. }
    destruct (Qle_bool (v # 32768) (-1)) eqn:H2.
    { apply Qle_bool_iff in H2. unfold Qle in H2. cbn in H2. lia. }
    destruct (Qle_bool 0 (v # 32768)) eqn:H0.
    + apply Qle_bool_iff in H0. unfold Qle in H0. cbn in H0.
      assert (v = 0) by lia. subst v. reflexivity.
    + assert (Hm : ((v # 32768) * 32768 == inject_Z v)%Q).
      { unfold Qeq. cbn. lia. }
      rewrite (Qceiling_comp _ _ Hm). apply Qceiling_Z.
  - destruct (Qle_bool 1 (v # 32768)) eqn:H1.
    { apply Qle_bool_iff in H1. unfold Qle in H1. cbn in H1. lia. }
    destruct (Qle_bool (v # 32768) (-1)) eqn:H2.
    { apply Qle_bool_iff in H2. unfold Qle in H2. cbn in H2. lia. }
    assert (H0 : Qle_bool 0 (v # 32768) = true).
    { apply Qle_bool_iff. unfold Qle. cbn. lia. }
    rewrite H0. unfold Qfloor, Qmult. cbn [Qnum Qden].
    change (Z.pos (32768 * 1)) with 32768.
    symmetry. apply (Z.div_unique (v * 32767) 32768 (v - 1) (32768 - v)); lia.
Qed.

(** X6 on the samples -12345 and 12345. *)
Lemma X6_requantizing_witness :
  ToInt16 (scaled (Finite (-12345 # 32768))) = -12345 /\
  ToInt16 (scaled (Finite (12345 # 32768))) = 12345 - 1.
Proof.
  split.
  - apply (proj1 (X6_requantizing_a_decoded_sample (-12345))). lia.
  - apply (proj2 (X6_requantizing_a_decoded_sample 12345)). lia.
Defined.

Lemma wavHeader_layout (rate : Number) (byteLength : nat) (rest : list byte) :
  firstn 4 (wavHeader rate byteLength ++ rest) = list_byte_of_string "RIFF" /\
  firstn 8 (skipn 8 (wavHeader rate byteLength ++ rest))
    = list_byte_of_string "WAVEfmt " /\
  firstn 4 (skipn 36 (wavHeader rate byteLength ++ rest))
    = list_byte_of_string "data" /\
  getUint (wavHeader rate byteLength ++ rest) 4 4
    = ToUint32 (numberOfNat (36 + byteLength)) /\
  getUint (wavHeader rate byteLength ++ rest) 16 4 = 16 /\
  getUint (wavHeader rate byteLength ++ rest) 20 2 = 1 /\
  getUint (wavHeader rate byteLength ++ rest) 28 4 = ToUint32 (times rate 2) /\
  getUint (wavHeader rate byteLength ++ rest) 32 2 = 2.
Proof.
  split; [reflexivity|]. split; [reflexivity|]. split; [reflexivity|].
  unfold wavHeader. repeat rewrite <- app_assoc.
  split; [|split; [|split; [|split]]].
  - do 1 (erewrite getUint_skip by reflexivity).
    rewrite getUint_here by reflexivity.
    rewrite uintOfBytes_int32. apply ToUint32_idem.
  - do 4 (erewrite getUint_skip by reflexivity).
    rewrite getUint_here by reflexivity. reflexivity.
  - do 5 (erewrite getUint_skip by reflexivity).
    rewrite getUint_here by reflexivity. reflexivity.
  - do 8 (erewrite getUint_skip by reflexivity).
    rewrite getUint_here by reflexivity.
    rewrite uintOfBytes_int32. apply ToUint32_idem.
  - do 9 (erewrite getUint_skip by reflexivity).
    rewrite getUint_here by reflexivity. reflexivity.
Qed.

Lemma encodeWavBuffer_none (b : AudioBuffer) :
  encodeWavBuffer b = None <-> channels b = [].
Proof.
  split.
  - intros H. destruct (getChannelData b 0) as [samples|] eqn:Hc.
    + rewrite (encodeWavBuffer_bytes b samples Hc) in H. discriminate.
    + unfold getChannelData in Hc. destruct (channels b); [reflexivity|discriminate].
  - intros H. unfold encodeWavBuffer, getChannelData. now rewrite H.
Qed.

(** X7: [encodeWavBuffer] throws only for a buffer without channels;
    otherwise it returns 44 + 2 n bytes for the n frames of channel 0, with
    the tags RIFF, WAVE, fmt and data in place, format 1 (PCM), one channel,
    block align 2, 16 bits, and, for a file under 2^32 bytes, a RIFF size of
    the file length less 8 and a data size of the file length less 44. *)
Theorem X7_encodeWavBuffer_layout (b : AudioBuffer) :
  (encodeWavBuffer b = None <-> channels b = []) /\
  (forall out, encodeWavBuffer b = Some out ->
     exists samples,
       getChannelData b 0 = Some samples /\
       length out = (44 + 2 * length samples)%nat /\
       firstn 4 out = list_byte_of_string "RIFF" /\
       firstn 8 (skipn 8 out) = list_byte_of_string "WAVEfmt " /\
       firstn 4 (skipn 36 out) = list_byte_of_string "data" /\
       getUint out 16 4 = 16 /\
       getUint out 20 2 = 1 /\
       getUint out 22 2 = 1 /\
       getUint out 32 2 = 2 /\
       getUint out 34 2 = 16 /\
       (Z.of_nat (length out) < 4294967296 ->
        getUint out 4 4 = Z.of_nat (length out) - 8 /\
        getUint out 40 4 = Z.of_nat (length out) - 44)).
Proof.
  split; [apply encodeWavBuffer_none|].
  intros out Hout.
  destruct (getChannelData b 0) as [samples|] eqn:Hc.
  2:{ unfold encodeWavBuffer in Hout. rewrite Hc in Hout. discriminate. }
  rewrite (encodeWavBuffer_bytes b samples Hc) in Hout.
  assert (Heq : out = wavHeader (sampleRate b) (length samples * 2)
                        ++ pcmBytes samples) by congruence.
  clear Hout. subst out.
  exists samples.
  destruct (wavHeader_layout (sampleRate b) (length samples * 2) (pcmBytes samples))
    as [Hriff [Hwave [Hdata [Hsize [Hfmt [Hpcm [_ Halign]]]]]]].
  destruct (wavHeader_fields (sampleRate b) (length samples * 2) (pcmBytes samples))
    as [Hch [_ [Hbits Hlen]]].
  assert (Hl : length (wavHeader (sampleRate b) (length samples * 2)
                         ++ pcmBytes samples) = (44 + 2 * length samples)%nat)
    by (rewrite length_app, length_wavHeader, length_pcmBytes; reflexivity).
  split; [reflexivity|]. split; [exact Hl|].
  split; [exact Hriff|]. split; [exact Hwave|]. split; [exact Hdata|].
  split; [exact Hfmt|]. split; [exact Hpcm|]. split; [exact Hch|].
  split; [exact Halign|]. split; [exact Hbits|].
  intros Hsmall. rewrite Hl in Hsmall. rewrite Hl, Hsize, Hlen.
  rewrite !ToUint32_numberOfNat by lia. lia.
Qed.

(** X7 on two stereo frames. *)
Lemma X7_encodeWavBuffer_layout_witness :
  exists samples,
    getChannelData EncoderExamples.stereoBuffer 0 = Some samples /\
    length (EncoderExamples.encoded EncoderExamples.stereoBuffer)
      = (44 + 2 * length samples)%nat.
Proof.
  destruct (proj2 (X7_encodeWavBuffer_layout EncoderExamples.stereoBuffer)
              (EncoderExamples.encoded EncoderExamples.stereoBuffer) eq_refl)
    as [samples [Hc [Hl _]]].
  exists samples. split; assumption.
Defined.

(** X8: the file [encodeWavBuffer] returns can be read back: the signed
    little-endian 16-bit integer at byte 44 + 2 i is the quantised frame i
    of channel 0, and the other channels of the buffer have no part in the
    result. *)
Theorem X8_encoded_samples_read_back (b : AudioBuffer) (samples : list Number) :
  getChannelData b 0 = Some samples ->
  exists out,
    encodeWavBuffer b = Some out /\
    (forall i, (i < length samples)%nat ->
       getInt16 out (44 + 2 * i) = ToInt16 (scaled (nth i samples NaN))) /\
    encodeWavBuffer {| sampleRate := sampleRate b; channels := [samples] |}
      = Some out.
Proof.
  intros Hc. eexists. split; [apply (encodeWavBuffer_bytes b samples Hc)|]. split.
  - intros i Hi.
    rewrite <- (length_wavHeader (sampleRate b) (length samples * 2)) at 1.
    rewrite <- (app_nil_r (pcmBytes samples)).
    apply getInt16_pcmBytes. exact Hi.
  - apply (encodeWavBuffer_bytes
             {| sampleRate := sampleRate b; channels := [samples] |} samples).
    reflexivity.
Qed.

(** X8 on two stereo frames: the samples 1/2 and -1 of the left channel. *)
Lemma X8_encoded_samples_witness :
  exists out,
    encodeWavBuffer EncoderExamples.stereoBuffer = Some out /\
    (forall i, (i < 2)%nat ->
       getInt16 out (44 + 2 * i)
       = ToInt16 (scaled (nth i [Finite (1 # 2); Finite (-1)] NaN))) /\
    encodeWavBuffer {| sampleRate := Finite 48000;
                       channels := [[Finite (1 # 2); Finite (-1)]] |}
      = Some out.
Proof.
  apply (X8_encoded_samples_read_back EncoderExamples.stereoBuffer
           [Finite (1 # 2); Finite (-1)]).
  reflexivity.
Defined.

(** X9: [mixToMono] always returns a buffer of exactly one channel, with
    the sample rate and the number of frames of its input; a mono input is
    returned as it is, so mixing twice is mixing once. *)
Theorem X9_mixToMono_shape (P : Platform) (b : AudioBuffer) :
  numberOfChannels (mixToMono P b) = 1%nat /\
  sampleRate (mixToMono P b) = sampleRate b /\
  frames (mixToMono P b) = frames b /\
  (numberOfChannels b = 1%nat -> mixToMono P b = b) /\
  mixToMono P (mixToMono P b) = mixToMono P b.
Proof.
  assert (Hshape : numberOfChannels (mixToMono P b) = 1%nat).
  { unfold mixToMono.
    destruct (Nat.eqb_spec (numberOfChannels b) 1) as [H1|H1]; [exact H1|reflexivity]. }
  split; [exact Hshape|].
  split; [unfold mixToMono; destruct (numberOfChannels b =? 1)%nat; reflexivity|].
  split.
  - unfold mixToMono. destruct (numberOfChannels b =? 1)%nat; [reflexivity|].
    unfold frames at 1. cbn [channels nth]. now rewrite length_map, length_seq.
  - split.
    + intros H1. unfold mixToMono. now rewrite H1.
    + unfold mixToMono at 1. now rewrite Hshape.
Qed.

(** X9 on a mono buffer of one frame. *)
Lemma X9_mixToMono_witness :
  mixToMono toyPlatform
    {| sampleRate := Finite 16000; channels := [[Finite 0]] |}
  = {| sampleRate := Finite 16000; channels := [[Finite 0]] |}.
Proof.
  apply (proj1 (proj2 (proj2 (proj2
           (X9_mixToMono_shape toyPlatform
              {| sampleRate := Finite 16000; channels := [[Finite 0]] |}))))).
  reflexivity.
Defined.

(** X10: called with an explicit rate r (a whole number with 2 r under
    2^32), [ensureWavBlob] on a blob that is no WAV declares that rate, a
    byte rate of 2 r, one channel and 16 bits per sample, whatever the
    decoder and the renderer return. *)
Theorem X10_ensureWavBlob_declares_the_requested_rate
  (P : Platform) (blob out : Blob) (r : Z) :
  0 <= r -> 2 * r < 4294967296 ->
  reportsWav blob = false ->
  ensureWavBlob P blob (Some (Finite (inject_Z r))) = Some out ->
  declaredSampleRate out = r /\
  getUint (bytes out) 28 4 = 2 * r /\
  declaredChannels out = 1 /\
  declaredBitsPerSample out = 16 /\
  type out = "audio/wav"%string.
Proof.
  intros Hr0 Hr1 Hnot Hout.
  destruct (ensureWavBlob_converted P blob out _ Hnot Hout) as [samples ->].
  unfold declaredSampleRate, declaredChannels, declaredBitsPerSample.
  cbn [bytes type].
  destruct (wavHeader_fields (Finite (inject_Z r)) (length samples * 2) (pcmBytes samples))
    as [Hch [Hrate [Hbits _]]].
  destruct (wavHeader_layout (Finite (inject_Z r)) (length samples * 2) (pcmBytes samples))
    as [_ [_ [_ [_ [_ [_ [Hbr _]]]]]]].
  assert (Hpos : forall z, 0 <= z -> z < 4294967296 ->
                 ToUint32 (Finite (inject_Z z)) = z).
  { intros z Hz0 Hz1. unfold ToUint32, ToIntegerOrZero.
    assert (H0 : Qle_bool 0 (inject_Z z) = true).
    { apply Qle_bool_iff. change 0%Q with (inject_Z 0). rewrite <- Zle_Qle. lia. }
    rewrite H0, Qfloor_Z. apply Z.mod_small. lia. }
  split; [rewrite Hrate; apply Hpos; lia|].
  split.
  - rewrite Hbr. cbn [times]. rewrite <- inject_Z_mult.
    rewrite Hpos by lia. lia.
  - split; [exact Hch|]. split; [exact Hbits|reflexivity].
Qed.

(** X10 on a WebM chunk converted at 8000 Hz by the toy platform. *)
Lemma X10_requested_rate_witness :
  declaredSampleRate (EncoderExamples.convertedAt toyPlatform 8000 webmChunk) = 8000 /\
  getUint (bytes (EncoderExamples.convertedAt toyPlatform 8000 webmChunk)) 28 4 = 2 * 8000 /\
  declaredChannels (EncoderExamples.convertedAt toyPlatform 8000 webmChunk) = 1 /\
  declaredBitsPerSample (EncoderExamples.convertedAt toyPlatform 8000 webmChunk) = 16 /\
  type (EncoderExamples.convertedAt toyPlatform 8000 webmChunk) = "audio/wav"%string.
Proof.
  apply (X10_ensureWavBlob_declares_the_requested_rate toyPlatform webmChunk
           (EncoderExamples.convertedAt toyPlatform 8000 webmChunk) 8000).
  - lia.
  - lia.
  - reflexivity.
  - vm_compute. reflexivity.
Defined.

Lemma forEach_setUint8_splice (bs : list byte) :
  forall (view : DataView) (offset : nat),
  (offset + length bs <= length view)%nat ->
  forEach_setUint8 view offset bs =
  Some (firstn offset view ++ bs ++ skipn (offset + length bs) view).
Proof.
  induction bs as [|x bs IH]; intros view offset Hfit.
  - cbn [forEach_setUint8 length app]. rewrite Nat.add_0_r.
    now rewrite firstn_skipn.
  - cbn [forEach_setUint8 length] in *. unfold setUint8.
    rewrite setBytes_ok by (cbn [length]; lia).
    rewrite byte_of_Z_of_byte. cbn [length].
    rewrite IH by (rewrite !length_app, length_firstn, length_skipn; cbn [length]; lia).
    f_equal.
    pose proof (overwrite_firstn view offset [x]) as Hf.
    pose proof (overwrite_skipn view offset (length bs) [x]) as Hs.
    cbn [length] in Hf, Hs.
    replace (S offset) with (offset + 1)%nat by lia.
    rewrite Hf, Hs by lia.
    rewrite <- app_assoc. cbn [app]. do 3 f_equal.
    replace (offset + 1 + length bs)%nat with (offset + S (length bs))%nat by lia.
    reflexivity.
Qed.

Lemma forEach_setUint8_overflow (bs : list byte) :
  forall (view : DataView) (offset : nat),
  bs <> [] ->
  (length view < offset + length bs)%nat ->
  forEach_setUint8 view offset bs = None.
Proof.
  induction bs as [|x bs IH]; intros view offset Hne Hover; [congruence|].
  cbn [forEach_setUint8 length] in *. unfold setUint8, setBytes. cbn [length].
  destruct (Nat.leb_spec (offset + 1) (length view)) as [Hfit|Hout]; [|reflexivity].
  destruct bs as [|y bs]; [cbn [length] in Hover; lia|].
  apply IH; [discriminate|].
  rewrite !length_app, length_firstn, length_skipn. cbn [length] in *. lia.
Qed.

(** X11: [writeString] writes the bytes of the string at the offset and
    leaves every other byte and the length of the buffer as they were; when
    the string does not fit behind the offset it throws, and an empty
    string writes nothing wherever the offset is. *)
Theorem X11_writeString_stays_in_bounds (view : DataView) (offset : nat)
  (str : string) :
  ((offset + length (list_byte_of_string str) <= length view)%nat ->
   writeString view offset str =
   Some (firstn offset view ++ list_byte_of_string str
           ++ skipn (offset + length (list_byte_of_string str)) view)) /\
  (str <> EmptyString ->
   (length view < offset + length (list_byte_of_string str))%nat ->
   writeString view offset str = None) /\
  writeString view offset EmptyString = Some view /\
  (forall view', writeString view offset str = Some view' ->
   length view' = length view).
Proof.
  assert (Hne : str <> EmptyString -> list_byte_of_string str <> []).
  { destruct str; [congruence|]. intros _. discriminate. }
  split; [intros Hfit; apply forEach_setUint8_splice; exact Hfit|].
  split; [intros Hs Hover; apply forEach_setUint8_overflow; auto|].
  split; [reflexivity|].
  intros view' Hw.
  destruct (Nat.le_gt_cases (offset + length (list_byte_of_string str)) (length view))
    as [Hfit|Hover].
  - unfold writeString in Hw. rewrite forEach_setUint8_splice in Hw by exact Hfit.
    assert (Heq : view' = firstn offset view ++ list_byte_of_string str
                    ++ skipn (offset + length (list_byte_of_string str)) view)
      by congruence.
    rewrite Heq, !length_app, length_firstn, length_skipn. lia.
  - destruct str as [|c str].
    + cbn in Hw. congruence.
    + unfold writeString in Hw.
      rewrite forEach_setUint8_overflow in Hw; [discriminate|discriminate|exact Hover].
Qed.

(** X11 on the tag WAVE written at offset 8 of a 12-byte buffer. *)
Lemma X11_writeString_witness :
  writeString (new_ArrayBuffer 12) 8 "WAVE" =
  Some (firstn 8 (new_ArrayBuffer 12) ++ list_byte_of_string "WAVE"
          ++ skipn (8 + length (list_byte_of_string "WAVE")) (new_ArrayBuffer 12)).
Proof.
  apply (proj1 (X11_writeString_stays_in_bounds (new_ArrayBuffer 12) 8 "WAVE")).
  simpl. lia.
Defined.

End EncoderFacts.

(* ===================================================================== *)
(** ** Further facts: the upload path                                     *)
(* ===================================================================== *)

Section UploadFacts.
Import AudioProcessing Transcript Pipeline.

(** X12: a non-empty chunk that does not report WAV and that the platform
    converts is uploaded as the converted blob: one request, named with the
    extension wav, whose file is typed [audio/wav] and declares one channel,
    16000 Hz and 16 bits per sample.  A chunk that reports WAV is uploaded
    as it is, also under the extension wav. *)
Theorem X12_converted_chunk_is_uploaded_as_canonical_wav :
  (forall (P : Platform) (fetch : nat -> Blob -> FetchOutcome)
          (chunk out : Blob) (st : HookState),
     0 < size chunk ->
     includes "wav" (type chunk) = false ->
     ensureWavBlob P chunk None = Some out ->
     requests (sendChunkToTranscription P fetch chunk st)
       = requests st ++ [{| file := out; extension := "wav" |}] /\
     type out = "audio/wav"%string /\
     declaredChannels out = 1 /\
     declaredSampleRate out = 16000 /\
     declaredBitsPerSample out = 16) /\
  (forall (P : Platform) (fetch : nat -> Blob -> FetchOutcome)
          (chunk : Blob) (st : HookState),
     0 < size chunk ->
     includes "wav" (type chunk) = true ->
     requests (sendChunkToTranscription P fetch chunk st)
       = requests st ++ [{| file := chunk; extension := "wav" |}]).
Proof.
  split.
  - intros P fetch chunk out st Hsize Hnot Hout.
    assert (Hrep : reportsWav chunk = false).
    { unfold reportsWav. rewrite Hnot. apply andb_false_r. }
    destruct (ensureWavBlob_converted P chunk out None Hrep Hout) as [samples Heq].
    assert (Hnz : (size chunk =? 0) = false) by (apply Z.eqb_neq; lia).
    split.
    + rewrite sendChunkToTranscription_requests, Hnz.
      unfold payloadFor. rewrite Hnot, Hout. cbn [negb].
      rewrite transcribeBlob_request. rewrite Heq. reflexivity.
    + rewrite Heq. cbn [type].
      destruct (wavHeader_fields TARGET_SAMPLE_RATE (length samples * 2)
                  (pcmBytes samples)) as [Hch [Hrate [Hbits _]]].
      split; [reflexivity|]. split; [exact Hch|].
      split; [unfold declaredSampleRate; cbn [bytes]; rewrite Hrate; reflexivity|].
      exact Hbits.
  - intros P fetch chunk st Hsize Hwav.
    assert (Hnz : (size chunk =? 0) = false) by (apply Z.eqb_neq; lia).
    rewrite sendChunkToTranscription_requests, Hnz.
    unfold payloadFor. rewrite Hwav. cbn [negb].
    rewrite transcribeBlob_request. unfold inferExtensionFromMime.
    rewrite Hwav.
    destruct (String.eqb_spec (type chunk) "") as [He|He]; [|reflexivity].
    rewrite He in Hwav. discriminate.
Qed.

(** X12 on a WebM chunk converted by the toy platform. *)
Lemma X12_converted_chunk_witness :
  requests (sendChunkToTranscription toyPlatform silentServer webmChunk
              initialHookState)
  = requests initialHookState
      ++ [{| file := convertedOr toyPlatform webmChunk; extension := "wav" |}].
Proof.
  apply (proj1 (proj1 X12_converted_chunk_is_uploaded_as_canonical_wav
                  toyPlatform silentServer webmChunk
                  (convertedOr toyPlatform webmChunk) initialHookState
                  eq_refl eq_refl eq_refl)).
Defined.

Lemma sendChunk_subtitles (P : Platform) (fetch : nat -> Blob -> FetchOutcome)
  (chunk : Blob) (st : HookState) :
  subtitles (sendChunkToTranscription P fetch chunk st) = subtitles st \/
  exists r, subtitles (sendChunkToTranscription P fetch chunk st)
            = onTranscription r (subtitles st).
Proof.
  unfold sendChunkToTranscription.
  destruct (size chunk =? 0); [left; reflexivity|].
  destruct (transcribeBlob fetch _ _) as [request [e|response]]; cbn [subtitles].
  - left. reflexivity.
  - right. exists response. reflexivity.
Qed.

(** X13: the subtitles the upload path keeps stay well formed whatever the
    server answers: after any sequence of segments, resolved or rejected,
    there are at most 200 lines, each non-empty and normalised, and no two
    neighbouring lines are equal. *)
Theorem X13_uploads_keep_the_subtitles_well_formed
  (P : Platform) (fetch : nat -> Blob -> FetchOutcome)
  (segments : list Blob) (st : HookState) :
  wellFormed (subtitles st) ->
  wellFormed (subtitles (sendAll P fetch segments st)).
Proof.
  revert st. induction segments as [|seg segments IH]; intros st Hwf; [exact Hwf|].
  unfold sendAll in *. cbn [fold_left]. apply IH.
  destruct (sendChunk_subtitles P fetch seg st) as [Heq|[r Heq]]; rewrite Heq.
  - exact Hwf.
  - apply onTranscription_wellFormed. exact Hwf.
Qed.

(** X13 on two chunks sent while the subtitles hold a line: the server's
    two texts are merged, the first after normalisation. *)
Lemma X13_subtitles_witness :
  subtitles (sendAll deafPlatform Artifact.talkingServer [webmChunk; stereoWav]
               {| error := None; requests := [];
                  subtitles := [ofString "old line"] |})
  = [ofString "old line"; ofString "hello world"; ofString "again"] /\
  wellFormed (subtitles (sendAll deafPlatform Artifact.talkingServer
                           [webmChunk; stereoWav]
                           {| error := None; requests := [];
                              subtitles := [ofString "old line"] |})).
Proof.
  split; [vm_compute; reflexivity|].
  apply (X13_uploads_keep_the_subtitles_well_formed deafPlatform Artifact.talkingServer
           [webmChunk; stereoWav]
           {| error := None; requests := [];
              subtitles := [ofString "old line"] |}).
  split; [cbn [subtitles length]; unfold maxLines; lia|].
  split; [cbn [subtitles noAdjacentEqual]; auto|].
  constructor; [|constructor]. split; [discriminate|reflexivity].
Defined.

Lemma sendChunk_monotone (P : Platform) (fetch : nat -> Blob -> FetchOutcome)
  (chunk : Blob) (st : HookState) :
  (exists more, requests (sendChunkToTranscription P fetch chunk st)
                = requests st ++ more) /\
  (error st <> None -> error (sendChunkToTranscription P fetch chunk st) <> None).
Proof.
  unfold sendChunkToTranscription.
  destruct (size chunk =? 0).
  - split; [exists []; now rewrite app_nil_r|auto].
  - destruct (transcribeBlob fetch _ _) as [request [e|response]];
      cbn [requests error]; (split; [eexists; reflexivity|]); auto; discriminate.
Qed.

(** X14: the upload path never drops or reorders a request already sent and
    never clears an error: after any sequence of segments the earlier
    requests are a prefix of the requests, and an error that was set is
    still set (a later failure may replace it, a success leaves it). *)
Theorem X14_requests_only_grow_and_errors_stay
  (P : Platform) (fetch : nat -> Blob -> FetchOutcome)
  (segments : list Blob) (st : HookState) :
  (exists more, requests (sendAll P fetch segments st) = requests st ++ more) /\
  (error st <> None -> error (sendAll P fetch segments st) <> None).
Proof.
  revert st. induction segments as [|seg segments IH]; intros st.
  - split; [exists []; cbn; now rewrite app_nil_r|auto].
  - unfold sendAll in *. cbn [fold_left].
    destruct (sendChunk_monotone P fetch seg st) as [[m1 H1] E1].
    destruct (IH (sendChunkToTranscription P fetch seg st)) as [[m2 H2] E2].
    split.
    + exists (m1 ++ m2). rewrite H2, H1. now rewrite app_assoc.
    + intros He. apply E2, E1, He.
Qed.

(** X14 on one chunk uploaded while an error is shown. *)
Lemma X14_errors_stay_witness :
  error (sendAll toyPlatform silentServer [webmChunk]
           {| error := Some NoStreamForLive; requests := []; subtitles := [] |})
  <> None.
Proof.
  apply (proj2 (X14_requests_only_grow_and_errors_stay toyPlatform silentServer
                  [webmChunk]
                  {| error := Some NoStreamForLive; requests := [];
                     subtitles := [] |})).
  discriminate.
Defined.

(** X15: the extension of the uploaded file name is always one of wav,
    webm, m4a and mp3; a type that contains wav gets wav whatever else it
    contains, and a type with none of the four keywords, like the empty
    type, falls back to webm. *)
Theorem X15_upload_extension (fetch : nat -> Blob -> FetchOutcome) (n : nat)
  (blob : Blob) :
  let ext := extension (fst (transcribeBlob fetch n blob)) in
  (ext = "wav" \/ ext = "webm" \/ ext = "m4a" \/ ext = "mp3")%string /\
  (includes "wav" (type blob) = true -> ext = "wav"%string) /\
  (includes "wav" (type blob) = false ->
   includes "webm" (type blob) = false ->
   includes "mp4" (type blob) = false ->
   includes "mpeg" (type blob) = false ->
   inferExtensionFromMime (type blob) = None /\ ext = "webm"%string).
Proof.
  cbv zeta. rewrite transcribeBlob_request. cbn [extension].
  unfold inferExtensionFromMime.
  destruct (String.eqb_spec (type blob) "") as [He|He].
  - rewrite He. split; [auto|]. split; [discriminate|auto].
  - destruct (includes "wav" (type blob)); [split; [auto|split; [auto|discriminate]]|].
    destruct (includes "webm" (type blob)); [split; [auto|split; discriminate]|].
    destruct (includes "mp4" (type blob)); [split; [auto|split; discriminate]|].
    destruct (includes "mpeg" (type blob)); [split; [auto|split; discriminate]|].
    split; [auto|]. split; [discriminate|auto].
Qed.

(** X15 on a blob typed [audio/wav]. *)
Lemma X15_upload_extension_witness :
  extension (fst (transcribeBlob silentServer 0 stereoWav)) = "wav"%string.
Proof.
  apply (proj1 (proj2 (X15_upload_extension silentServer 0 stereoWav))).
  reflexivity.
Defined.

End UploadFacts.

(* ===================================================================== *)
(** ** Further facts: the live-subtitle loop                              *)
(* ===================================================================== *)

Section LiveRunFacts.
Import AudioProcessing Transcript Pipeline Live.

(** X18: stopping the loop is final until the next start: whatever the
    state, after [stopLiveSubtitles] the loop flag is off, no recorder is
    referenced and live subtitles are disabled; a timer that fires later
    changes nothing, sends nothing, and a second stop changes nothing. *)
Theorem X18_after_stop_nothing_more_happens (P : Platform)
  (fetch : nat -> Blob -> FetchOutcome) (mime : string) (st : LiveState)
  (gathered later : Blob) (env env' : Spawn) :
  let stopped := stopLiveSubtitles P fetch mime gathered env st in
  liveLoopActiveRef stopped = false /\
  liveRecorderRef stopped = None /\
  liveSubtitlesEnabled stopped = false /\
  onTimeout P fetch mime later env' stopped = stopped /\
  stopLiveSubtitles P fetch mime later env' stopped = stopped.
Proof.
  cbv zeta.
  assert (H : exists h, stopLiveSubtitles P fetch mime gathered env st =
                        {| liveLoopActiveRef := false; liveRecorderRef := None;
                           liveSubtitlesEnabled := false; hook := h |}).
  { unfold stopLiveSubtitles. cbn [liveRecorderRef].
    destruct (liveRecorderRef st) as [r|] eqn:Href.
    - destruct (state r).
      + eexists. reflexivity.
      + unfold recorder_stop, Live.onstop. cbn [chunks liveRecorderRef].
        destruct (0 <? length _)%nat; eexists; reflexivity.
    - eexists. reflexivity. }
  destruct H as [h ->]. repeat split.
Qed.

End LiveRunFacts.

(* ===================================================================== *)
(** ** Further facts: normalised text, the merge and the overlay          *)
(* ===================================================================== *)

Section TextFacts.
Import Transcript Overlay.

Lemma blank_replaceRuns (s : jsstring) :
  forall b, blank (replaceRuns b s) = blank s.
Proof.
  unfold blank. induction s as [|c s IH]; intros b; [reflexivity|].
  cbn [replaceRuns forallb]. destruct (isWhiteSpace c) eqn:Hc.
  - destruct b; cbn [forallb andb]; [apply IH|].
    change (isWhiteSpace SPACE) with true. cbn [andb]. apply IH.
  - cbn [forallb]. rewrite Hc. reflexivity.
Qed.

Lemma blank_trimStart (s : jsstring) : blank (trimStart s) = blank s.
Proof.
  unfold blank. induction s as [|c s IH]; [reflexivity|].
  cbn [trimStart forallb]. destruct (isWhiteSpace c) eqn:Hc; [exact IH|].
  cbn [forallb]. now rewrite Hc.
Qed.

Lemma trimEnd_nil (s : jsstring) : trimEnd s = [] <-> blank s = true.
Proof.
  unfold blank. induction s as [|c s IH]; [split; reflexivity|].
  cbn [trimEnd forallb]. destruct (trimEnd s) as [|k kept] eqn:E.
  - destruct (isWhiteSpace c); cbn [andb].
    + split; [intros _; apply IH; reflexivity|reflexivity].
    + split; discriminate.
  - split; [discriminate|]. intros H. apply andb_true_iff in H.
    destruct H as [_ H]. apply IH in H. discriminate.
Qed.

Lemma visibleUnits_replaceRuns (s : jsstring) :
  forall b, visibleUnits (replaceRuns b s) = visibleUnits s.
Proof.
  unfold visibleUnits. induction s as [|c s IH]; intros b; [reflexivity|].
  cbn [replaceRuns filter]. destruct (isWhiteSpace c) eqn:Hc; cbn [negb].
  - destruct b; [apply IH|]. cbn [filter].
    change (isWhiteSpace SPACE) with true. cbn [negb]. apply IH.
  - cbn [filter]. rewrite Hc. cbn [negb]. now rewrite IH.
Qed.

Lemma visibleUnits_trimStart (s : jsstring) :
  visibleUnits (trimStart s) = visibleUnits s.
Proof.
  unfold visibleUnits. induction s as [|c s IH]; [reflexivity|].
  cbn [trimStart filter]. destruct (isWhiteSpace c) eqn:Hc; cbn [negb]; [exact IH|].
  cbn [filter]. rewrite Hc. reflexivity.
Qed.

Lemma visibleUnits_trimEnd (s : jsstring) :
  visibleUnits (trimEnd s) = visibleUnits s.
Proof.
  unfold visibleUnits. induction s as [|c s IH]; [reflexivity|].
  cbn [trimEnd filter]. destruct (trimEnd s) as [|k kept] eqn:E.
  - cbn [filter] in IH. rewrite <- IH.
    destruct (isWhiteSpace c) eqn:Hc; cbn [negb filter]; [reflexivity|].
    rewrite Hc. reflexivity.
  - cbn [filter]. destruct (negb (isWhiteSpace c)); now rewrite <- IH.
Qed.

Lemma endsClean_trimEnd (s : jsstring) : endsClean (trimEnd s).
Proof.
  unfold endsClean. induction s as [|c s IH]; [exact I|].
  cbn [trimEnd]. destruct (trimEnd s) as [|k kept] eqn:E.
  - destruct (isWhiteSpace c) eqn:Hc; [exact I|exact Hc].
  - exact IH.
Qed.

(** X19: the normalised text of a transcription is empty exactly when the
    text is missing or consists of white space only, and such a
    transcription leaves every transcript as it is. *)
Theorem X19_blank_text_is_discarded (r : TranscriptionResponse) :
  (normalizedText r = [] <->
   match text r with Some t => blank t = true | None => True end) /\
  (normalizedText r = [] -> forall prev, onTranscription r prev = prev).
Proof.
  split.
  - unfold normalizedText, trim. rewrite trimEnd_nil, blank_trimStart, blank_replaceRuns.
    destruct (text r); [reflexivity|]. split; reflexivity.
  - intros H prev. unfold onTranscription. now rewrite H.
Qed.

(** X19 on a text of a space, a tab and a line feed. *)
Lemma X19_blank_text_witness :
  onTranscription (mkResponse (Some [32; 9; 10]%N) None None) [ofString "old"]
  = [ofString "old"].
Proof.
  apply (proj2 (X19_blank_text_is_discarded
                  (mkResponse (Some [32; 9; 10]%N) None None))
               eq_refl [ofString "old"]).
Defined.

(** X20: white-space normalisation keeps every code unit that is no white
    space, in order, and leaves white space only as single spaces between
    them: the result neither starts nor ends with white space and holds no
    white space but isolated U+0020. *)
Theorem X20_normalisation_keeps_the_visible_text (s : jsstring) :
  visibleUnits (normalizeLine s) = visibleUnits s /\
  squeezed false (normalizeLine s) /\
  startsClean (normalizeLine s) /\
  endsClean (normalizeLine s).
Proof.
  unfold normalizeLine, trim. split; [|split; [|split]].
  - now rewrite visibleUnits_trimEnd, visibleUnits_trimStart, visibleUnits_replaceRuns.
  - apply squeezed_trimEnd. apply (squeezed_trimStart _ false).
    apply squeezed_replaceRuns.
  - apply startsClean_trimEnd, startsClean_trimStart.
  - apply endsClean_trimEnd.
Qed.

Lemma last_skipn {A : Type} (k : nat) (l : list A) (d : A) :
  (k < length l)%nat -> List.last (skipn k l) d = List.last l d.
Proof.
  revert l. induction k as [|k IH]; intros l Hk; [reflexivity|].
  destruct l as [|x l]; [cbn in Hk; lia|].
  cbn [skipn]. cbn [length] in Hk. rewrite IH by lia.
  destruct l; [cbn in Hk; lia|reflexivity].
Qed.

(** X21: after a merge of a non-blank text the last line of the
    transcript is that text, normalised, whether it was appended or was
    already there; a merge adds at most one line and, under 200 lines,
    drops none. *)
Theorem X21_merge_ends_with_the_new_text (r : TranscriptionResponse)
  (prev : list jsstring) :
  normalizedText r <> [] ->
  List.last (onTranscription r prev) [] = normalizedText r /\
  (length (onTranscription r prev) <= S (length prev))%nat /\
  ((length prev < maxLines)%nat ->
   onTranscription r prev = prev \/
   onTranscription r prev = prev ++ [normalizedText r]).
Proof.
  intros Hne.
  destruct (onTranscription_cases r prev) as [_ [Hsame Hnew]].
  destruct (list_eq_dec N.eq_dec (normalizedText r) (List.last prev [])) as [Heq|Hneq].
  - rewrite (Hsame Heq). split; [now rewrite Heq|]. split; [lia|]. intros _. now left.
  - rewrite (Hnew Hne Hneq). unfold slice_neg. split; [|split].
    + rewrite last_skipn by (rewrite length_app; cbn [length]; unfold maxLines; lia).
      apply last_last.
    + rewrite length_skipn, length_app. cbn [length]. lia.
    + intros Hlt. right. rewrite length_app. cbn [length].
      replace (length prev + 1 - maxLines)%nat with 0%nat by lia. reflexivity.
Qed.

(** X21 on a new text merged into a transcript of one line. *)
Lemma X21_merge_witness :
  List.last (onTranscription (mkResponse (Some (ofString " new  text ")) None None)
               [ofString "old"]) []
  = normalizedText (mkResponse (Some (ofString " new  text ")) None None).
Proof.
  apply (proj1 (X21_merge_ends_with_the_new_text
                  (mkResponse (Some (ofString " new  text ")) None None)
                  [ofString "old"] ltac:(discriminate))).
Defined.

Lemma Array_slice_last {A : Type} (n : nat) (l : list A) :
  (1 <= n)%nat -> Array_slice (- Z.of_nat n) l = slice_neg n l.
Proof.
  intros Hn. unfold Array_slice, slice_neg.
  assert (H : (- Z.of_nat n <? 0) = true) by (apply Z.ltb_lt; lia).
  rewrite H. f_equal. lia.
Qed.

(** X22: the overlay renders nothing exactly when it is hidden or there is
    no line; with a positive [maxLines] it shows the last
    [min maxLines n] of the n lines, ending with the newest; with
    [maxLines] 0 it shows every line, since [slice(-0)] is [slice(0)]. *)
Theorem X22_overlay_shows_the_newest_lines (visible : bool) (maxLines : Z)
  (lines : list jsstring) :
  (shownLines visible maxLines lines = None <-> visible = false \/ lines = []) /\
  (1 <= maxLines -> visible = true -> lines <> [] ->
   shownLines visible maxLines lines
     = Some (slice_neg (Z.to_nat maxLines) lines) /\
   length (slice_neg (Z.to_nat maxLines) lines)
     = Nat.min (Z.to_nat maxLines) (length lines) /\
   List.last (slice_neg (Z.to_nat maxLines) lines) [] = List.last lines []) /\
  (maxLines = 0 -> visible = true -> lines <> [] ->
   shownLines visible maxLines lines = Some lines).
Proof.
  split; [|split].
  - unfold shownLines. destruct visible; cbn [negb orb].
    + destruct lines as [|l lines]; cbn [length Nat.eqb].
      * split; auto.
      * split; [discriminate|]. intros [H|H]; discriminate.
    + split; auto.
  - intros Hm -> Hne. unfold shownLines. cbn [negb orb].
    assert (Hlen : (0 < length lines)%nat)
      by (destruct lines; [congruence|cbn [length]; lia]).
    assert (E : (length lines =? 0)%nat = false) by (apply Nat.eqb_neq; lia).
    rewrite E.
    replace (- maxLines) with (- Z.of_nat (Z.to_nat maxLines)) by lia.
    rewrite Array_slice_last by lia.
    split; [reflexivity|]. split; [apply length_slice_neg|].
    unfold slice_neg. apply last_skipn. lia.
  - intros -> -> Hne. unfold shownLines. cbn [negb orb].
    destruct lines as [|l lines]; [congruence|]. reflexivity.
Qed.

(** X22 on the component's three lines and a transcript of four. *)
Lemma X22_overlay_witness :
  shownLines true 3 [ofString "a"; ofString "b"; ofString "c"; ofString "d"]
  = Some (slice_neg (Z.to_nat 3)
            [ofString "a"; ofString "b"; ofString "c"; ofString "d"]).
Proof.
  apply (proj1 (proj2 (X22_overlay_shows_the_newest_lines true 3
           [ofString "a"; ofString "b"; ofString "c"; ofString "d"]))).
  - lia.
  - reflexivity.
  - discriminate.
Defined.

End TextFacts.

(* ===================================================================== *)
(** ** Further facts: recording formats and the recorder's MIME type      *)
(* ===================================================================== *)

Section FormatFacts.
Import Formats.

Lemma find_first {A : Type} (p : A -> bool) (l : list A) (m : A) :
  find p l = Some m ->
  exists before after,
    l = before ++ m :: after /\
    Forall (fun x => p x = false) before /\ p m = true.
Proof.
  induction l as [|x l IH]; [discriminate|].
  cbn [find]. destruct (p x) eqn:Hx.
  - intros [= ->]. exists [], l. auto.
  - intros H. destruct (IH H) as (before & after & -> & Hb & Hm).
    exists (x :: before), after. auto.
Qed.

Lemma find_none_iff {A : Type} (p : A -> bool) (l : list A) :
  find p l = None <-> Forall (fun x => p x = false) l.
Proof.
  induction l as [|x l IH]; [split; auto|].
  cbn [find]. destruct (p x) eqn:Hx.
  - split; [discriminate|]. intros H. inversion H. congruence.
  - rewrite IH. split; [auto|]. intros H. now inversion H.
Qed.

Lemma hd_error_filter {A : Type} (p : A -> bool) (l : list A) :
  hd_error (filter p l) = find p l.
Proof.
  induction l as [|x l IH]; [reflexivity|].
  cbn [filter find]. destruct (p x); [reflexivity|exact IH].
Qed.

Lemma find_app {A : Type} (p : A -> bool) (l1 l2 : list A) :
  find p (l1 ++ l2) = match find p l1 with Some x => Some x | None => find p l2 end.
Proof.
  induction l1 as [|x l1 IH]; [reflexivity|].
  cbn [app find]. destruct (p x); [reflexivity|exact IH].
Qed.

Lemma getFormatInfo_total (fmt : RecordingFormat) :
  exists info,
    getFormatInfo fmt = Some info /\ In info AVAILABLE_FORMATS /\
    format info = fmt.
Proof.
  destruct fmt; eexists; (split; [reflexivity|]); cbn; auto 6.
Qed.

Lemma getFormatInfo_listed (info : RecordingFormatInfo) :
  In info AVAILABLE_FORMATS -> getFormatInfo (format info) = Some info.
Proof.
  cbn. intros [<-|[<-|[<-|[<-|[]]]]]; reflexivity.
Qed.

Lemma orNull_listed (its : string -> bool) (info : RecordingFormatInfo) :
  In info AVAILABLE_FORMATS ->
  orNull (find its (preferredMimeTypes info)) = find its (preferredMimeTypes info).
Proof.
  intros Hin. destruct (find its (preferredMimeTypes info)) as [m|] eqn:E; [|reflexivity].
  apply find_some in E. destruct E as [Hm _].
  cbn in Hin. destruct Hin as [<-|[<-|[<-|[<-|[]]]]]; cbn in Hm;
    repeat (destruct Hm as [<-|Hm]; [reflexivity|]); destruct Hm.
Qed.

Lemma getBest_find (its : string -> bool) (info : RecordingFormatInfo) :
  In info AVAILABLE_FORMATS ->
  getBestMimeTypeForFormat its (format info) = find its (preferredMimeTypes info).
Proof.
  intros Hin. unfold getBestMimeTypeForFormat.
  rewrite (getFormatInfo_listed info Hin). now apply orNull_listed.
Qed.

(** X23: every format has an entry in the table, and the best MIME type
    of a format is the first of the entry's preferred types that the
    recorder supports: all preferences before it are unsupported, and there
    is none exactly when no preference is supported. *)
Theorem X23_best_mime_is_the_first_supported_preference
  (isTypeSupported : string -> bool) (fmt : RecordingFormat) :
  exists info,
    getFormatInfo fmt = Some info /\ format info = fmt /\
    (forall m,
       getBestMimeTypeForFormat isTypeSupported fmt = Some m ->
       exists before after,
         preferredMimeTypes info = before ++ m :: after /\
         Forall (fun x => isTypeSupported x = false) before /\
         isTypeSupported m = true) /\
    (getBestMimeTypeForFormat isTypeSupported fmt = None <->
     Forall (fun x => isTypeSupported x = false) (preferredMimeTypes info)).
Proof.
  destruct (getFormatInfo_total fmt) as (info & Hinfo & Hin & Hfmt).
  exists info. split; [exact Hinfo|]. split; [exact Hfmt|].
  rewrite <- Hfmt, (getBest_find isTypeSupported info Hin). split.
  - intros m. apply find_first.
  - apply find_none_iff.
Qed.

(** X23 on a recorder that supports [audio/mp4] only. *)
Lemma X23_best_mime_witness :
  exists before after,
    ["audio/mp4; codecs=aac"%string; "audio/mp4"%string]
      = before ++ "audio/mp4"%string :: after /\
    Forall (fun x => String.eqb "audio/mp4" x = false) before /\
    String.eqb "audio/mp4" "audio/mp4" = true.
Proof.
  destruct (X23_best_mime_is_the_first_supported_preference
              (String.eqb "audio/mp4") mp4_aac)
    as (info & Hinfo & _ & Hsome & _).
  injection Hinfo as <-. apply Hsome. reflexivity.
Defined.

(** X24: [getSupportedFormats] lists, in the table's order, exactly the
    formats that have a best MIME type; a listed entry keeps the table's
    label, extension and bit rate, holds only supported types, and its
    first type is the format's best MIME type. *)
Theorem X24_supported_formats_are_those_with_a_best_mime
  (isTypeSupported : string -> bool) :
  map format (getSupportedFormats isTypeSupported)
    = filter (fun f => isSome (getBestMimeTypeForFormat isTypeSupported f))
             (map format AVAILABLE_FORMATS) /\
  forall info,
    In info (getSupportedFormats isTypeSupported) ->
    exists listed,
      getFormatInfo (format info) = Some listed /\
      label info = label listed /\
      extension info = extension listed /\
      defaultBitRate info = defaultBitRate listed /\
      preferredMimeTypes info
        = filter isTypeSupported (preferredMimeTypes listed) /\
      Forall (fun m => isTypeSupported m = true) (preferredMimeTypes info) /\
      hd_error (preferredMimeTypes info)
        = getBestMimeTypeForFormat isTypeSupported (format info).
Proof.
  split.
  - unfold getSupportedFormats.
    assert (G : forall T : list RecordingFormatInfo,
               (forall i, In i T -> In i AVAILABLE_FORMATS) ->
               map format
                 (filter (fun f => (0 <? length (preferredMimeTypes f))%nat)
                    (map (fun f =>
                            {| format := format f; label := label f;
                               description := description f;
                               preferredMimeTypes :=
                                 filter isTypeSupported (preferredMimeTypes f);
                               extension := extension f;
                               defaultBitRate := defaultBitRate f |}) T))
               = filter (fun f => isSome (getBestMimeTypeForFormat isTypeSupported f))
                        (map format T)).
    { induction T as [|i T IH]; intros Hsub; [reflexivity|].
      cbn [map filter preferredMimeTypes format].
      rewrite (getBest_find isTypeSupported i (Hsub i (or_introl eq_refl))).
      rewrite <- hd_error_filter.
      assert (IH' := IH (fun j Hj => Hsub j (or_intror Hj))).
      destruct (filter isTypeSupported (preferredMimeTypes i)) as [|m ms].
      - change ((0 <? length (@nil string))%nat) with false.
        cbn [hd_error isSome]. exact IH'.
      - change ((0 <? length (m :: ms))%nat) with true.
        cbn [hd_error isSome map format]. f_equal. exact IH'. }
    apply G. auto.
  - intros info Hin. unfold getSupportedFormats in Hin.
    apply filter_In in Hin. destruct Hin as [Hin _].
    apply in_map_iff in Hin. destruct Hin as (listed & <- & Hlisted).
    exists listed. cbn [format label extension defaultBitRate preferredMimeTypes].
    split; [now apply getFormatInfo_listed|].
    split; [reflexivity|]. split; [reflexivity|]. split; [reflexivity|].
    split; [reflexivity|]. split.
    + apply Forall_forall. intros m Hm. apply filter_In in Hm. tauto.
    + rewrite hd_error_filter. symmetry. now apply getBest_find.
Qed.

(** X24 on a recorder that supports [audio/webm] only. *)
Lemma X24_supported_formats_witness :
  map format (getSupportedFormats (String.eqb "audio/webm")) = [webm_opus; webm].
Proof.
  rewrite (proj1 (X24_supported_formats_are_those_with_a_best_mime
                    (String.eqb "audio/webm"))).
  reflexivity.
Defined.

Lemma tryChain_find (its : string -> bool) :
  FirstVersion.tryChain its None FirstVersion.fallbackChain
  = find its knownMimeTypes.
Proof.
  assert (G : forall T : list RecordingFormatInfo,
             (forall i, In i T -> In i AVAILABLE_FORMATS) ->
             FirstVersion.tryChain its None (map format T)
             = find its (concat (map preferredMimeTypes T))).
  { induction T as [|i T IH]; intros Hsub; [reflexivity|].
    cbn [map FirstVersion.tryChain concat].
    rewrite (getBest_find its i (Hsub i (or_introl eq_refl))), find_app.
    destruct (find its (preferredMimeTypes i)); [reflexivity|].
    apply IH. intros j Hj. apply Hsub. now right. }
  apply (G AVAILABLE_FORMATS). auto.
Qed.

Lemma chooseMimeType_cases (its : string -> bool)
  (desiredFormat : option RecordingFormat) :
  exists info,
    getFormatInfo (FirstVersion.targetFormat desiredFormat) = Some info /\
    In info AVAILABLE_FORMATS /\
    FirstVersion.chooseMimeType its desiredFormat
    = match find its (preferredMimeTypes info) with
      | Some m => Some m
      | None => find its knownMimeTypes
      end.
Proof.
  destruct (getFormatInfo_total (FirstVersion.targetFormat desiredFormat))
    as (info & Hinfo & Hin & Hfmt).
  exists info. split; [exact Hinfo|]. split; [exact Hin|].
  unfold FirstVersion.chooseMimeType.
  rewrite <- Hfmt, (getBest_find its info Hin), tryChain_find. reflexivity.
Qed.

Lemma listed_mime_known (info : RecordingFormatInfo) (m : string) :
  In info AVAILABLE_FORMATS -> In m (preferredMimeTypes info) ->
  In m knownMimeTypes.
Proof.
  intros Hin Hm. unfold knownMimeTypes. apply in_concat.
  exists (preferredMimeTypes info). split; [now apply in_map|exact Hm].
Qed.

(** X25: the first version of [startRecording] takes the desired format's
    best MIME type when it has one, and else the first supported type in
    the table's order; the chosen type is supported and named by the
    table, and there is none exactly when the recorder supports no type of
    the table.  The bit rate follows the desired format alone: 96000 for
    generic WebM and 128000 otherwise, whichever type is chosen. *)
Theorem X25_fallback_chain_finds_a_supported_type
  (isTypeSupported : string -> bool) (desiredFormat : option RecordingFormat) :
  (forall m,
     FirstVersion.chooseMimeType isTypeSupported desiredFormat = Some m ->
     isTypeSupported m = true /\ In m knownMimeTypes) /\
  (FirstVersion.chooseMimeType isTypeSupported desiredFormat = None <->
   Forall (fun m => isTypeSupported m = false) knownMimeTypes) /\
  (getBestMimeTypeForFormat isTypeSupported
     (FirstVersion.targetFormat desiredFormat) = None ->
   FirstVersion.chooseMimeType isTypeSupported desiredFormat
   = find isTypeSupported knownMimeTypes) /\
  (forall m,
     getBestMimeTypeForFormat isTypeSupported
       (FirstVersion.targetFormat desiredFormat) = Some m ->
     FirstVersion.chooseMimeType isTypeSupported desiredFormat = Some m) /\
  (forall info,
     getFormatInfo (FirstVersion.targetFormat desiredFormat) = Some info ->
     FirstVersion.chooseMimeType isTypeSupported desiredFormat
     = match find isTypeSupported (preferredMimeTypes info) with
       | Some m => Some m
       | None => find isTypeSupported knownMimeTypes
       end) /\
  FirstVersion.audioBitsPerSecond
    (FirstVersion.recorderOptions isTypeSupported desiredFormat)
  = Some (match desiredFormat with Some webm => 96000 | _ => 128000 end).
Proof.
  destruct (chooseMimeType_cases isTypeSupported desiredFormat)
    as (info & Hinfo & Hin & Hchoose).
  split; [|split; [|split; [|split; [|split]]]].
  - intros m Hm. rewrite Hchoose in Hm.
    destruct (find isTypeSupported (preferredMimeTypes info)) as [m'|] eqn:E.
    + injection Hm as <-. apply find_some in E. destruct E as [Hm' Hs].
      split; [exact Hs|]. now apply (listed_mime_known info).
    + apply find_some in Hm. tauto.
  - rewrite Hchoose.
    destruct (find isTypeSupported (preferredMimeTypes info)) as [m'|] eqn:E.
    + split; [discriminate|]. intros Hall. apply find_some in E.
      destruct E as [Hm' Hs]. rewrite Forall_forall in Hall.
      rewrite (Hall m' (listed_mime_known info m' Hin Hm')) in Hs. discriminate.
    + apply find_none_iff.
  - unfold FirstVersion.chooseMimeType. intros ->. apply tryChain_find.
  - unfold FirstVersion.chooseMimeType. intros m ->. reflexivity.
  - intros info' Hinfo'. rewrite Hinfo in Hinfo'. injection Hinfo' as <-.
    exact Hchoose.
  - destruct desiredFormat as [[| | |]|]; reflexivity.
Qed.

(** X25 on generic WebM desired from a recorder that supports every
    type: the desired format's type is taken, not the first of the chain. *)
Lemma X25_fallback_chain_witness :
  FirstVersion.chooseMimeType (fun _ => true) (Some webm)
  = Some "audio/webm"%string.
Proof.
  apply (proj1 (proj2 (proj2 (proj2
           (X25_fallback_chain_finds_a_supported_type
              (fun _ => true) (Some webm)))))
           "audio/webm"%string).
  reflexivity.
Defined.

(** With MP3 desired and only WebM supported, the chain finds WebM. *)
Example fallback_finds_webm :
  FirstVersion.chooseMimeType (String.eqb "audio/webm") (Some mp3)
  = Some "audio/webm"%string.
Proof. reflexivity. Qed.

Lemma listed_extension (info : RecordingFormatInfo) (m : string) :
  In info AVAILABLE_FORMATS -> In m (preferredMimeTypes info) ->
  normalizeType m = m /\
  FirstVersion.inferExtensionFromMime m = Some (extension info) /\
  Pipeline.inferExtensionFromMime m = Some (extension info) /\
  includes "wav" m = false.
Proof.
  intros Hin Hm.
  cbn in Hin. destruct Hin as [<-|[<-|[<-|[<-|[]]]]]; cbn in Hm;
    repeat (destruct Hm as [<-|Hm]; [repeat split; reflexivity|]); destruct Hm.
Qed.

(** X26: when the first version's recorder stops, the file extension is
    that of the table entry the chosen MIME type belongs to, also when the
    type was found by the fall-back and the desired format is another; with
    no type at all the extension is the desired format's and no MIME type
    is reported.  The file size is the total size of the chunks. *)
Theorem X26_extension_follows_the_chosen_type
  (isTypeSupported : string -> bool) (desiredFormat : option RecordingFormat)
  (chunksRef : list Blob) :
  let stopped :=
    FirstVersion.onstopState isTypeSupported desiredFormat chunksRef in
  Artifact.fileSize stopped = Artifact.totalSize chunksRef /\
  match FirstVersion.chooseMimeType isTypeSupported desiredFormat with
  | Some m =>
      Artifact.downloadMimeType stopped = Some m /\
      exists info,
        In info AVAILABLE_FORMATS /\ In m (preferredMimeTypes info) /\
        Artifact.fileExtension stopped = extension info
  | None =>
      Artifact.downloadMimeType stopped = None /\
      exists info,
        getFormatInfo (FirstVersion.targetFormat desiredFormat) = Some info /\
        Artifact.fileExtension stopped = extension info
  end.
Proof.
  cbv zeta. split.
  - unfold FirstVersion.onstopState, new_Blob, size.
    cbn [Artifact.fileSize bytes]. apply size_concat.
  - destruct (chooseMimeType_cases isTypeSupported desiredFormat)
      as (info & Hinfo & Hin & Hchoose).
    unfold FirstVersion.onstopState.
    destruct (FirstVersion.chooseMimeType isTypeSupported desiredFormat)
      as [m|] eqn:E.
    + assert (Hm : exists i, In i AVAILABLE_FORMATS /\ In m (preferredMimeTypes i)).
      { symmetry in Hchoose.
        destruct (find isTypeSupported (preferredMimeTypes info)) as [m'|] eqn:F.
        - injection Hchoose as ->. apply find_some in F. exists info. tauto.
        - apply find_some in Hchoose. destruct Hchoose as [Hk _].
          unfold knownMimeTypes in Hk. apply in_concat in Hk.
          destruct Hk as (ms & Hms & Hk). apply in_map_iff in Hms.
          destruct Hms as (i & <- & Hi). exists i. tauto. }
      destruct Hm as (i & Hi & Hmi).
      destruct (listed_extension i m Hi Hmi) as (Hnorm & Hext & _ & _).
      assert (Hne : String.eqb m "" = false).
      { destruct m; [discriminate Hext|reflexivity]. }
      unfold orNull, new_Blob. rewrite Hne. cbn [type]. rewrite Hnorm, Hext, Hne.
      cbn [negb Artifact.downloadMimeType Artifact.fileExtension].
      split; [reflexivity|]. exists i. auto.
    + unfold orNull at 1 3, new_Blob. cbn [type].
      cbn [FirstVersion.inferExtensionFromMime String.eqb negb
           Artifact.downloadMimeType Artifact.fileExtension].
      split; [reflexivity|]. exists info. split; [exact Hinfo|].
      unfold FirstVersion.formatInfo. rewrite Hinfo. cbn [option_map orNull].
      cbn in Hin. destruct Hin as [<-|[<-|[<-|[<-|[]]]]]; reflexivity.
Qed.

(** X27: in the current version, whatever the recorder supports, a type
    found for WebM Opus is one of the two WebM types; the download is then
    reported with that type and the extension webm, and every sealed
    segment is a blob of that type, which does not report WAV and is
    therefore never passed through unconverted. *)
Theorem X27_current_recorder_is_always_webm
  (isTypeSupported : string -> bool) (m : string) :
  getBestMimeTypeForFormat isTypeSupported webm_opus = Some m ->
  (m = "audio/webm;codecs=opus"%string \/ m = "audio/webm"%string) /\
  isTypeSupported m = true /\
  (forall r,
     let stopped :=
       Artifact.onstopState m (option_map extension (getFormatInfo webm_opus)) r in
     Artifact.fileExtension stopped = "webm"%string /\
     Artifact.downloadMimeType stopped = Some m) /\
  (forall seg,
     type (Artifact.segBlob m seg) = m /\
     AudioProcessing.reportsWav (Artifact.segBlob m seg) = false).
Proof.
  intros Hbest.
  assert (Hin : In (mkFormatInfo webm_opus "WebM (Opus)"
                      "High quality, small size. Excellent on Chrome/Edge."
                      ["audio/webm;codecs=opus"%string; "audio/webm"%string]
                      "webm" 128000) AVAILABLE_FORMATS) by (cbn; auto).
  pose proof (getBest_find isTypeSupported _ Hin) as E.
  cbn [format preferredMimeTypes] in E. rewrite E in Hbest.
  apply find_some in Hbest. destruct Hbest as [Hm Hs].
  assert (Hcases : m = "audio/webm;codecs=opus"%string \/ m = "audio/webm"%string).
  { cbn in Hm. destruct Hm as [<-|[<-|[]]]; auto. }
  split; [exact Hcases|]. split; [exact Hs|].
  split; [intros r|intros seg];
    destruct Hcases as [-> | ->]; split; reflexivity.
Qed.

(** X27 on a recorder that supports every type. *)
Lemma X27_current_recorder_witness :
  "audio/webm;codecs=opus"%string = "audio/webm;codecs=opus"%string \/
  "audio/webm;codecs=opus"%string = "audio/webm"%string.
Proof.
  apply (proj1 (X27_current_recorder_is_always_webm (fun _ => true)
                  "audio/webm;codecs=opus" eq_refl)).
Defined.

End FormatFacts.

(* ===================================================================== *)
(** ** Further facts: the visualiser's bars and points                    *)
(* ===================================================================== *)

Section AnalysisFacts.
Import AudioProcessing Analysis.

Lemma Math_min_atMost (hi : Q) (x : Number) : atMost hi (Math_min (Finite hi) x).
Proof.
  destruct x as [| | |q]; cbn [Math_min atMost]; try exact I; try apply Qle_refl.
  destruct (Qle_bool hi q) eqn:E; cbn [atMost]; [apply Qle_refl|].
  apply Qlt_le_weak. now apply Qle_bool_false.
Qed.

Lemma Math_max_min_clamped (lo hi : Q) (x : Number) :
  (lo <= hi)%Q ->
  clamped lo hi (Math_max (Finite lo) (Math_min (Finite hi) x)).
Proof.
  intros Hlh.
  assert (Hhi : clamped lo hi (Math_max (Finite lo) (Finite hi))).
  { cbn [Math_max]. destruct (Qle_bool lo hi) eqn:E; cbn [clamped].
    - split; [exact Hlh|apply Qle_refl].
    - split; [apply Qle_refl|exact Hlh]. }
  assert (Hlo : clamped lo hi (Finite lo))
    by (cbn [clamped]; split; [apply Qle_refl|exact Hlh]).
  destruct x as [| | |q]; cbn [Math_min]; try exact Hhi; try exact I.
  - cbn [Math_max]. exact Hlo.
  - destruct (Qle_bool hi q) eqn:E; [exact Hhi|].
    apply Qle_bool_false in E. cbn [Math_max].
    destruct (Qle_bool lo q) eqn:F; cbn [clamped].
    + split; [now apply Qle_bool_iff|now apply Qlt_le_weak].
    + exact Hlo.
Qed.

(** X28: [createFrequencyBars] and [createWaveformPoints] return as many
    values as are asked for, all 0 when there is no data; whatever the
    rounding of the arithmetic, a bar is never above 100 and a point is NaN
    or lies between -100 and 100. *)
Theorem X28_bars_and_points_are_counted_and_clamped (P : Platform)
  (data : list byte) (n : nat) :
  length (createFrequencyBars P data n) = n /\
  length (createWaveformPoints P data n) = n /\
  Forall (atMost 100) (createFrequencyBars P data n) /\
  Forall (clamped (-100) 100) (createWaveformPoints P data n) /\
  createFrequencyBars P [] n = repeat (Finite 0) n /\
  createWaveformPoints P [] n = repeat (Finite 0) n.
Proof.
  unfold createFrequencyBars, createWaveformPoints.
  split; [|split; [|split; [|split; [|split]]]]; try reflexivity.
  - destruct (length data =? 0)%nat;
      [apply repeat_length|rewrite length_map; apply length_seq].
  - destruct (length data =? 0)%nat;
      [apply repeat_length|rewrite length_map; apply length_seq].
  - destruct (length data =? 0)%nat.
    + apply Forall_forall. intros x Hx. apply repeat_spec in Hx. subst x.
      cbn [atMost]. discriminate.
    + apply Forall_forall. intros x Hx. apply in_map_iff in Hx.
      destruct Hx as (i & <- & _). apply Math_min_atMost.
  - destruct (length data =? 0)%nat.
    + apply Forall_forall. intros x Hx. apply repeat_spec in Hx. subst x.
      cbn [clamped]. split; discriminate.
    + apply Forall_forall. intros x Hx. apply in_map_iff in Hx.
      destruct Hx as (i & <- & _). apply Math_max_min_clamped. discriminate.
Qed.





End AnalysisFacts.

(* ===================================================================== *)
(** ** Further facts: browser detection                                   *)
(* ===================================================================== *)

Section BrowserFacts.
Import BrowserDetection.

Lemma takeDigits_digits (s : string) :
  string_forallb isDigit (takeDigits s) = true.
Proof.
  induction s as [|c s IH]; [reflexivity|].
  cbn [takeDigits]. destruct (isDigit c) eqn:Hc; [|reflexivity].
  cbn [string_forallb]. now rewrite Hc.
Qed.

Lemma matchVersion_digits (tag s d : string) :
  matchVersion tag s = Some d ->
  string_forallb isDigit d = true /\ d <> EmptyString.
Proof.
  assert (Hhere : forall t,
    (if String.prefix tag t then
       match takeDigits (drop (String.length tag) t) with
       | EmptyString => None
       | String c r => Some (String c r)
       end
     else None) = Some d ->
    string_forallb isDigit d = true /\ d <> EmptyString).
  { intros t. destruct (String.prefix tag t); [|discriminate].
    pose proof (takeDigits_digits (drop (String.length tag) t)) as Hd.
    destruct (takeDigits (drop (String.length tag) t)); [discriminate|].
    intros [= <-]. split; [exact Hd|discriminate]. }
  induction s as [|c s IH].
  - cbn [matchVersion]. intros H.
    destruct (if String.prefix tag EmptyString then _ else _) eqn:E;
      [|discriminate].
    injection H as ->. now apply (Hhere EmptyString).
  - cbn [matchVersion]. intros H.
    destruct (if String.prefix tag (String c s) then _ else _) eqn:E.
    + injection H as ->. now apply (Hhere (String c s)).
    + now apply IH.
Qed.

(** X30: the browser is reported compatible exactly when it supports tab
    audio: support of system audio changes the message only.  The browser
    is never both Chrome and Edge, Edge's version wins where the user
    agent names both, the version holds digits only, system audio needs
    Windows, and off Windows the information string names no browser. *)
Theorem X30_compatible_means_tab_audio (nav : Navigator) :
  compatible (checkBrowserCompatibility nav)
    = supportsTabAudio (detectBrowser nav) /\
  isChrome (detectBrowser nav) && isEdge (detectBrowser nav) = false /\
  (supportsSystemAudio (detectBrowser nav) = true ->
   isWindows (detectBrowser nav) = true /\
   (hasGetDisplayMedia nav = true ->
    supportsTabAudio (detectBrowser nav) = true)) /\
  (isEdge (detectBrowser nav) = true ->
   matchVersion "Edg/" (userAgent nav) = Some (version (detectBrowser nav))) /\
  string_forallb isDigit (version (detectBrowser nav)) = true /\
  (isWindows (detectBrowser nav) = false ->
   getBrowserInfoString nav = "Non-Windows OS"%string).
Proof.
  unfold checkBrowserCompatibility, getBrowserInfoString, detectBrowser.
  cbn [isChrome isEdge isWindows version supportsSystemAudio supportsTabAudio].
  pose proof (matchVersion_digits "Chrome/" (userAgent nav)) as Hc.
  pose proof (matchVersion_digits "Edg/" (userAgent nav)) as He.
  destruct (matchVersion "Chrome/" (userAgent nav)) as [cv|];
    destruct (matchVersion "Edg/" (userAgent nav)) as [ev|];
    cbn [Formats.isSome andb negb orb];
    destruct (includes "win" (toLowerCase (platform nav)));
    destruct (hasGetDisplayMedia nav);
    cbn [Formats.isSome andb negb orb compatible];
    repeat match goal with
           | |- context [atLeast ?v ?n] => destruct (atLeast v n)
           end;
    cbn [andb negb orb compatible];
    repeat split; try reflexivity; try discriminate; try tauto;
    try (apply (Hc _ eq_refl)); try (apply (He _ eq_refl)).
Qed.

(** X30 on the user agent of Edge 120 on Windows. *)
Lemma X30_edge_witness :
  isWindows (detectBrowser edgeOnWindows) = true /\
  (hasGetDisplayMedia edgeOnWindows = true ->
   supportsTabAudio (detectBrowser edgeOnWindows) = true).
Proof.
  apply (proj1 (proj2 (proj2 (X30_compatible_means_tab_audio edgeOnWindows)))).
  vm_compute. reflexivity.
Defined.

End BrowserFacts.

(* ===================================================================== *)
(** ** Further facts: uploads that settle in any order                    *)
(* ===================================================================== *)

Section AsyncFacts.
Import AudioProcessing Transcript Pipeline Async.

Lemma update_here {A : Type} (l1 l2 : list A) (a x : A) :
  update (length l1) x (l1 ++ a :: l2) = l1 ++ x :: l2.
Proof.
  induction l1 as [|y l1 IH]; [reflexivity|].
  cbn [length app update]. now rewrite IH.
Qed.

Lemma payloads_app (P : Platform) (l1 l2 : list Task) :
  payloads P (l1 ++ l2) = payloads P l1 ++ payloads P l2.
Proof. unfold payloads. now rewrite filter_app, map_app. Qed.

Lemma payloads_allPosted (P : Platform) (ts : list Task) :
  allPosted ts -> payloads P ts = map (payloadFor P) (map chunk ts).
Proof.
  unfold allPosted, payloads. induction 1 as [|t ts Ht _ IH]; [reflexivity|].
  cbn [filter map]. rewrite Ht. cbn [map]. now rewrite IH.
Qed.

Lemma transcribeBlob_file (fetch : nat -> Blob -> FetchOutcome) (n : nat)
  (blob : Blob) :
  file (fst (transcribeBlob fetch n blob)) = blob.
Proof. now rewrite transcribeBlob_request. Qed.

(** One call settled before anything else happens is
    [Pipeline.sendChunkToTranscription]. *)
Lemma settled_at_once (P : Platform) (fetch : nat -> Blob -> FetchOutcome)
  (c : Blob) (u : Uploads) :
  let k := length (tasks u) in
  hookState (replied P fetch k (converted P fetch k (start fetch c u)))
  = sendChunkToTranscription P fetch c (hookState u).
Proof.
  cbv zeta. unfold sendChunkToTranscription, start.
  destruct (size c =? 0) eqn:Hsz.
  - unfold converted, replied.
    rewrite (proj2 (nth_error_None (tasks u) (length (tasks u))) (Nat.le_refl _)).
    rewrite (proj2 (nth_error_None (tasks u) (length (tasks u))) (Nat.le_refl _)).
    reflexivity.
  - pose proof (update_here (tasks u) []) as Hupd.
    destruct (includes "wav" (type c)) eqn:Hwav; cbn [negb].
    + unfold converted. cbn [tasks hookState].
      rewrite nth_error_app2, Nat.sub_diag by lia. cbn [nth_error].
      unfold replied. cbn [tasks hookState].
      rewrite nth_error_app2, Nat.sub_diag by lia. cbn [nth_error hookState].
      unfold payloadFor. rewrite Hwav. cbn [negb]. unfold post.
      cbn [requests error subtitles].
      destruct (transcribeBlob fetch (length (requests (hookState u))) c)
        as [request [e|response]]; reflexivity.
    + unfold converted. cbn [tasks hookState].
      rewrite nth_error_app2, Nat.sub_diag by lia. cbn [nth_error].
      unfold replied. cbn [tasks hookState]. rewrite Hupd.
      rewrite nth_error_app2, Nat.sub_diag by lia. cbn [nth_error hookState].
      unfold post. cbn [requests error subtitles].
      destruct (transcribeBlob fetch (length (requests (hookState u)))
                  (payloadFor P c)) as [request [e|response]]; reflexivity.
Qed.

Lemma chunks_start (fetch : nat -> Blob -> FetchOutcome) (c : Blob)
  (u : Uploads) :
  0 < size c ->
  map chunk (tasks (start fetch c u)) = map chunk (tasks u) ++ [c].
Proof.
  intros Hpos. unfold start.
  assert (Hnz : (size c =? 0) = false) by (apply Z.eqb_neq; lia).
  rewrite Hnz. destruct (negb _); cbn [tasks]; now rewrite map_app.
Qed.

Lemma chunks_converted (P : Platform) (fetch : nat -> Blob -> FetchOutcome)
  (k : nat) (u : Uploads) :
  map chunk (tasks (converted P fetch k u)) = map chunk (tasks u).
Proof.
  unfold converted. destruct (nth_error (tasks u) k) as [[c [|n|n]]|] eqn:E;
    try reflexivity.
  cbn [tasks]. apply nth_error_split in E. destruct E as (l1 & l2 & -> & <-).
  rewrite update_here, !map_app. reflexivity.
Qed.

Lemma chunks_replied (P : Platform) (fetch : nat -> Blob -> FetchOutcome)
  (k : nat) (u : Uploads) :
  map chunk (tasks (replied P fetch k u)) = map chunk (tasks u).
Proof.
  unfold replied. destruct (nth_error (tasks u) k) as [[c [|n|n]]|] eqn:E;
    try reflexivity.
  cbn [tasks]. apply nth_error_split in E. destruct E as (l1 & l2 & -> & <-).
  rewrite update_here, !map_app. reflexivity.
Qed.

Lemma tracked_at_length (P : Platform) (fetch : nat -> Blob -> FetchOutcome)
  (before : list Request) (u : Uploads) (k : nat) (t : Task) (n : nat) :
  Tracked P fetch before u ->
  nth_error (tasks u) k = Some t -> postedAt t = Some n ->
  (n < length (requests (hookState u)))%nat.
Proof.
  intros Htr Hk Hn. apply nth_error_Some.
  rewrite (tracked_at _ _ _ _ Htr k t n Hk Hn). discriminate.
Qed.

Lemma Tracked_start (P : Platform) (fetch : nat -> Blob -> FetchOutcome)
  (before : list Request) (c : Blob) (u : Uploads) :
  Tracked P fetch before u -> Tracked P fetch before (start fetch c u).
Proof.
  intros Htr. unfold start.
  destruct (size c =? 0); [exact Htr|].
  destruct (includes "wav" (type c)) eqn:Hwav; cbn [negb].
  - split; cbn [hookState tasks].
    + unfold post. cbn [requests]. rewrite map_app, payloads_app, app_assoc.
      apply Permutation_app; [apply (tracked_count _ _ _ _ Htr)|].
      unfold payloads. cbn [filter isPosted phase map chunk].
      unfold payloadFor. rewrite Hwav. cbn [negb map].
      rewrite transcribeBlob_file. apply Permutation_refl.
    + intros k t n Hk Hn. unfold post. cbn [requests].
      destruct (Nat.lt_ge_cases k (length (tasks u))) as [Hlt|Hge].
      * rewrite nth_error_app1 in Hk by exact Hlt.
        pose proof (tracked_at_length _ _ _ _ _ _ _ Htr Hk Hn) as Hlen.
        rewrite nth_error_app1 by exact Hlen.
        apply (tracked_at _ _ _ _ Htr k t n Hk Hn).
      * rewrite nth_error_app2 in Hk by exact Hge.
        destruct (k - length (tasks u))%nat as [|j];
          [|destruct j; discriminate Hk].
        cbn [nth_error] in Hk. injection Hk as <-. cbn [postedAt phase] in Hn.
        injection Hn as <-. rewrite nth_error_app2, Nat.sub_diag by lia.
        cbn [nth_error chunk]. unfold payloadFor. rewrite Hwav. reflexivity.
  - split; cbn [hookState tasks].
    + rewrite payloads_app. unfold payloads at 2.
      cbn [filter isPosted phase map]. rewrite app_nil_r.
      apply (tracked_count _ _ _ _ Htr).
    + intros k t n Hk Hn.
      destruct (Nat.lt_ge_cases k (length (tasks u))) as [Hlt|Hge].
      * rewrite nth_error_app1 in Hk by exact Hlt.
        apply (tracked_at _ _ _ _ Htr k t n Hk Hn).
      * rewrite nth_error_app2 in Hk by exact Hge.
        destruct (k - length (tasks u))%nat as [|j];
          [|destruct j; discriminate Hk].
        cbn [nth_error] in Hk. injection Hk as <-. discriminate Hn.
Qed.

Lemma nth_error_middle {A : Type} (l1 l2 : list A) (a x : A) (j : nat) :
  j <> length l1 ->
  nth_error (l1 ++ x :: l2) j = nth_error (l1 ++ a :: l2) j.
Proof.
  intros Hj. destruct (Nat.lt_ge_cases j (length l1)) as [Hlt|Hge].
  - now rewrite !nth_error_app1 by exact Hlt.
  - rewrite !nth_error_app2 by exact Hge.
    destruct (j - length l1)%nat as [|i] eqn:E; [lia|reflexivity].
Qed.

Lemma Tracked_converted (P : Platform) (fetch : nat -> Blob -> FetchOutcome)
  (before : list Request) (k : nat) (u : Uploads) :
  Tracked P fetch before u -> Tracked P fetch before (converted P fetch k u).
Proof.
  intros Htr. unfold converted.
  destruct (nth_error (tasks u) k) as [[c [|n|n]]|] eqn:E; try exact Htr.
  pose proof E as Hsplit. apply nth_error_split in Hsplit.
  destruct Hsplit as (l1 & l2 & Hts & Hlen).
  split; cbn [hookState tasks].
  - pose proof (tracked_count _ _ _ _ Htr) as Hperm.
    rewrite Hts in Hperm |- *. rewrite <- Hlen, update_here.
    rewrite payloads_app in Hperm |- *.
    unfold payloads at 2 in Hperm. unfold payloads at 2.
    cbn [filter isPosted phase map chunk] in Hperm |- *.
    fold (payloads P l2) in Hperm |- *.
    unfold post. cbn [requests]. rewrite map_app. cbn [map].
    rewrite transcribeBlob_file.
    rewrite app_assoc in Hperm |- *.
    eapply Permutation_trans; [apply Permutation_sym, Permutation_cons_append|].
    apply Permutation_cons_app. exact Hperm.
  - intros j t m Hj Hm. unfold post. cbn [requests].
    destruct (Nat.eq_dec j k) as [->|Hne].
    + rewrite Hts, <- Hlen, update_here in Hj.
      rewrite nth_error_app2, Nat.sub_diag in Hj by lia.
      cbn [nth_error] in Hj. injection Hj as <-.
      cbn [postedAt phase] in Hm. injection Hm as <-.
      rewrite nth_error_app2, Nat.sub_diag by lia. reflexivity.
    + assert (Hj' : nth_error (tasks u) j = Some t).
      { rewrite Hts in Hj |- *. rewrite <- Hlen, update_here in Hj.
        rewrite <- Hj. symmetry. apply nth_error_middle. lia. }
      pose proof (tracked_at_length _ _ _ _ _ _ _ Htr Hj' Hm) as Hlt.
      rewrite nth_error_app1 by exact Hlt.
      apply (tracked_at _ _ _ _ Htr j t m Hj' Hm).
Qed.

Lemma requests_replied (P : Platform) (fetch : nat -> Blob -> FetchOutcome)
  (k : nat) (u : Uploads) :
  requests (hookState (replied P fetch k u)) = requests (hookState u).
Proof.
  unfold replied. destruct (nth_error (tasks u) k) as [[c [|n|n]]|];
    try reflexivity.
  cbn [hookState]. destruct (snd _); reflexivity.
Qed.

Lemma Tracked_replied (P : Platform) (fetch : nat -> Blob -> FetchOutcome)
  (before : list Request) (k : nat) (u : Uploads) :
  Tracked P fetch before u -> Tracked P fetch before (replied P fetch k u).
Proof.
  intros Htr.
  destruct (nth_error (tasks u) k) as [[c [|n|n]]|] eqn:E;
    try (unfold replied; rewrite E; exact Htr).
  pose proof E as Hsplit. apply nth_error_split in Hsplit.
  destruct Hsplit as (l1 & l2 & Hts & Hlen).
  assert (Htasks : tasks (replied P fetch k u)
                   = l1 ++ {| chunk := c; phase := Settled n |} :: l2).
  { unfold replied. rewrite E. cbn [tasks]. rewrite Hts, <- Hlen.
    apply update_here. }
  split; rewrite requests_replied.
  - pose proof (tracked_count _ _ _ _ Htr) as Hperm.
    rewrite Htasks. rewrite Hts in Hperm.
    rewrite payloads_app in Hperm |- *. exact Hperm.
  - intros j t m Hj Hm. rewrite Htasks in Hj.
    destruct (Nat.eq_dec j k) as [->|Hne].
    + rewrite <- Hlen, nth_error_app2, Nat.sub_diag in Hj by lia.
      cbn [nth_error] in Hj. injection Hj as <-.
      cbn [postedAt phase chunk] in Hm |- *.
      apply (tracked_at _ _ _ _ Htr k {| chunk := c; phase := Posted n |} m E Hm).
    + assert (Hj' : nth_error (tasks u) j = Some t).
      { rewrite Hts. rewrite <- Hj. apply nth_error_middle. lia. }
      apply (tracked_at _ _ _ _ Htr j t m Hj' Hm).
Qed.

Lemma Tracked_fresh (P : Platform) (fetch : nat -> Blob -> FetchOutcome)
  (st : HookState) :
  Tracked P fetch (requests st) {| hookState := st; tasks := [] |}.
Proof.
  split; cbn [hookState tasks].
  - unfold payloads. cbn [filter map]. rewrite app_nil_r. apply Permutation_refl.
  - intros k t n Hk. destruct k; discriminate Hk.
Qed.

Lemma Tracked_done (P : Platform) (fetch : nat -> Blob -> FetchOutcome)
  (before : list Request) (u : Uploads) :
  Tracked P fetch before u -> allPosted (tasks u) ->
  Permutation (map file (requests (hookState u)))
              (map file before ++ map (payloadFor P) (map chunk (tasks u))) /\
  length (requests (hookState u)) = (length before + length (tasks u))%nat.
Proof.
  intros Htr Hall. pose proof (tracked_count _ _ _ _ Htr) as Hperm.
  rewrite (payloads_allPosted P _ Hall) in Hperm. split; [exact Hperm|].
  apply Permutation_length in Hperm.
  rewrite length_app, !length_map in Hperm. exact Hperm.
Qed.

End AsyncFacts.

Section AsyncRecordingFacts.
Import AudioProcessing Transcript Pipeline Async AsyncRecording.
Import Recording Artifact.

Lemma submit_spec (P : Platform) (fetch : nat -> Blob -> FetchOutcome)
  (mimeType : string) (before : list Request) (sealed : list Segment) :
  forall u,
  Forall (fun seg => seg <> [] /\ Forall (fun c => 0 < size c) seg) sealed ->
  Tracked P fetch before u ->
  Tracked P fetch before (submit fetch mimeType sealed u) /\
  map chunk (tasks (submit fetch mimeType sealed u))
  = map chunk (tasks u) ++ map (segBlob mimeType) sealed.
Proof.
  induction sealed as [|seg sealed IH]; intros u Hall Htr.
  - cbn. rewrite app_nil_r. auto.
  - apply Forall_cons_iff in Hall. destruct Hall as [[Hne Hseg] Hall].
    unfold submit in *. cbn [fold_left].
    destruct (IH (start fetch (segBlob mimeType seg) u) Hall
                 (Tracked_start P fetch before _ u Htr)) as [Htr' Hch].
    split; [exact Htr'|]. rewrite Hch, chunks_start.
    + cbn [map]. now rewrite <- app_assoc.
    + now apply size_segBlob.
Qed.

Lemma onstop_keeps_nonempty (r : Refs) :
  Forall (fun c => 0 < size c) (segmentChunksRef r) ->
  Forall (fun c => 0 < size c) (segmentChunksRef (fst (Recording.onstop true r))) /\
  Forall (fun seg => seg <> [] /\ Forall (fun c => 0 < size c) seg)
    (snd (Recording.onstop true r)).
Proof.
  intros Hbuf. unfold Recording.onstop. cbn [andb].
  destruct (segmentChunksRef r) as [|c buf] eqn:E;
    cbn [length Nat.ltb Nat.leb fst snd segmentChunksRef].
  - rewrite E. auto.
  - split; [constructor|]. constructor; [|constructor].
    split; [discriminate|exact Hbuf].
Qed.

(** The segments one recorder seals from the refs [r]. *)
Lemma run_spec (P : Platform) (fetch : nat -> Blob -> FetchOutcome)
  (mimeType : string) (target : Q) (before : list Request)
  (events : list Event) :
  forall (s : State) (datas : list Blob) (stopped : bool),
  recorderEvents events = ofRecorder datas stopped ->
  Forall (fun c => 0 < size c) (segmentChunksRef (refs s)) ->
  Tracked P fetch before (uploads s) ->
  Tracked P fetch before (uploads (run P fetch mimeType target events s)) /\
  map chunk (tasks (uploads (run P fetch mimeType target events s)))
  = map chunk (tasks (uploads s))
    ++ map (segBlob mimeType)
         (snd (feed true target datas (refs s))
          ++ (if stopped
              then snd (Recording.onstop true
                          (fst (feed true target datas (refs s))))
              else [])).
Proof.
  induction events as [|ev events IH]; intros s datas stopped Hrec Hbuf Htr.
  - cbn [recorderEvents filter] in Hrec. unfold ofRecorder in Hrec.
    destruct datas as [|d datas]; [|discriminate Hrec].
    destruct stopped; [discriminate Hrec|].
    cbn. rewrite app_nil_r. auto.
  - unfold run in *. cbn [fold_left].
    destruct ev as [data| |k|k]; cbn [recorderEvents filter] in Hrec;
      fold (recorderEvents events) in Hrec.
    + unfold ofRecorder in Hrec.
      destruct datas as [|d datas];
        [destruct stopped; discriminate Hrec|].
      cbn [map app] in Hrec. injection Hrec as <- Hrec.
      cbn [step feed].
      destruct (ondataavailable_keeps_nonempty target data (refs s) Hbuf)
        as [Hbuf1 Hsealed].
      destruct (ondataavailable true target data (refs s)) as [r1 s1].
      cbn [fst snd] in Hbuf1, Hsealed.
      destruct (submit_spec P fetch mimeType before s1 (uploads s) Hsealed Htr)
        as [Htr1 Hch1].
      destruct (IH {| refs := r1; uploads := submit fetch mimeType s1 (uploads s) |}
                   datas stopped Hrec Hbuf1 Htr1) as [Htr2 Hch2].
      cbn [refs uploads] in Hch2.
      split; [exact Htr2|]. rewrite Hch2, Hch1.
      destruct (feed true target datas r1) as [r2 s2]. cbn [fst snd].
      rewrite !map_app, <- !app_assoc. reflexivity.
    + unfold ofRecorder in Hrec.
      destruct datas as [|d datas]; [|discriminate Hrec].
      destruct stopped; [|discriminate Hrec].
      cbn [map app] in Hrec. injection Hrec as Hrec.
      cbn [step feed fst snd app].
      destruct (onstop_keeps_nonempty (refs s) Hbuf) as [Hbuf1 Hsealed].
      destruct (Recording.onstop true (refs s)) as [r1 s1].
      cbn [fst snd] in Hbuf1, Hsealed.
      destruct (submit_spec P fetch mimeType before s1 (uploads s) Hsealed Htr)
        as [Htr1 Hch1].
      destruct (IH {| refs := r1; uploads := submit fetch mimeType s1 (uploads s) |}
                   [] false Hrec Hbuf1 Htr1) as [Htr2 Hch2].
      cbn [refs uploads feed snd fst app map] in Hch2.
      rewrite app_nil_r in Hch2.
      split; [exact Htr2|]. rewrite Hch2, Hch1. reflexivity.
    + cbn [step].
      destruct (IH {| refs := refs s; uploads := converted P fetch k (uploads s) |}
                   datas stopped Hrec Hbuf
                   (Tracked_converted P fetch before k _ Htr)) as [Htr2 Hch2].
      cbn [refs uploads] in Hch2. rewrite chunks_converted in Hch2. auto.
    + cbn [step].
      destruct (IH {| refs := refs s; uploads := replied P fetch k (uploads s) |}
                   datas stopped Hrec Hbuf
                   (Tracked_replied P fetch before k _ Htr)) as [Htr2 Hch2].
      cbn [refs uploads] in Hch2. rewrite chunks_replied in Hch2. auto.
Qed.

Lemma sealedSegments_feed (d : option Q) (datas : list Blob) (stopped : bool) :
  snd (feed true (segmentTargetMs d) datas initialRefs)
  ++ (if stopped
      then snd (Recording.onstop true
                  (fst (feed true (segmentTargetMs d) datas initialRefs)))
      else [])
  = sealedSegments d datas stopped.
Proof.
  unfold sealedSegments, session, recording.
  destruct (feed true (segmentTargetMs d) datas initialRefs) as [r sealed].
  cbn [fst snd]. destruct stopped; [|apply app_nil_r].
  destruct (Recording.onstop true r) as [r' final]. reflexivity.
Qed.

(** X4: in one recording with streaming on, a call of
    [sendChunkToTranscription] is started for every sealed segment, in
    sealing order and with the segment's blob, whatever happens in between;
    whatever the order in which conversions complete and answers arrive,
    each call sends at most one request, at an index of its own, carrying
    the payload of its segment, and nothing else is sent.  Once no call is
    waiting for its conversion, the requests sent are, up to their order,
    exactly the payloads of the sealed segments: every sealed segment is
    uploaded exactly once. *)
Theorem X4_every_sealed_segment_is_uploaded_exactly_once
  (P : Platform) (fetch : nat -> Blob -> FetchOutcome) (mimeType : string)
  (d : option Q) (datas : list Blob) (stopped : bool) (events : list Event)
  (st : HookState) :
  recorderEvents events = ofRecorder datas stopped ->
  let s := run P fetch mimeType (segmentTargetMs d) events (fresh st) in
  map chunk (tasks (uploads s))
    = map (segBlob mimeType) (sealedSegments d datas stopped) /\
  Permutation (map file (requests (hookState (uploads s))))
              (map file (requests st) ++ payloads P (tasks (uploads s))) /\
  (forall k t n,
     nth_error (tasks (uploads s)) k = Some t -> postedAt t = Some n ->
     nth_error (requests (hookState (uploads s))) n
     = Some (fst (transcribeBlob fetch n (payloadFor P (chunk t))))) /\
  (allPosted (tasks (uploads s)) ->
   Permutation (map file (requests (hookState (uploads s))))
               (map file (requests st)
                ++ map (fun seg => payloadFor P (segBlob mimeType seg))
                       (sealedSegments d datas stopped)) /\
   length (requests (hookState (uploads s)))
   = (length (requests st) + length (sealedSegments d datas stopped))%nat).
Proof.
  intros Hrec s.
  destruct (run_spec P fetch mimeType (segmentTargetMs d) (requests st) events
              (fresh st) datas stopped Hrec (Forall_nil _)
              (Tracked_fresh P fetch st)) as [Htr Hch].
  fold s in Htr, Hch. cbn [fresh refs uploads tasks map app] in Hch.
  rewrite sealedSegments_feed in Hch.
  split; [exact Hch|].
  split; [apply (tracked_count _ _ _ _ Htr)|].
  split; [apply (tracked_at _ _ _ _ Htr)|].
  intros Hall. destruct (Tracked_done P fetch _ _ Htr Hall) as [Hperm Hlen].
  rewrite Hch, map_map in Hperm.
  split; [exact Hperm|].
  rewrite Hlen. f_equal.
  apply (f_equal (@length Blob)) in Hch. now rewrite !length_map in Hch.
Qed.

(** X4 on six chunks and a stop against a target of one second, the
    conversions completing out of order. *)
Lemma X4_out_of_order_witness :
  Permutation
    (map file (requests (hookState (uploads
       (run deafPlatform silentServer Live.opusMime (segmentTargetMs (Some 1%Q))
            outOfOrder (fresh initialHookState))))))
    (map file (requests initialHookState)
     ++ map (fun seg => payloadFor deafPlatform (segBlob Live.opusMime seg))
            (sealedSegments (Some 1%Q) (sampleChunks 6) true)).
Proof.
  refine (proj1 (proj2 (proj2 (proj2
            (X4_every_sealed_segment_is_uploaded_exactly_once
               deafPlatform silentServer Live.opusMime (Some 1%Q)
               (sampleChunks 6) true outOfOrder initialHookState eq_refl))) _)).
  unfold allPosted. vm_compute. repeat constructor.
Defined.

(** In that run the third segment is sent first and the segment sealed at
    the stop last. *)
Example requests_follow_the_conversions :
  map file (requests (hookState (uploads
     (run deafPlatform silentServer Live.opusMime (segmentTargetMs (Some 1%Q))
          outOfOrder (fresh initialHookState)))))
  = map (fun k => payloadFor deafPlatform
                    (segBlob Live.opusMime
                       (nth k (sealedSegments (Some 1%Q) (sampleChunks 6) true) [])))
        [2; 0; 1; 3]%nat.
Proof. vm_compute. reflexivity. Qed.

End AsyncRecordingFacts.

Section AsyncLiveFacts.
Import AudioProcessing Transcript Pipeline Live Async AsyncLive.

Lemma consistent_withHook (h : HookState) (c : LiveState) :
  consistent c -> consistent (withHook h c).
Proof. intros H. exact H. Qed.





Lemma run_snoc (P : Platform) (fetch : nat -> Blob -> FetchOutcome)
  (mime : string) (events : list Event) (ev : Event) (s : State) :
  run P fetch mime (events ++ [ev]) s
  = step P fetch mime (run P fetch mime events s) ev.
Proof. unfold run. now rewrite fold_left_app. Qed.



(** When [recorder.start()] throws at the first start, the loop is left
    active with a recorder that never records. *)
Example start_throws_leaves_the_loop_stuck :
  let s := run deafPlatform silentServer opusMime
             [StartLive true true startFails; Timeout webmChunk spawnOk;
              StartLive true true spawnOk] initial in
  liveLoopActiveRef (control s) = true /\
  liveSubtitlesEnabled (control s) = true /\
  liveRecorderRef (control s) = Some {| state := inactive; chunks := [] |} /\
  error (hook (control s)) = Some (LiveStartFailed "InvalidStateError") /\
  requests (hook (control s)) = [].
Proof. repeat split. Qed.

Lemma uploadsOf_onUploads (f : Uploads -> Uploads) (s : State) :
  uploadsOf (onUploads f s) = f (uploadsOf s).
Proof.
  unfold uploadsOf, onUploads. cbn [control inFlight withHook hook].
  destruct (f _). reflexivity.
Qed.

Lemma Looping_step (P : Platform) (fetch : nat -> Blob -> FetchOutcome)
  (mime : string) (s : State) (gs : list Blob) (ev : Event) :
  Looping P fetch mime s gs -> segmentEvent ev ->
  Looping P fetch mime (step P fetch mime s ev) (gs ++ gatheredBy [ev]).
Proof.
  intros [Hloop Href Htr Hch] Hev.
  destruct ev as [hasStream mimeSupported env|gathered env|gathered env|k|k];
    cbn [segmentEvent] in Hev; try contradiction; cbn [step gatheredBy flat_map app].
  - destruct Hev as [Hpos ->].
    assert (Hblob : 0 < size (new_Blob [gathered] (Some mime))).
    { apply (size_new_Blob_pos [] gathered (Some mime) Hpos). }
    unfold AsyncLive.onTimeout. rewrite Href. cbn [state].
    unfold AsyncLive.recorder_stop, Live.ondataavailable. cbn [chunks].
    apply Z.ltb_lt in Hpos. rewrite Hpos. cbn [app].
    unfold AsyncLive.onstop. cbn [length Nat.ltb Nat.leb].
    match goal with
    | |- context [onUploads ?f ?s0'] => set (s1 := onUploads f s0')
    end.
    assert (Hl1 : liveLoopActiveRef (control s1) = true) by exact Hloop.
    rewrite Hl1.
    assert (Hu1 : uploadsOf s1
                  = start fetch (new_Blob [gathered] (Some mime)) (uploadsOf s)).
    { unfold s1. rewrite uploadsOf_onUploads. reflexivity. }
    assert (Hc2 : control (onControl (startSegmentRecorder spawnOk) s1)
                  = {| liveLoopActiveRef := true;
                       liveRecorderRef :=
                         Some {| state := recording; chunks := [] |};
                       liveSubtitlesEnabled := liveSubtitlesEnabled (control s1);
                       hook := hook (control s1) |}).
    { cbn [onControl control]. unfold startSegmentRecorder. rewrite Hl1.
      reflexivity. }
    split.
    + rewrite Hc2. reflexivity.
    + rewrite Hc2. reflexivity.
    + assert (Hu2 : uploadsOf (onControl (startSegmentRecorder spawnOk) s1)
                    = uploadsOf s1).
      { unfold uploadsOf at 1. rewrite Hc2. reflexivity. }
      rewrite Hu2, Hu1. now apply Tracked_start.
    + change (inFlight (onControl (startSegmentRecorder spawnOk) s1))
        with (tasks (uploadsOf s1)).
      rewrite Hu1, chunks_start by exact Hblob.
      cbn [uploadsOf tasks]. rewrite Hch, map_app. reflexivity.
  - rewrite app_nil_r. split; try assumption.
    + rewrite uploadsOf_onUploads. now apply Tracked_converted.
    + change (inFlight (onUploads (converted P fetch k) s))
        with (tasks (converted P fetch k (uploadsOf s))).
      rewrite chunks_converted. exact Hch.
  - rewrite app_nil_r. split; try assumption.
    + rewrite uploadsOf_onUploads. now apply Tracked_replied.
    + change (inFlight (onUploads (replied P fetch k) s))
        with (tasks (replied P fetch k (uploadsOf s))).
      rewrite chunks_replied. exact Hch.
Qed.

Lemma gatheredBy_cons (ev : Event) (events : list Event) :
  gatheredBy (ev :: events) = gatheredBy [ev] ++ gatheredBy events.
Proof. unfold gatheredBy. cbn [flat_map]. now rewrite app_nil_r. Qed.

Lemma Looping_run (P : Platform) (fetch : nat -> Blob -> FetchOutcome)
  (mime : string) (events : list Event) :
  forall s gs,
  Looping P fetch mime s gs -> Forall segmentEvent events ->
  Looping P fetch mime (run P fetch mime events s) (gs ++ gatheredBy events).
Proof.
  induction events as [|ev events IH]; intros s gs Hs Hall.
  - cbn. now rewrite app_nil_r.
  - apply Forall_cons_iff in Hall. destruct Hall as [Hev Hall].
    unfold run in *. cbn [fold_left].
    rewrite gatheredBy_cons, app_assoc. apply IH; [|exact Hall].
    now apply Looping_step.
Qed.

(** X17: in the live loop each timer expiry hands the audio of its own
    recorder, and nothing else, to [sendChunkToTranscription]: after any
    run of timer expiries of recorders that gathered audio, with
    conversions completing and answers arriving in any order in between,
    one call has been started per recorder, in the order of the expiries,
    each with a blob of just the bytes its recorder gathered; each call
    sends at most one request, at an index of its own, carrying the payload
    of its blob, and once no call is waiting for its conversion the
    requests sent are, up to their order, the payloads of the gathered
    blobs.  A fresh recorder is recording. *)
Theorem X17_live_segments_do_not_overlap (P : Platform)
  (fetch : nat -> Blob -> FetchOutcome) (mime : string)
  (events : list Event) :
  Forall segmentEvent events ->
  let s := run P fetch mime events started in
  map chunk (inFlight s)
    = map (fun g => new_Blob [g] (Some mime)) (gatheredBy events) /\
  Forall (fun g => bytes (new_Blob [g] (Some mime)) = bytes g)
         (gatheredBy events) /\
  Permutation (map file (requests (hook (control s))))
              (payloads P (inFlight s)) /\
  (forall k t n,
     nth_error (inFlight s) k = Some t -> postedAt t = Some n ->
     nth_error (requests (hook (control s))) n
     = Some (fst (transcribeBlob fetch n (payloadFor P (chunk t))))) /\
  (allPosted (inFlight s) ->
   Permutation (map file (requests (hook (control s))))
               (map (fun g => payloadFor P (new_Blob [g] (Some mime)))
                    (gatheredBy events))) /\
  liveRecorderRef (control s) = Some {| state := recording; chunks := [] |}.
Proof.
  intros Hall s.
  assert (Hstart : Looping P fetch mime started []).
  { split; try reflexivity. apply (Tracked_fresh P fetch initialHookState). }
  pose proof (Looping_run P fetch mime events started [] Hstart Hall)
    as [Hloop Href Htr Hch].
  fold s in Hloop, Href, Htr, Hch. cbn [app] in Hch.
  split; [exact Hch|]. split.
  { apply Forall_forall. intros g _. unfold new_Blob. cbn [bytes map concat].
    apply app_nil_r. }
  split; [exact (tracked_count _ _ _ _ Htr)|].
  split; [exact (tracked_at _ _ _ _ Htr)|].
  split; [|exact Href].
  intros Hposted.
  destruct (Tracked_done P fetch [] (uploadsOf s) Htr Hposted) as [Hperm _].
  cbn [uploadsOf hookState tasks map app] in Hperm.
  rewrite Hch, map_map in Hperm. exact Hperm.
Qed.

(** X17 on two recorders, the audio of the second sent first. *)
Lemma X17_live_segments_witness :
  Permutation
    (map file (requests (hook (control
       (run deafPlatform silentServer opusMime secondFirst started)))))
    (map (fun g => payloadFor deafPlatform (new_Blob [g] (Some opusMime)))
         (gatheredBy secondFirst)).
Proof.
  refine (proj1 (proj2 (proj2 (proj2 (proj2
            (X17_live_segments_do_not_overlap deafPlatform silentServer
               opusMime secondFirst _))))) _).
  - unfold secondFirst. repeat constructor.
  - unfold allPosted. vm_compute. repeat constructor.
Defined.

(** In that run the request for the second recorder's audio is the first
    request. *)
Example second_recorder_is_sent_first :
  map file (requests (hook (control
     (run deafPlatform silentServer opusMime secondFirst started))))
  = [new_Blob [stereoWav] (Some opusMime); new_Blob [webmChunk] (Some opusMime)].
Proof. vm_compute. reflexivity. Qed.

Lemma settle_nothing (P : Platform) (fetch : nat -> Blob -> FetchOutcome)
  (u : Uploads) :
  replied P fetch (length (tasks u)) (converted P fetch (length (tasks u)) u) = u.
Proof.
  unfold converted, replied.
  rewrite (proj2 (nth_error_None (tasks u) (length (tasks u))) (Nat.le_refl _)).
  rewrite (proj2 (nth_error_None (tasks u) (length (tasks u))) (Nat.le_refl _)).
  reflexivity.
Qed.

Lemma Live_stop_form (P : Platform) (fetch : nat -> Blob -> FetchOutcome)
  (mime : string) (gathered : Blob) (env : Spawn) (c : LiveState) :
  Live.stopLiveSubtitles P fetch mime gathered env c
  = {| liveLoopActiveRef := false;
       liveRecorderRef := None;
       liveSubtitlesEnabled := false;
       hook := match flushedBy mime gathered c with
               | Some b => sendChunkToTranscription P fetch b (hook c)
               | None => hook c
               end |}.
Proof.
  unfold Live.stopLiveSubtitles, flushedBy. cbn [liveRecorderRef].
  destruct (liveRecorderRef c) as [r|] eqn:Href.
  - destruct (state r); [reflexivity|].
    unfold Live.recorder_stop, Live.onstop. cbn [chunks liveRecorderRef].
    destruct (0 <? length _)%nat; reflexivity.
  - reflexivity.
Qed.

Lemma Async_stop_form (fetch : nat -> Blob -> FetchOutcome)
  (mime : string) (gathered : Blob) (env : Spawn) (s : State) :
  let s' := AsyncLive.stopLiveSubtitles fetch mime gathered env s in
  uploadsOf s' = match flushedBy mime gathered (control s) with
                 | Some b => start fetch b (uploadsOf s)
                 | None => uploadsOf s
                 end /\
  liveLoopActiveRef (control s') = false /\
  liveRecorderRef (control s') = None /\
  liveSubtitlesEnabled (control s') = false.
Proof.
  cbv zeta. unfold AsyncLive.stopLiveSubtitles, flushedBy.
  cbn [onControl control liveRecorderRef].
  destruct (liveRecorderRef (control s)) as [r|] eqn:Href.
  - destruct (state r); [repeat split|].
    unfold AsyncLive.recorder_stop, AsyncLive.onstop.
    cbn [chunks onControl control liveLoopActiveRef liveRecorderRef].
    destruct (0 <? length _)%nat; [|repeat split].
    match goal with
    | |- context [onUploads ?f ?s0] =>
        pose proof (uploadsOf_onUploads f s0) as Hu; set (s1 := onUploads f s0) in *
    end.
    split; [|repeat split]. exact Hu.
  - cbn [control liveLoopActiveRef liveRecorderRef liveSubtitlesEnabled].
    repeat split. exact Href.
Qed.

(** The stop of the loop in [Live], where the upload of the stopped
    recorder's audio settles at once, is the stop of the loop here followed
    by the completion of that upload. *)
Lemma stop_settled_at_once (P : Platform) (fetch : nat -> Blob -> FetchOutcome)
  (mime : string) (gathered : Blob) (env : Spawn) (s : State) :
  let k := length (inFlight s) in
  control (onUploads (replied P fetch k)
             (onUploads (converted P fetch k)
                (AsyncLive.stopLiveSubtitles fetch mime gathered env s)))
  = Live.stopLiveSubtitles P fetch mime gathered env (control s).
Proof.
  cbv zeta. rewrite Live_stop_form.
  assert (Hctl : forall f s0,
            control (onUploads f s0)
            = withHook (hookState (f (uploadsOf s0))) (control s0))
    by reflexivity.
  rewrite Hctl, uploadsOf_onUploads, Hctl.
  destruct (Async_stop_form fetch mime gathered env s) as (Hu & Hl & Hr & He).
  rewrite Hu. unfold withHook.
  cbn [liveLoopActiveRef liveRecorderRef liveSubtitlesEnabled hook].
  rewrite Hl, Hr, He. f_equal.
  change (length (inFlight s)) with (length (tasks (uploadsOf s))).
  destruct (flushedBy mime gathered (control s)) as [b|].
  - apply (settled_at_once P fetch b (uploadsOf s)).
  - now rewrite settle_nothing.
Qed.

End AsyncLiveFacts.
